(** * ExpensesTracker: the SMS expense extractor of [src/App.jsx]

    The development embeds [parseExpenseFromSms] (App.jsx, lines 106-120) and
    the map/filter pipeline of [scanSmsForExpenses] (lines 85-93).

    - JavaScript strings are sequences of UTF-16 code units ([list N]).
    - The regular expression literal is a term of [regex]; it is run by a
      backtracking matcher written in continuation-passing style after the
      ECMAScript pattern semantics (ECMA-262, 22.2.2).
    - Numbers are IEEE-754 binary64 values ([spec_float] of the Standard
      Library); [parseFloat] rounds the decimal it reads to the nearest
      double, ties to even. *)

From Stdlib Require Import String Ascii.
From Stdlib Require Import List NArith ZArith Bool Lia.
From Stdlib Require Import Floats.SpecFloat Floats.PrimFloat Floats.FloatOps.
Import ListNotations.



(* ================================================================= *)
(** ** JavaScript strings *)

Module JsString.

(** One UTF-16 code unit. *)
Definition char16 := N.
Definition jsstring := list char16.

(** An ASCII literal as a JavaScript string. *)
Definition lit (s : string) : jsstring :=
  List.map N_of_ascii (list_ascii_of_string s).

(** U+20B9 INDIAN RUPEE SIGN, one code unit. *)
Definition rupee : char16 := 8377%N.

Definition code (a : ascii) : char16 := N_of_ascii a.

(** [\d] is exactly [0-9]. *)
Definition is_digit (c : char16) : bool := ((48 <=? c) && (c <=? 57))%N.

(** [\s]: the WhiteSpace and LineTerminator code points (ECMA-262, 12.2 and
    12.3): TAB, LF, VT, FF, CR, SP, NBSP, U+1680, U+2000..U+200A, LS, PS,
    U+202F, U+205F, U+3000 and U+FEFF. *)
Definition is_space (c : char16) : bool :=
  (((9 <=? c) && (c <=? 13)) || (c =? 32) || (c =? 160) || (c =? 5760)
   || ((8192 <=? c) && (c <=? 8202)) || (c =? 8232) || (c =? 8233)
   || (c =? 8239) || (c =? 8287) || (c =? 12288) || (c =? 65279))%N.

(** [Canonicalize] for a pattern with the [i] flag and without [u]
    (ECMA-262, 22.2.2.7.3): the code unit is upper-cased, except that a
    code unit of value 128 or more is never mapped to one below 128.  The
    pattern of this program compares only against [R], [S], [I], [N], [:],
    [.] and U+20B9; no code unit outside ASCII upper-cases to U+20B9 and
    none may canonicalize into ASCII, so the ASCII part of the mapping is
    all these comparisons can observe. *)
Definition canonicalize (c : char16) : char16 :=
  if ((97 <=? c) && (c <=? 122))%N then (c - 32)%N else c.

(** [s.slice(0, n)] for a non-negative [n]. *)
Definition slice0 (s : jsstring) (n : nat) : jsstring := firstn n s.

End JsString.
Import JsString.

(* ================================================================= *)
(** ** Regular expressions *)

Module RegExp.

(** The pattern syntax the program uses. [RQuant a min max] is the greedy
    quantifier [a{min,max}] ([None] for no upper bound): [?] is
    [{0,1}] and [+] is [{1,}].  [RGroup n a] is the [n]-th capturing group;
    a non-capturing group [(?:a)] is [a] itself. *)
Inductive regex : Type :=
| RChar (c : char16)
| RClass (p : char16 -> bool)
| RSeq (a b : regex)
| RAlt (a b : regex)
| RGroup (n : nat) (a : regex)
| RQuant (a : regex) (min : nat) (max : option nat).

(** The matcher state: the input still to be read and the captures so far
    (group [n] at position [n - 1]).  The [endIndex] of ECMA-262 is the
    length of the input minus the length of [rest]. *)
Record state : Type := State { rest : jsstring; caps : list (option jsstring) }.

Definition cont := state -> option state.
Definition matcher := state -> cont -> option state.

Fixpoint set_nth {A} (n : nat) (v : A) (l : list A) : list A :=
  match n, l with
  | _, [] => []
  | O, _ :: l' => v :: l'
  | S n', x :: l' => x :: set_nth n' v l'
  end.

Definition set_cap (n : nat) (v : option jsstring) (c : list (option jsstring)) :=
  set_nth (pred n) v c.

(** The text consumed between two states of one run. *)
Definition consumed (from to : jsstring) : jsstring :=
  firstn (length from - length to) from.

Fixpoint groups_of (r : regex) : list nat :=
  match r with
  | RChar _ | RClass _ => []
  | RSeq a b | RAlt a b => groups_of a ++ groups_of b
  | RGroup n a => n :: groups_of a
  | RQuant a _ _ => groups_of a
  end.

Definition clear_caps (gs : list nat) (x : state) : state :=
  State (rest x) (fold_right (fun n c => set_cap n None c) (caps x) gs).

(** [RepeatMatcher] (ECMA-262, 22.2.2.3.1), greedy.  An iteration that
    consumes nothing once [min] is reached fails; hence every call either
    lowers [min] or shortens the input, and [fuel] above their sum is never
    exhausted. *)
Fixpoint repeat_matcher (fuel : nat) (m : matcher) (min : nat) (max : option nat)
         (gs : list nat) (x : state) (c : cont) {struct fuel} : option state :=
  match max with
  | Some O => c x
  | _ =>
    match fuel with
    | O => None
    | S fuel' =>
      let d : cont := fun y =>
        if (min =? 0)%nat && (length (rest y) =? length (rest x))%nat then None
        else repeat_matcher fuel' m (pred min) (option_map pred max) gs y c in
      let xr := clear_caps gs x in
      if (min =? 0)%nat then
        match m xr d with
        | Some z => Some z
        | None => c x
        end
      else m xr d
    end
  end.

(** [CompileSubpattern] with the [i] flag set. *)
Fixpoint compile (r : regex) (x : state) (c : cont) {struct r} : option state :=
  match r with
  | RChar ch =>
    match rest x with
    | a :: s' => if (canonicalize a =? canonicalize ch)%N
                 then c (State s' (caps x)) else None
    | [] => None
    end
  | RClass p =>
    match rest x with
    | a :: s' => if p a then c (State s' (caps x)) else None
    | [] => None
    end
  | RSeq a b => compile a x (fun y => compile b y c)
  | RAlt a b =>
    match compile a x c with
    | Some z => Some z
    | None => compile b x c
    end
  | RGroup n a =>
    compile a x (fun y =>
      c (State (rest y) (set_cap n (Some (consumed (rest x) (rest y))) (caps y))))
  | RQuant a min max =>
    repeat_matcher (S (min + length (rest x))) (compile a) min max (groups_of a) x c
  end.

(** The match array of [RegExpBuiltinExec]: [index], element 0 and the
    capture groups. *)
Record match_result : Type :=
  MatchResult { index : nat; matched : jsstring; groups : list (option jsstring) }.

(** One attempt of the pattern at the start of [s]. *)
Definition match_here (r : regex) (s : jsstring) : option state :=
  compile r (State s (repeat None (length (groups_of r)))) Some.

(** [RegExpBuiltinExec] for a pattern that is neither global nor sticky:
    the attempts start at index 0 and move right one code unit at a time,
    the last one at the end of the input. *)
Fixpoint exec_from (r : regex) (s : jsstring) (i : nat) : option match_result :=
  match match_here r s with
  | Some y => Some (MatchResult i (consumed s (rest y)) (caps y))
  | None =>
    match s with
    | [] => None
    | _ :: s' => exec_from r s' (S i)
    end
  end.

Definition exec (r : regex) (s : jsstring) : option match_result := exec_from r s 0.

(** [m[n]] for [n >= 1]; [None] is [undefined]. *)
Definition group (m : match_result) (n : nat) : option jsstring :=
  match nth_error (groups m) (pred n) with
  | Some g => g
  | None => None
  end.

(** [s.match(r)] for a non-global [r]. *)
Definition string_match (s : jsstring) (r : regex) : option match_result := exec r s.

(** [s.replace(r, repl)] for a non-global [r] and a replacement text free
    of [$]: the first match is cut out and [repl] put in its place. *)
Definition string_replace (s : jsstring) (r : regex) (repl : jsstring) : jsstring :=
  match exec r s with
  | Some m => firstn (index m) s ++ repl ++ skipn (index m + length (matched m)) s
  | None => s
  end.

End RegExp.
Import RegExp.

(* ================================================================= *)
(** ** Numbers and [parseFloat] *)

Module Number.

(** A Number is a binary64 value: [prec = 53], [emax = 1024]. *)
Definition number := spec_float.
Definition prec : Z := 53.
Definition emax : Z := 1024.

Definition NaN : number := S754_nan.

(** [Number.isFinite]. *)
Definition isFinite (x : number) : bool :=
  match x with
  | S754_zero _ | S754_finite _ _ _ => true
  | S754_infinity _ | S754_nan => false
  end.

(** [x < 0]. *)
Definition isNegative (x : number) : bool := SFltb x (S754_zero false).

(** [Number.isNaN]. *)
Definition isNaN (x : number) : bool :=
  match x with
  | S754_nan => true
  | _ => false
  end.

(** The largest finite double, [2^1024 - 2^971]: a quotient below it
    rounds to a finite double. *)
Definition overflow_threshold : Z := 2 ^ 1024 - 2 ^ 971.

(** [+0], a positive finite number or [+Infinity]. *)
Definition nonneg_number (x : number) : Prop :=
  match x with
  | S754_zero false | S754_finite false _ _ | S754_infinity false => True
  | _ => False
  end.

(** The Number value for the mathematical value [(-1)^neg * m * 10^e]:
    the quotient of two integers, rounded once to nearest, ties to even. *)
Definition of_decimal (neg : bool) (m : N) (e : Z) : number :=
  match m with
  | N0 => S754_zero neg
  | Npos p =>
    SFdiv prec emax
          (S754_finite neg (Z.to_pos (Zpos p * 10 ^ Z.max e 0)) 0)
          (S754_finite false (Z.to_pos (10 ^ Z.max (- e) 0)) 0)
  end.

Fixpoint span_digits (s : jsstring) : jsstring * jsstring :=
  match s with
  | c :: s' =>
    if is_digit c then let (ds, r) := span_digits s' in (c :: ds, r) else ([], s)
  | [] => ([], [])
  end.

Definition digits_value (ds : jsstring) : N :=
  fold_left (fun acc c => (10 * acc + (c - 48))%N) ds 0%N.

Fixpoint trim_start (s : jsstring) : jsstring :=
  match s with
  | c :: s' => if is_space c then trim_start s' else s
  | [] => []
  end.

Fixpoint starts_with (p s : jsstring) : bool :=
  match p, s with
  | [], _ => true
  | a :: p', b :: s' => (a =? b)%N && starts_with p' s'
  | _ :: _, [] => false
  end.

(** [ExponentPart], when one can be read at the start of [s]; 0 otherwise. *)
Definition exponent_part (s : jsstring) : Z :=
  match s with
  | c :: t =>
    if ((c =? code "e") || (c =? code "E"))%N then
      let '(neg, u) :=
        match t with
        | sg :: u => if (sg =? code "+")%N then (false, u)
                     else if (sg =? code "-")%N then (true, u) else (false, t)
        | [] => (false, t)
        end in
      match span_digits u with
      | ([], _) => 0%Z
      | (ds, _) => if neg then (- Z.of_N (digits_value ds))%Z else Z.of_N (digits_value ds)
      end
    else 0%Z
  | [] => 0%Z
  end.

(** The longest prefix of [s] that is a [StrUnsignedDecimalLiteral]:
    [Infinity], [digits . digits? exp?], [. digits exp?] or [digits exp?]. *)
Definition str_unsigned_decimal (neg : bool) (s : jsstring) : number :=
  if starts_with (lit "Infinity") s then S754_infinity neg
  else
    let (ip, s1) := span_digits s in
    let '(fp, s2) :=
      match s1 with
      | c :: t => if (c =? code ".")%N then span_digits t else ([], s1)
      | [] => ([], s1)
      end in
    match ip ++ fp with
    | [] => NaN
    | ds => of_decimal neg (digits_value ds) (exponent_part s2 - Z.of_nat (length fp))
    end.

(** [parseFloat(s)] (ECMA-262, 19.2.4). *)
Definition parseFloat (s : jsstring) : number :=
  match trim_start s with
  | c :: t =>
    if (c =? code "+")%N then str_unsigned_decimal false t
    else if (c =? code "-")%N then str_unsigned_decimal true t
    else str_unsigned_decimal false (c :: t)
  | [] => NaN
  end.

(** [parseFloat(v)] for [v] a string or [undefined]:
    [ToString(undefined)] is ["undefined"]. *)
Definition parseFloat_value (v : option jsstring) : number :=
  match v with
  | Some s => parseFloat s
  | None => parseFloat (lit "undefined")
  end.

End Number.
Import Number.

(* ================================================================= *)
(** ** The program *)

Module App.

(** The text [new Date(parseInt(date)).toLocaleDateString()] renders is
    fixed by the locale of the device; it is kept symbolic. *)
Inductive locale_date : Type := toLocaleDateString (date : Z).

Record Expense : Type :=
  { amount : number; description : jsstring; date : locale_date }.

(** [/(?:RS|INR|₹)\s?(\d+(:?\.\d{1,2})?)/i] *)
Definition amountRegex : regex :=
  RSeq (RAlt (RSeq (RChar (code "R")) (RChar (code "S")))
             (RAlt (RSeq (RChar (code "I")) (RSeq (RChar (code "N")) (RChar (code "R"))))
                   (RChar rupee)))
 (RSeq (RQuant (RClass is_space) 0 (Some 1))
       (RGroup 1
          (RSeq (RQuant (RClass is_digit) 1 None)
                (RQuant
                   (RGroup 2
                      (RSeq (RQuant (RChar (code ":")) 0 (Some 1))
                      (RSeq (RChar (code "."))
                            (RQuant (RClass is_digit) 1 (Some 2)))))
                   0 (Some 1))))).

(** The body of [parseExpenseFromSms], with the pattern it binds to
    [amountRegex] taken as an argument. *)
Definition parseExpenseWith (amountRegex : regex) (body : jsstring) (date : Z)
  : option Expense :=
  match string_match body amountRegex with
  | Some amountMatch =>
    let amount := parseFloat_value (group amountMatch 1) in
    let description :=
      slice0 (string_replace body amountRegex []) 50 ++ lit "..." in
    Some {| amount := amount;
            description := description;
            date := toLocaleDateString date |}
  | None => None
  end.

(** [parseExpenseFromSms] (App.jsx, lines 106-120). *)
Definition parseExpenseFromSms (body : jsstring) (date : Z) : option Expense :=
  parseExpenseWith amountRegex body date.

(** One element of the parsed inbox list. *)
Record Sms : Type := { sms_body : jsstring; sms_date : Z }.

(** [list.filter(expense => expense !== null)]. *)
Fixpoint filter_non_null (l : list (option Expense)) : list Expense :=
  match l with
  | [] => []
  | Some e :: l' => e :: filter_non_null l'
  | None :: l' => filter_non_null l'
  end.

(** [newExpenses] of [scanSmsForExpenses] (App.jsx, lines 85-93).  The
    calls of [log] in the callback write to the debug text only and leave
    the list as it is. *)
Definition newExpenses (parsedList : list Sms) : list Expense :=
  filter_non_null
    (List.map (fun sms => parseExpenseFromSms (sms_body sms) (sms_date sms)) parsedList).

End App.
Import App.

(* ================================================================= *)
(** ** What the pattern reads at one position

    A direct reading of [amountRegex], proved below to be what the
    backtracking matcher computes. *)

Module Lexer.

Definition ci (ch a : char16) : bool := (canonicalize a =? canonicalize ch)%N.

(** [(?:RS|INR|₹)] *)
Definition strip_marker (s : jsstring) : option jsstring :=
  match s with
  | a :: b :: t =>
    if ci (code "R") a && ci (code "S") b then Some t
    else
      match t with
      | c :: u =>
        if ci (code "I") a && ci (code "N") b && ci (code "R") c then Some u
        else if ci rupee a then Some (b :: t) else None
      | [] => if ci rupee a then Some (b :: t) else None
      end
  | [a] => if ci rupee a then Some [] else None
  | [] => None
  end.

(** [\d{1,2}] *)
Definition digits12 (s : jsstring) : option (jsstring * jsstring) :=
  match s with
  | a :: t =>
    if is_digit a then
      match t with
      | b :: u => if is_digit b then Some ([a; b], u) else Some ([a], t)
      | [] => Some ([a], t)
      end
    else None
  | [] => None
  end.

(** [\.\d{1,2}] *)
Definition dot_digits (s : jsstring) : option (jsstring * jsstring) :=
  match s with
  | a :: t =>
    if ci (code ".") a then
      match digits12 t with
      | Some (ds, r) => Some (a :: ds, r)
      | None => None
      end
    else None
  | [] => None
  end.

(** [(:?\.\d{1,2})]: the text of group 2 and what follows it. *)
Definition take_frac (s : jsstring) : option (jsstring * jsstring) :=
  match s with
  | a :: t =>
    if ci (code ":") a then
      match dot_digits t with
      | Some (fr, r) => Some (a :: fr, r)
      | None => None
      end
    else dot_digits s
  | [] => None
  end.

(** [(\d+(:?\.\d{1,2})?)]: group 1, group 2 and what follows. *)
Definition take_token (s : jsstring)
  : option (jsstring * option jsstring * jsstring) :=
  match span_digits s with
  | ([], _) => None
  | (ds, r) =>
    match take_frac r with
    | Some (fr, r') => Some (ds ++ fr, Some fr, r')
    | None => Some (ds, None, r)
    end
  end.

(** The whole pattern, read at the start of [s]. *)
Definition amount_at (s : jsstring)
  : option (jsstring * option jsstring * jsstring) :=
  match strip_marker s with
  | Some s1 =>
    match s1 with
    | a :: s2 =>
      if is_space a then
        match take_token s2 with
        | Some t => Some t
        | None => take_token s1
        end
      else take_token s1
    | [] => None
    end
  | None => None
  end.

(** The same reading for [cleanRegex]: [(\d+(?:\.\d{1,2})?)]. *)
Definition take_token_clean (s : jsstring) : option (jsstring * jsstring) :=
  match span_digits s with
  | ([], _) => None
  | (ds, r) =>
    match dot_digits r with
    | Some (fr, r') => Some (ds ++ fr, r')
    | None => Some (ds, r)
    end
  end.

Definition amount_at_clean (s : jsstring) : option (jsstring * jsstring) :=
  match strip_marker s with
  | Some s1 =>
    match s1 with
    | a :: s2 =>
      if is_space a then
        match take_token_clean s2 with
        | Some t => Some t
        | None => take_token_clean s1
        end
      else take_token_clean s1
    | [] => None
    end
  | None => None
  end.

(** What the extractor reads of a match: where it is, its text, group 1. *)
Definition match_view (m : match_result) : nat * jsstring * option jsstring :=
  (index m, matched m, group m 1).

(** The same of a matcher state: the input left and group 1. *)
Definition state_view (y : state) : jsstring * option (option jsstring) :=
  (rest y, nth_error (caps y) 0).

End Lexer.
Import Lexer.

(* ================================================================= *)
(** ** The vocabulary of the specification *)

Module Spec.

(** The fixed three-character ellipsis marker. *)
Definition ellipsis : jsstring := lit "...".

(** [c] is the upper-case letter [u] or its lower-case form. *)
Definition same_letter (u c : char16) : Prop := c = u \/ c = (u + 32)%N.

(** A currency marker: [RS] or [INR] in any mix of cases, or U+20B9. *)
Definition is_marker (mk : jsstring) : Prop :=
  Forall2 same_letter (lit "RS") mk \/
  Forall2 same_letter (lit "INR") mk \/
  mk = [rupee].

(** At most one whitespace code unit. *)
Definition opt_space (ws : jsstring) : Prop :=
  ws = [] \/ exists w, ws = [w] /\ is_space w = true.

(** [s] starts with a currency marker, an optional whitespace and a digit. *)
Definition amount_starts (s : jsstring) : Prop :=
  exists mk ws d post,
    s = mk ++ ws ++ d :: post /\
    is_marker mk /\ opt_space ws /\ is_digit d = true.

(** The body holds a currency marker, an optional whitespace and a digit. *)
Definition currency_amount_occurs (body : jsstring) : Prop :=
  exists pre suf, body = pre ++ suf /\ amount_starts suf.

(** No run of consecutive digits in the body is longer than [n]. *)
Definition digit_runs_at_most (n : nat) (body : jsstring) : Prop :=
  forall pre ds post,
    body = pre ++ ds ++ post ->
    Forall (fun d => is_digit d = true) ds ->
    (length ds <= n)%nat.

(** Two code units that are equal or are the two cases of one ASCII
    letter. *)
Definition same_up_to_case (a b : char16) : Prop :=
  a = b \/ ((65 <= a <= 90)%N /\ b = (a + 32)%N) \/ ((65 <= b <= 90)%N /\ a = (b + 32)%N).

(** One result of the extractor against another: the same amount and
    date, descriptions equal up to the case of letters; or both [null]. *)
Definition same_result_up_to_case (r r' : option Expense) : Prop :=
  match r, r' with
  | Some e, Some e' =>
    amount e = amount e' /\ date e = date e' /\
    Forall2 same_up_to_case (description e) (description e')
  | None, None => True
  | _, _ => False
  end.

(** [s] with the first occurrence of the text [sub] cut out
    ([s.replace(sub, '')] for a string [sub]). *)
Fixpoint remove_first (sub s : jsstring) : jsstring :=
  if starts_with sub s then skipn (length sub) s
  else
    match s with
    | [] => []
    | a :: s' => a :: remove_first sub s'
    end.

(** The text [s] ends with the ellipsis marker. *)
Definition ends_with_ellipsis (s : jsstring) : Prop :=
  exists p, s = p ++ ellipsis.

(** The pattern with the clean fractional rule, an optional [.] followed
    by one or two digits: [/(?:RS|INR|₹)\s?(\d+(?:\.\d{1,2})?)/i]. *)
Definition cleanRegex : regex :=
  RSeq (RAlt (RSeq (RChar (code "R")) (RChar (code "S")))
             (RAlt (RSeq (RChar (code "I")) (RSeq (RChar (code "N")) (RChar (code "R"))))
                   (RChar rupee)))
 (RSeq (RQuant (RClass is_space) 0 (Some 1))
       (RGroup 1
          (RSeq (RQuant (RClass is_digit) 1 None)
                (RQuant
                   (RSeq (RChar (code "."))
                         (RQuant (RClass is_digit) 1 (Some 2)))
                   0 (Some 1))))).

(** The extractor a reimplementation with the clean rule would be. *)
Definition parseExpenseClean (body : jsstring) (date : Z) : option Expense :=
  parseExpenseWith cleanRegex body date.

End Spec.
Import Spec.

(* ================================================================= *)
(** ** How a number is shown: [toFixed(2)] *)

Module NumberText.

(** The decimal digits of [n], most significant first; [fuel] bounds the
    number of digits. *)
Fixpoint digits_fuel (fuel : nat) (n : N) : jsstring :=
  match fuel with
  | O => []
  | S f =>
    if (n <? 10)%N then [(48 + n)%N]
    else digits_fuel f (n / 10)%N ++ [(48 + n mod 10)%N]
  end.

(** A number has no more decimal digits than binary ones. *)
Definition decimal_digits (n : N) : jsstring :=
  digits_fuel (S (N.to_nat (N.log2 n))) n.

(** Zeros to the left up to [len] code units. *)
Definition pad_zeros (len : nat) (s : jsstring) : jsstring :=
  repeat (code "0") (len - length s) ++ s.

(** [n] hundredths written with two fraction digits: the digits of [n],
    padded to three, with a point before the last two. *)
Definition fixed_text (n : N) : jsstring :=
  let m := pad_zeros 3 (decimal_digits n) in
  firstn (length m - 2) m ++ code "." :: skipn (length m - 2) m.

(** What [x.toFixed(2)] returns.  From [10^21] on it is [ToString(x)],
    whose digits are those of the shortest decimal that rounds to [x];
    that text is kept symbolic. *)
Inductive number_text : Type :=
| Text (s : jsstring)
| ToStringOf (x : number).

(** [Number.prototype.toFixed] with [fractionDigits = 2] (ECMA-262,
    21.1.3.3): the integer [n] with [n / 100] nearest to [x], the larger
    one of two, written as [fixed_text]; a minus sign before it for
    [x < 0]. *)
Definition toFixed2 (x : number) : number_text :=
  match x with
  | S754_nan => Text (lit "NaN")
  | S754_infinity false => Text (lit "Infinity")
  | S754_infinity true => Text (lit "-Infinity")
  | S754_zero _ => Text (fixed_text 0)
  | S754_finite s m e =>
    let num := (Zpos m * 2 ^ Z.max e 0)%Z in
    let den := (2 ^ Z.max (- e) 0)%Z in
    if (10 ^ 21 * den <=? num)%Z then ToStringOf x
    else
      let n := ((200 * num + den) / (2 * den))%Z in
      Text ((if s then lit "-" else []) ++ fixed_text (Z.to_N n))
  end.

(** A run of digits without its leading zeros; its last digit is kept. *)
Fixpoint drop_zeros (ds : jsstring) : jsstring :=
  match ds with
  | c :: t =>
    match t with
    | _ :: _ => if (c =? code "0")%N then drop_zeros t else ds
    | [] => ds
    end
  | [] => []
  end.

(** The digits of a captured token that count for its value: the run of
    digits that opens it, and the digits after a point that follows the
    run directly. *)
Definition token_digits (tok : jsstring) : jsstring * jsstring :=
  let (ds, r) := span_digits tok in
  (ds, match r with
       | c :: fd => if (c =? code ".")%N then fd else []
       | [] => []
       end).

(** The amount as the token writes it, brought to two fraction digits. *)
Definition written_amount (tok : jsstring) : jsstring :=
  let (ds, fd) := token_digits tok in
  drop_zeros ds ++ code "." :: fd ++ repeat (code "0") (2 - length fd).

End NumberText.
Import NumberText.

(* ================================================================= *)
(** ** The screen: state, handlers and what is drawn *)

Module Screen.

(** The argument of [SmsAndroid.list] before [JSON.stringify]. *)
Record sms_filter : Type :=
  { box : jsstring; indexFrom : Z; maxCount : Z }.

(** [parsedList.length] as line 84 prints it: the length of an array, or
    for a value that is no array the text of whatever its [length] is
    ([undefined] for most). *)
Inductive parsed_length : Type :=
| ArrayLength (n : nat)
| OtherLength (text : jsstring).

(** One line of the debug log, by the call of [log] that writes it; the
    text of a line is its template with the values put in. *)
Inductive message : Type :=
| SmsPermissionGranted                         (* 'SMS permission granted' *)
| SmsPermissionDenied                          (* 'SMS permission denied' *)
| ErrorRequestingPermission (err : jsstring)   (* 'Error requesting permission: ' + err *)
| StartingSmsScan (filter : sms_filter)        (* 'Starting SMS scan with filter: ' + ... *)
| FailedToLoadSms (fail : jsstring)            (* 'Failed to load SMS: ' + fail *)
| ReceivedMessages (count : Z)                 (* `Received ${count} messages` *)
| SuccessfullyParsed (len : parsed_length)     (* `Successfully parsed ${...length} messages` *)
| FoundExpense (expense : Expense)             (* `Found expense: ${JSON.stringify(expense)}` *)
| DetectedExpenses (len : nat)                 (* `Detected ${newExpenses.length} expenses` *)
| ErrorParsingSmsList (error : jsstring).      (* 'Error parsing SMS list: ' + error *)

(** What a handler asks of the platform. *)
Inductive command : Type :=
| ConsoleLog (m : message)
| AlertAlert (title text : jsstring)
| PermissionsRequest
| SmsAndroidList (filter : sms_filter).

(** The four [useState] cells, and what React keeps for [useEffect].
    [debug] is the lines logged so far, each one ended by a newline in the
    program's string.  [deps] is the [permissionGranted] of the last
    render React committed, the dependency the next render is compared
    with.  [scheduled] is the effect a committed render has left to run,
    with the [permissionGranted] that render saw: React runs an effect
    some time after the render, not inside the handler that changed the
    cell. *)
Record hooks : Type :=
  { expenses : list Expense;
    loading : bool;
    permissionGranted : bool;
    debug : list message;
    deps : bool;
    scheduled : option bool }.

(** A handler: it updates the cells in the order of its statements and
    issues commands. *)
Definition handler (A : Type) : Type := hooks -> A * hooks * list command.

Definition ret {A : Type} (a : A) : handler A := fun s => (a, s, []).

Definition bind {A B : Type} (c : handler A) (k : A -> handler B) : handler B :=
  fun s =>
    let '(a, s1, out1) := c s in
    let '(b, s2, out2) := k a s1 in
    (b, s2, out1 ++ out2).

Declare Scope handler_scope.
Delimit Scope handler_scope with handler.
Notation "c1 ;; c2" := (bind c1 (fun _ => c2))
  (at level 61, right associativity) : handler_scope.
Notation "x <- c1 ;; c2" := (bind c1 (fun x => c2))
  (at level 61, c1 at next level, right associativity) : handler_scope.
Local Open Scope handler_scope.

Definition call (c : command) : handler unit := fun s => (tt, s, [c]).

Definition setExpenses (v : list Expense) : handler unit :=
  fun s => (tt, {| expenses := v; loading := loading s;
                   permissionGranted := permissionGranted s; debug := debug s;
                   deps := deps s; scheduled := scheduled s |}, []).

Definition setLoading (v : bool) : handler unit :=
  fun s => (tt, {| expenses := expenses s; loading := v;
                   permissionGranted := permissionGranted s; debug := debug s;
                   deps := deps s; scheduled := scheduled s |}, []).

Definition setPermissionGranted (v : bool) : handler unit :=
  fun s => (tt, {| expenses := expenses s; loading := loading s;
                   permissionGranted := v; debug := debug s;
                   deps := deps s; scheduled := scheduled s |}, []).

(** [setDebug(f)] with an updater function. *)
Definition setDebug (f : list message -> list message) : handler unit :=
  fun s => (tt, {| expenses := expenses s; loading := loading s;
                   permissionGranted := permissionGranted s; debug := f (debug s);
                   deps := deps s; scheduled := scheduled s |}, []).

(** React notes the dependency of the render it commits, and the effect
    it leaves to run. *)
Definition set_deps (v : bool) : handler unit :=
  fun s => (tt, {| expenses := expenses s; loading := loading s;
                   permissionGranted := permissionGranted s; debug := debug s;
                   deps := v; scheduled := scheduled s |}, []).

Definition set_scheduled (v : option bool) : handler unit :=
  fun s => (tt, {| expenses := expenses s; loading := loading s;
                   permissionGranted := permissionGranted s; debug := debug s;
                   deps := deps s; scheduled := v |}, []).

(** [log] (App.jsx, lines 55-58). *)
Definition log (m : message) : handler unit :=
  call (ConsoleLog m) ;;
  setDebug (fun prev => prev ++ [m]).

(** [array.map(f)] for an [f] that logs. *)
Fixpoint mapM {A B : Type} (f : A -> handler B) (l : list A) : handler (list B) :=
  match l with
  | [] => ret []
  | a :: l' => b <- f a ;; bs <- mapM f l' ;; ret (b :: bs)
  end.

(** The filter of the scan (lines 65-69). *)
Definition scan_filter : sms_filter :=
  {| box := lit "inbox"; indexFrom := 0; maxCount := 100 |}.

(** [scanSmsForExpenses] up to the call of [SmsAndroid.list]
    (lines 60-74). *)
Definition scanSmsForExpenses : handler unit :=
  setLoading true ;;
  setExpenses [] ;;
  setDebug (fun _ => []) ;;
  let filter := scan_filter in
  log (StartingSmsScan filter) ;;
  call (SmsAndroidList filter).

(** The failure callback of [SmsAndroid.list] (lines 75-79). *)
Definition list_failed (fail : jsstring) : handler unit :=
  log (FailedToLoadSms fail) ;;
  setLoading false ;;
  call (AlertAlert (lit "Error") (lit "Failed to load SMS messages: " ++ fail)).

(** The text handed to the success callback, by what the [try] block
    (lines 82-95) does with it.
    - [JsonArray]: a JSON array whose elements all are objects with a
      string [body]; nothing throws.
    - [JsonArrayNoBody]: a JSON array in which the elements [before] are
      such objects and the next one is not (no [body], a [body] that is no
      string, or no object at all): [sms.body] or [body.match] throws
      [error] inside [map]; [after] elements follow it.
    - [JsonNoArray]: JSON for a value that is neither an array nor [null]:
      line 84 logs its [length], and [parsedList.map] throws [error].
    - [JsonNull]: the JSON text [null]: reading [parsedList.length] throws
      [error].
    - [NotJson]: a text on which [JSON.parse] throws [error]. *)
Inductive sms_list_text : Type :=
| JsonArray (parsedList : list Sms)
| JsonArrayNoBody (before : list Sms) (after : nat) (error : jsstring)
| JsonNoArray (len : jsstring) (error : jsstring)
| JsonNull (error : jsstring)
| NotJson (error : jsstring).

(** The function mapped over the parsed list (lines 86-92). *)
Definition map_callback (sms : Sms) : handler (option Expense) :=
  let expense := parseExpenseFromSms (sms_body sms) (sms_date sms) in
  match expense with
  | Some e => log (FoundExpense e)
  | None => ret tt
  end ;;
  ret expense.

(** The [catch] block of the success callback (lines 96-98). *)
Definition parse_failed (error : jsstring) : handler unit :=
  log (ErrorParsingSmsList error) ;;
  call (AlertAlert (lit "Error") (lit "Failed to parse SMS messages.")).

(** The success callback of [SmsAndroid.list] (lines 80-102): the [try]
    block up to the statement that throws, the [catch] block when one
    does, and the [finally] block. *)
Definition list_succeeded (count : Z) (smsList : sms_list_text) : handler unit :=
  log (ReceivedMessages count) ;;
  match smsList with
  | JsonArray parsedList =>
    log (SuccessfullyParsed (ArrayLength (length parsedList))) ;;
    mapped <- mapM map_callback parsedList ;;
    let newExpenses := filter_non_null mapped in
    log (DetectedExpenses (length newExpenses)) ;;
    setExpenses newExpenses
  | JsonArrayNoBody before after error =>
    log (SuccessfullyParsed (ArrayLength (length before + 1 + after))) ;;
    _ <- mapM map_callback before ;;
    parse_failed error
  | JsonNoArray len error =>
    log (SuccessfullyParsed (OtherLength len)) ;;
    parse_failed error
  | JsonNull error => parse_failed error
  | NotJson error => parse_failed error
  end ;;
  setLoading false.

(** How [await PermissionsAndroid.request(...)] ends. *)
Inductive permission_answer : Type :=
| Resolved (granted : jsstring)
| Rejected (err : jsstring).

Fixpoint string_eqb (a b : jsstring) : bool :=
  match a, b with
  | [], [] => true
  | x :: a', y :: b' => (x =? y)%N && string_eqb a' b'
  | _, _ => false
  end.

(** [PermissionsAndroid.RESULTS.GRANTED]. *)
Definition GRANTED : jsstring := lit "granted".

(** [requestSmsPermission] (lines 26-53): up to the [await], and from it. *)
Definition requestSmsPermission : handler unit := call PermissionsRequest.

Definition permission_answered (a : permission_answer) : handler unit :=
  match a with
  | Resolved granted =>
    if string_eqb granted GRANTED then
      log SmsPermissionGranted ;;
      setPermissionGranted true
    else
      log SmsPermissionDenied ;;
      setPermissionGranted false ;;
      call (AlertAlert (lit "Permission Denied")
                       (lit "The app cannot function without SMS access."))
  | Rejected err =>
    log (ErrorRequestingPermission err) ;;
    call (AlertAlert (lit "Error") (lit "Failed to request SMS permission."))
  end.

(** [handleScanPress] (lines 122-128). *)
Definition handleScanPress : handler unit :=
  fun s =>
    if negb (permissionGranted s) then requestSmsPermission s
    else scanSmsForExpenses s.

(** The effect on [[permissionGranted]] (lines 20-24), with the
    [permissionGranted] of the render that made it. *)
Definition permission_effect (seen : bool) : handler unit :=
  if seen then scanSmsForExpenses else ret tt.

(** The scheduled effect runs, if there is one. *)
Definition run_effect : handler unit :=
  fun s =>
    match scheduled s with
    | Some seen => (set_scheduled None ;; permission_effect seen) s
    | None => ret tt s
    end.

(** React commits a render of the present cells.  An effect left by the
    render before runs first.  When [permissionGranted] differs from the
    dependency of the render before, the effect of this render is
    scheduled. *)
Definition commit : handler unit :=
  run_effect ;;
  fun s =>
    if Bool.eqb (deps s) (permissionGranted s) then ret tt s
    else (set_deps (permissionGranted s) ;;
          set_scheduled (Some (permissionGranted s))) s.

(** What happens to the mounted screen: the user presses the button, a
    promise or a callback of the platform comes back, React commits a
    render, or the effect a render has scheduled runs.  When React renders
    and when a scheduled effect runs is for React to choose, so any order
    of these events is a run; a render need not follow every handler. *)
Inductive event : Type :=
| ButtonPressed
| PermissionAnswered (a : permission_answer)
| ListFailed (fail : jsstring)
| ListSucceeded (count : Z) (smsList : sms_list_text)
| Rendered
| EffectRan.

(** What an event runs.  The button carries [disabled={loading}]
    (line 136): pressed while loading, it runs nothing; [handleScanPress]
    reads the cells the pressed button was rendered from, taken to be the
    present ones. *)
Definition on_event (ev : event) : handler unit :=
  match ev with
  | ButtonPressed => fun s => if loading s then ret tt s else handleScanPress s
  | PermissionAnswered a => permission_answered a
  | ListFailed fail => list_failed fail
  | ListSucceeded count smsList => list_succeeded count smsList
  | Rendered => commit
  | EffectRan => run_effect
  end.

(** One event: the cells after it and the commands it issues. *)
Definition step (s : hooks) (ev : event) : hooks * list command :=
  let '(_, s1, out1) := on_event ev s in (s1, out1).

(** The cells at mount (lines 15-18), after the first render; the effect of
    that render finds [permissionGranted] false and does nothing. *)
Definition mounted : hooks :=
  {| expenses := []; loading := false; permissionGranted := false; debug := [];
     deps := false; scheduled := None |}.

(** A run of events from [s]: the cells reached and every command issued. *)
Fixpoint run (s : hooks) (evs : list event) : hooks * list command :=
  match evs with
  | [] => (s, [])
  | ev :: evs' =>
    let '(s1, out1) := step s ev in
    let '(s2, out2) := run s1 evs' in
    (s2, out1 ++ out2)
  end.

(** One row of the list (lines 144-148); the amount follows the rupee sign. *)
Record row : Type :=
  { row_amount : number_text; row_description : jsstring; row_date : locale_date }.

Definition renderItem (item : Expense) : row :=
  {| row_amount := toFixed2 (amount item);
     row_description := description item;
     row_date := date item |}.

Inductive content : Type :=
| ExpenseList (rows : list row)
| Notice (text : jsstring).

Record view : Type :=
  { button_title : jsstring; button_disabled : bool; below : content }.

(** The rendered tree (lines 130-160). *)
Definition render (s : hooks) : view :=
  {| button_title := if loading s then lit "Scanning..." else lit "View All Expenses";
     button_disabled := loading s;
     below :=
       if (0 <? length (expenses s))%nat then ExpenseList (List.map renderItem (expenses s))
       else Notice (if loading s then lit "Scanning for expenses..."
                    else lit "No expenses found. Tap the button to scan.") |}.

(** The cells with other debug lines. *)
Definition with_debug (s : hooks) (d : list message) : hooks :=
  {| expenses := expenses s; loading := loading s;
     permissionGranted := permissionGranted s; debug := d;
     deps := deps s; scheduled := scheduled s |}.

(** The answer of the latest permission request that resolved, if any. *)
Fixpoint last_resolution (evs : list event) : option jsstring :=
  match evs with
  | [] => None
  | ev :: evs' =>
    match last_resolution evs' with
    | Some g => Some g
    | None =>
      match ev with
      | PermissionAnswered (Resolved g) => Some g
      | _ => None
      end
    end
  end.

(** A read whose text makes the [try] block throw before the list is
    set, after it has logged [lines]. *)
Definition read_thrown (s : hooks) (count : Z) (lines : list message)
           (error : jsstring) : hooks * list command :=
  ({| expenses := expenses s; loading := false;
      permissionGranted := permissionGranted s;
      debug := debug s ++ [ReceivedMessages count] ++ lines ++
               [ErrorParsingSmsList error];
      deps := deps s; scheduled := scheduled s |},
   List.map ConsoleLog
     ([ReceivedMessages count] ++ lines ++ [ErrorParsingSmsList error]) ++
   [AlertAlert (lit "Error") (lit "Failed to parse SMS messages.")]).

(** The lines written to the console, in order. *)
Fixpoint console_lines (out : list command) : list message :=
  match out with
  | [] => []
  | ConsoleLog m :: out' => m :: console_lines out'
  | _ :: out' => console_lines out'
  end.

End Screen.
Import Screen.

(* ================================================================= *)
(** ** The matcher on the pieces of the pattern *)

Section MatcherSteps.

Implicit Types (c : cont) (s : jsstring) (cs : list (option jsstring)).

Lemma eqb_succ_self (n : nat) : (n =? S n)%nat = false.
Proof. apply Nat.eqb_neq. lia. Qed.

Lemma repeat_matcher_step fuel m min max gs x c :
  max <> Some O ->
  repeat_matcher (S fuel) m min max gs x c =
  let d : cont := fun y =>
    if (min =? 0)%nat && (length (rest y) =? length (rest x))%nat then None
    else repeat_matcher fuel m (pred min) (option_map pred max) gs y c in
  if (min =? 0)%nat then
    match m (clear_caps gs x) d with
    | Some z => Some z
    | None => c x
    end
  else m (clear_caps gs x) d.
Proof. destruct max as [[|k]|]; [congruence| |]; reflexivity. Qed.

Lemma repeat_matcher_done fuel m min gs x c :
  repeat_matcher fuel m min (Some O) gs x c = c x.
Proof. destruct fuel; reflexivity. Qed.

Lemma compile_char c (ch : char16) s cs :
  compile (RChar ch) (State s cs) c =
  match s with
  | a :: s' => if ci ch a then c (State s' cs) else None
  | [] => None
  end.
Proof. reflexivity. Qed.

Lemma compile_class c (p : char16 -> bool) s cs :
  compile (RClass p) (State s cs) c =
  match s with
  | a :: s' => if p a then c (State s' cs) else None
  | [] => None
  end.
Proof. reflexivity. Qed.

Lemma compile_seq c (a b : regex) (x : state) :
  compile (RSeq a b) x c = compile a x (fun y => compile b y c).
Proof. reflexivity. Qed.

Lemma compile_quant c (a : regex) min max (x : state) :
  compile (RQuant a min max) x c =
  repeat_matcher (S (min + length (rest x))) (compile a) min max (groups_of a) x c.
Proof. reflexivity. Qed.

(** [p?] on a class. *)
Lemma compile_opt_class c (p : char16 -> bool) s cs :
  compile (RQuant (RClass p) 0 (Some 1)) (State s cs) c =
  match s with
  | a :: s' =>
    if p a then
      match c (State s' cs) with
      | Some z => Some z
      | None => c (State s cs)
      end
    else c (State s cs)
  | [] => c (State s cs)
  end.
Proof.
  destruct s as [|a s']; [reflexivity|].
  cbn. destruct (p a); [|reflexivity].
  rewrite eqb_succ_self. reflexivity.
Qed.

(** [ch?] on a pattern character. *)
Lemma compile_opt_char c (ch : char16) s cs :
  compile (RQuant (RChar ch) 0 (Some 1)) (State s cs) c =
  match s with
  | a :: s' =>
    if ci ch a then
      match c (State s' cs) with
      | Some z => Some z
      | None => c (State s cs)
      end
    else c (State s cs)
  | [] => c (State s cs)
  end.
Proof.
  destruct s as [|a s']; [reflexivity|].
  cbn. fold (ci ch a). destruct (ci ch a); [|reflexivity].
  rewrite eqb_succ_self. reflexivity.
Qed.

(** [p{1,2}] on a class. *)
Lemma compile_class12 c (p : char16 -> bool) s cs :
  compile (RQuant (RClass p) 1 (Some 2)) (State s cs) c =
  match s with
  | a :: t =>
    if p a then
      match t with
      | b :: u =>
        if p b then
          match c (State u cs) with
          | Some z => Some z
          | None => c (State t cs)
          end
        else c (State t cs)
      | [] => c (State t cs)
      end
    else None
  | [] => None
  end.
Proof.
  destruct s as [|a t]; [reflexivity|].
  cbn. destruct (p a); [|reflexivity].
  destruct t as [|b u]; [reflexivity|].
  cbn. destruct (p b); [|reflexivity].
  rewrite eqb_succ_self. reflexivity.
Qed.

(** The loop of [\d+] after its first digit: with enough fuel it reads
    every digit there is, when what follows cannot fail. *)
Lemma repeat_digits_star c (c_total : forall y, c y <> None) s cs :
  forall fuel, (length s < fuel)%nat ->
  repeat_matcher fuel (compile (RClass is_digit)) 0 None [] (State s cs) c =
  c (State (snd (span_digits s)) cs).
Proof.
  induction s as [|a s IH]; intros fuel Hf.
  - destruct fuel; [lia|]. reflexivity.
  - destruct fuel; [simpl in Hf; lia|].
    rewrite repeat_matcher_step by discriminate.
    cbv zeta. change (0 =? 0)%nat with true. cbv iota.
    change (clear_caps [] (State (a :: s) cs)) with (State (a :: s) cs).
    rewrite compile_class. simpl span_digits.
    destruct (is_digit a) eqn:Ha; [|reflexivity].
    simpl rest. simpl length. rewrite eqb_succ_self. simpl andb. cbv iota.
    rewrite IH by (simpl in Hf; lia).
    destruct (span_digits s) as [ds r]. simpl snd.
    destruct (c (State r cs)) eqn:Hc; [reflexivity|].
    exfalso. exact (c_total _ Hc).
Qed.

(** [\d+] *)
Lemma compile_plus_digits c (c_total : forall y, c y <> None) s cs :
  compile (RQuant (RClass is_digit) 1 None) (State s cs) c =
  match span_digits s with
  | ([], _) => None
  | (_, r) => c (State r cs)
  end.
Proof.
  rewrite compile_quant, repeat_matcher_step by discriminate.
  cbv zeta. change (1 =? 0)%nat with false. cbv iota.
  change (clear_caps (groups_of (RClass is_digit)) (State s cs)) with (State s cs).
  rewrite compile_class.
  destruct s as [|a s]; [reflexivity|].
  simpl span_digits. destruct (is_digit a) eqn:Ha; [|reflexivity].
  simpl andb. cbv iota. simpl pred. simpl option_map. simpl groups_of.
  rewrite repeat_digits_star by (trivial; simpl; lia).
  destruct (span_digits s) as [ds r]. reflexivity.
Qed.

Lemma consumed_app (p r : jsstring) : consumed (p ++ r) r = p.
Proof.
  unfold consumed. rewrite length_app.
  replace (length p + length r - length r)%nat with (length p + 0)%nat by lia.
  rewrite firstn_app_2. simpl. apply app_nil_r.
Qed.

Lemma eqb_lt_false (n m : nat) : (n < m)%nat -> (n =? m)%nat = false.
Proof. intros H. apply Nat.eqb_neq. lia. Qed.

(** The matcher only ever applies its continuation. *)
Lemma repeat_matcher_ext (m : matcher)
      (m_ext : forall x c c', (forall y, c y = c' y) -> m x c = m x c') :
  forall fuel min max gs x c c',
    (forall y, c y = c' y) ->
    repeat_matcher fuel m min max gs x c = repeat_matcher fuel m min max gs x c'.
Proof.
  induction fuel as [|fuel IH]; intros min max gs x c c' E.
  - destruct max as [[|k]|]; simpl; auto.
  - destruct max as [[|k]|]; [simpl; auto| |].
    + rewrite !repeat_matcher_step by discriminate. cbv zeta.
      rewrite E.
      rewrite (m_ext (clear_caps gs x) _
                 (fun y => if (min =? 0)%nat && (length (rest y) =? length (rest x))%nat
                           then None
                           else repeat_matcher fuel m (pred min)
                                  (option_map pred (Some (S k))) gs y c')).
      * reflexivity.
      * intros y. destruct (_ && _); [reflexivity|]. apply IH, E.
    + rewrite !repeat_matcher_step by discriminate. cbv zeta.
      rewrite E.
      rewrite (m_ext (clear_caps gs x) _
                 (fun y => if (min =? 0)%nat && (length (rest y) =? length (rest x))%nat
                           then None
                           else repeat_matcher fuel m (pred min)
                                  (option_map pred None) gs y c')).
      * reflexivity.
      * intros y. destruct (_ && _); [reflexivity|]. apply IH, E.
Qed.

Lemma compile_ext (r : regex) :
  forall x c c', (forall y, c y = c' y) -> compile r x c = compile r x c'.
Proof.
  induction r as [ch|p|a IHa b IHb|a IHa b IHb|n a IHa|a IHa min max];
    intros x c c' E.
  - simpl. destruct (rest x); [reflexivity|]. rewrite E. reflexivity.
  - simpl. destruct (rest x); [reflexivity|]. rewrite E. reflexivity.
  - simpl. apply IHa. intros y. apply IHb, E.
  - simpl. rewrite (IHa x c c' E), (IHb x c c' E). reflexivity.
  - simpl. apply IHa. intros y. apply E.
  - rewrite !compile_quant. apply repeat_matcher_ext; assumption.
Qed.

(** [a?] *)
Lemma compile_opt c (a : regex) (x : state) :
  compile (RQuant a 0 (Some 1)) x c =
  match compile a (clear_caps (groups_of a) x)
                (fun y => if (length (rest y) =? length (rest x))%nat
                          then None else c y) with
  | Some z => Some z
  | None => c x
  end.
Proof.
  rewrite compile_quant, repeat_matcher_step by discriminate.
  cbv zeta. change (0 =? 0)%nat with true. cbv iota.
  erewrite compile_ext; [reflexivity|].
  intros y. cbn [rest andb].
  destruct (length (rest y) =? length (rest x))%nat; [reflexivity|].
  apply repeat_matcher_done.
Qed.

Lemma compile_group c (n : nat) (a : regex) (x : state) :
  compile (RGroup n a) x c =
  compile a x (fun y =>
    c (State (rest y) (set_cap n (Some (consumed (rest x) (rest y))) (caps y)))).
Proof. reflexivity. Qed.

Lemma or_else_total (A : Type) (o w : option A) :
  o <> None -> match o with Some z => Some z | None => w end = o.
Proof. destruct o; congruence. Qed.

Lemma consumed_1 (a : char16) (r : jsstring) : consumed (a :: r) r = [a].
Proof. apply (consumed_app [a] r). Qed.
Lemma consumed_2 (a b : char16) (r : jsstring) : consumed (a :: b :: r) r = [a; b].
Proof. apply (consumed_app [a; b] r). Qed.
Lemma consumed_3 (a b d : char16) (r : jsstring) :
  consumed (a :: b :: d :: r) r = [a; b; d].
Proof. apply (consumed_app [a; b; d] r). Qed.
Lemma consumed_4 (a b d e : char16) (r : jsstring) :
  consumed (a :: b :: d :: e :: r) r = [a; b; d; e].
Proof. apply (consumed_app [a; b; d; e] r). Qed.

(** A code unit matches at most one of two pattern characters that differ
    under [canonicalize]. *)
Lemma ci_excl (ch ch' a : char16) :
  canonicalize ch <> canonicalize ch' -> ci ch a = true -> ci ch' a = false.
Proof.
  unfold ci. intros Hne H. apply N.eqb_eq in H. apply N.eqb_neq. congruence.
Qed.

Ltac matcher_steps :=
  repeat (cbv beta; cbn [rest caps];
          first [ rewrite compile_seq | rewrite compile_char
                | rewrite compile_class12 ]).

Ltac bool_split :=
  match goal with
  | |- context [ci ?x ?y] => destruct (ci x y)
  | |- context [is_digit ?y] => destruct (is_digit y)
  end.

Ltac matcher_cases c_total :=
  repeat (matcher_steps; bool_split); matcher_steps;
  cbv beta; cbn [rest caps length];
  repeat rewrite eqb_lt_false by lia;
  try rewrite consumed_1; try rewrite consumed_2;
  try rewrite consumed_3;  try rewrite consumed_4;
  repeat match goal with
         | |- context [match ?c ?y with Some z => Some z | None => ?w end] =>
           rewrite (@or_else_total _ (c y) w (c_total y))
         end;
  try reflexivity.

(** [(:?\.\d{1,2})?] *)
Lemma compile_opt_frac c (c_total : forall y, c y <> None) s cs :
  compile
    (RQuant
       (RGroup 2
          (RSeq (RQuant (RChar (code ":")) 0 (Some 1))
          (RSeq (RChar (code "."))
                (RQuant (RClass is_digit) 1 (Some 2)))))
       0 (Some 1)) (State s cs) c =
  match take_frac s with
  | Some (fr, r) => c (State r (set_cap 2 (Some fr) (set_cap 2 None cs)))
  | None => c (State s cs)
  end.
Proof.
  rewrite compile_opt.
  change (clear_caps _ (State s cs)) with (State s (set_cap 2 None cs)).
  rewrite compile_group, compile_seq, compile_opt_char.
  unfold take_frac, dot_digits, digits12.
  destruct s as [|a s]; [reflexivity|].
  destruct (ci (code ":") a) eqn:Ecolon.
  - matcher_steps.
    rewrite (@ci_excl (code ":") (code ".") a) by (assumption || discriminate).
    destruct s as [|b [|d [|e t]]]; matcher_cases c_total.
  - destruct s as [|b [|d t]]; matcher_cases c_total.
Qed.

Lemma compile_alt c (a b : regex) (x : state) :
  compile (RAlt a b) x c =
  match compile a x c with
  | Some z => Some z
  | None => compile b x c
  end.
Proof. reflexivity. Qed.

Lemma span_digits_app s ds r : span_digits s = (ds, r) -> s = ds ++ r.
Proof.
  revert ds r. induction s as [|a s IH]; intros ds r H; simpl in H.
  - inversion H. reflexivity.
  - destruct (is_digit a).
    + destruct (span_digits s) as [ds' r'] eqn:E. inversion H; subst.
      simpl. f_equal. apply IH. reflexivity.
    + inversion H. reflexivity.
Qed.

Lemma digits12_app s ds r : digits12 s = Some (ds, r) -> s = ds ++ r.
Proof.
  unfold digits12. destruct s as [|a [|b u]]; try discriminate;
    destruct (is_digit a); try discriminate;
    try destruct (is_digit b); intros H; inversion H; reflexivity.
Qed.

Lemma dot_digits_app s fr r : dot_digits s = Some (fr, r) -> s = fr ++ r.
Proof.
  unfold dot_digits. destruct s as [|a t]; [discriminate|].
  destruct (ci (code ".") a); [|discriminate].
  destruct (digits12 t) as [[ds r']|] eqn:E; [|discriminate].
  intros H; inversion H; subst. simpl. f_equal. apply digits12_app, E.
Qed.

Lemma take_frac_app s fr r : take_frac s = Some (fr, r) -> s = fr ++ r.
Proof.
  unfold take_frac. destruct s as [|a t]; [discriminate|].
  destruct (ci (code ":") a).
  - destruct (dot_digits t) as [[fr' r']|] eqn:E; [|discriminate].
    intros H; inversion H; subst. simpl. f_equal. apply dot_digits_app, E.
  - apply dot_digits_app.
Qed.

(** [(\d+(:?\.\d{1,2})?)] *)
Lemma compile_token c (c_total : forall y, c y <> None) s :
  compile
    (RGroup 1
       (RSeq (RQuant (RClass is_digit) 1 None)
             (RQuant
                (RGroup 2
                   (RSeq (RQuant (RChar (code ":")) 0 (Some 1))
                   (RSeq (RChar (code "."))
                         (RQuant (RClass is_digit) 1 (Some 2)))))
                0 (Some 1)))) (State s [None; None]) c =
  match take_token s with
  | Some (tok, g2, r) => c (State r [Some tok; g2])
  | None => None
  end.
Proof.
  rewrite compile_group, compile_seq.
  rewrite compile_plus_digits.
  2:{ intros [r cs]. rewrite compile_opt_frac by (intros y; apply c_total).
      destruct (take_frac r) as [[fr r']|]; apply c_total. }
  unfold take_token.
  destruct (span_digits s) as [ds r] eqn:Es.
  destruct ds as [|d ds]; [reflexivity|].
  rewrite compile_opt_frac by (intros y; apply c_total).
  apply span_digits_app in Es.
  destruct (take_frac r) as [[fr r']|] eqn:Ef; cbn [rest caps].
  - apply take_frac_app in Ef. subst r s.
    rewrite app_assoc, consumed_app. reflexivity.
  - subst s. rewrite consumed_app. reflexivity.
Qed.

(** [(?:RS|INR|₹)] *)
Lemma compile_marker c s cs :
  compile
    (RAlt (RSeq (RChar (code "R")) (RChar (code "S")))
          (RAlt (RSeq (RChar (code "I")) (RSeq (RChar (code "N")) (RChar (code "R"))))
                (RChar rupee))) (State s cs) c =
  match strip_marker s with
  | Some s1 => c (State s1 cs)
  | None => None
  end.
Proof.
  rewrite !compile_alt. unfold strip_marker.
  destruct s as [|a s]; [reflexivity|].
  destruct (ci (code "R") a) eqn:ER.
  - matcher_steps. rewrite ER.
    rewrite (@ci_excl (code "R") (code "I") a) by (assumption || discriminate).
    rewrite (@ci_excl (code "R") rupee a) by (assumption || discriminate).
    destruct s as [|b [|d t]]; try reflexivity; matcher_steps;
      destruct (ci (code "S") b); cbn [andb];
      try destruct (c _); reflexivity.
  - matcher_steps. rewrite ER. cbn [andb].
    destruct (ci (code "I") a) eqn:EI.
    + rewrite (@ci_excl (code "I") rupee a) by (assumption || discriminate).
      destruct s as [|b [|d t]]; try reflexivity; matcher_steps;
        destruct (ci (code "N") b); cbn [andb]; try reflexivity;
        destruct (ci (code "R") d); cbn [andb];
        try destruct (c _); reflexivity.
    + cbn [andb]. destruct s as [|b [|d t]]; destruct (ci rupee a); reflexivity.
Qed.

(** One attempt of [amountRegex] reads what [amount_at] reads. *)
Lemma match_here_amountRegex s :
  match_here amountRegex s =
  match amount_at s with
  | Some (tok, g2, r) => Some (State r [Some tok; g2])
  | None => None
  end.
Proof.
  unfold match_here, amountRegex.
  change (repeat None _) with ([None; None] : list (option jsstring)).
  rewrite compile_seq, compile_marker. unfold amount_at.
  destruct (strip_marker s) as [s1|]; [|reflexivity].
  rewrite compile_seq, compile_opt_class.
  destruct s1 as [|a s2].
  - rewrite compile_token by discriminate. reflexivity.
  - rewrite !compile_token by discriminate.
    destruct (is_space a); [|reflexivity].
    destruct (take_token s2) as [[[tok g2] r]|]; reflexivity.
Qed.

(** [(?:\.\d{1,2})?] *)
Lemma compile_opt_frac_clean c (c_total : forall y, c y <> None) s cs :
  compile
    (RQuant
       (RSeq (RChar (code "."))
             (RQuant (RClass is_digit) 1 (Some 2)))
       0 (Some 1)) (State s cs) c =
  match dot_digits s with
  | Some (fr, r) => c (State r cs)
  | None => c (State s cs)
  end.
Proof.
  rewrite compile_opt.
  change (clear_caps _ (State s cs)) with (State s cs).
  unfold dot_digits, digits12.
  destruct s as [|a [|b [|d t]]]; matcher_cases c_total.
Qed.

(** [(\d+(?:\.\d{1,2})?)] *)
Lemma compile_token_clean c (c_total : forall y, c y <> None) s :
  compile
    (RGroup 1
       (RSeq (RQuant (RClass is_digit) 1 None)
             (RQuant
                (RSeq (RChar (code "."))
                      (RQuant (RClass is_digit) 1 (Some 2)))
                0 (Some 1)))) (State s [None]) c =
  match take_token_clean s with
  | Some (tok, r) => c (State r [Some tok])
  | None => None
  end.
Proof.
  rewrite compile_group, compile_seq.
  rewrite compile_plus_digits.
  2:{ intros [r cs]. rewrite compile_opt_frac_clean by (intros y; apply c_total).
      destruct (dot_digits r) as [[fr r']|]; apply c_total. }
  unfold take_token_clean.
  destruct (span_digits s) as [ds r] eqn:Es.
  destruct ds as [|d ds]; [reflexivity|].
  rewrite compile_opt_frac_clean by (intros y; apply c_total).
  apply span_digits_app in Es.
  destruct (dot_digits r) as [[fr r']|] eqn:Ef; cbn [rest caps].
  - apply dot_digits_app in Ef. subst r s.
    rewrite app_assoc, consumed_app. reflexivity.
  - subst s. rewrite consumed_app. reflexivity.
Qed.

(** One attempt of [cleanRegex] reads what [amount_at_clean] reads. *)
Lemma match_here_cleanRegex s :
  match_here cleanRegex s =
  match amount_at_clean s with
  | Some (tok, r) => Some (State r [Some tok])
  | None => None
  end.
Proof.
  unfold match_here, cleanRegex.
  change (repeat None _) with ([None] : list (option jsstring)).
  rewrite compile_seq, compile_marker. unfold amount_at_clean.
  destruct (strip_marker s) as [s1|]; [|reflexivity].
  rewrite compile_seq, compile_opt_class.
  destruct s1 as [|a s2].
  - rewrite compile_token_clean by discriminate. reflexivity.
  - rewrite !compile_token_clean by discriminate.
    destruct (is_space a); [|reflexivity].
    destruct (take_token_clean s2) as [[tok r]|]; reflexivity.
Qed.

End MatcherSteps.

(* ================================================================= *)
(** ** The search for the leftmost match *)

Section LeftmostMatch.

Variable r : regex.

Lemma exec_from_none (s : jsstring) :
  forall i, exec_from r s i = None <->
            (forall j, (j <= length s)%nat -> match_here r (skipn j s) = None).
Proof.
  induction s as [|a s IH]; intros i; simpl.
  - destruct (match_here r []) eqn:E.
    + split; [discriminate|]. intros H. specialize (H O (Nat.le_0_l _)).
      simpl in H. congruence.
    + split; [|reflexivity]. intros _ j _. destruct j; exact E.
  - destruct (match_here r (a :: s)) eqn:E.
    + split; [discriminate|]. intros H. specialize (H O (Nat.le_0_l _)).
      simpl in H. congruence.
    + rewrite IH. split.
      * intros H [|j] Hj; [exact E|]. simpl. apply H. lia.
      * intros H j Hj. apply (H (S j)). lia.
Qed.

Lemma exec_from_some (s : jsstring) :
  forall i m, exec_from r s i = Some m ->
  exists pre suf y,
    s = pre ++ suf /\ index m = (i + length pre)%nat /\
    match_here r suf = Some y /\
    matched m = consumed suf (rest y) /\ groups m = caps y /\
    (forall j, (j < length pre)%nat -> match_here r (skipn j s) = None).
Proof.
  induction s as [|a s IH]; intros i m; simpl.
  - destruct (match_here r []) as [y|] eqn:E; [|discriminate].
    intros H; inversion H; subst; clear H.
    exists [], [], y. simpl. repeat split; auto; intros; lia.
  - destruct (match_here r (a :: s)) as [y|] eqn:E.
    + intros H; inversion H; subst; clear H.
      exists [], (a :: s), y. simpl. repeat split; auto; intros; lia.
    + intros H. apply IH in H.
      destruct H as (pre & suf & y & Hs & Hi & Hm & Hmt & Hg & Hl).
      exists (a :: pre), suf, y. simpl. subst s.
      repeat split; auto; try lia.
      intros [|j] Hj; [exact E|]. simpl. apply Hl. lia.
Qed.

(** A match at the very start is the one [exec] returns. *)
Lemma exec_here (s : jsstring) (y : state) :
  match_here r s = Some y ->
  exec r s = Some (MatchResult 0 (consumed s (rest y)) (caps y)).
Proof. unfold exec. intros H. destruct s; simpl; rewrite H; reflexivity. Qed.

(** The attempts that fail before a match are passed over. *)
Lemma exec_from_skip (pre suf : jsstring) :
  forall i,
    (forall j, (j < length pre)%nat -> match_here r (skipn j (pre ++ suf)) = None) ->
    exec_from r (pre ++ suf) i = exec_from r suf (i + length pre).
Proof.
  induction pre as [|a pre IH]; intros i H.
  - cbn [app length]. rewrite Nat.add_0_r. reflexivity.
  - cbn [app exec_from].
    pose proof (H 0%nat ltac:(cbn [length]; lia)) as H0.
    cbn [skipn app] in H0. rewrite H0.
    rewrite IH.
    + cbn [length]. f_equal. lia.
    + intros j Hj. apply (H (S j)). cbn [length]. lia.
Qed.

(** A match after a text in which no attempt succeeds is the one [exec]
    returns. *)
Lemma exec_after (pre suf : jsstring) (y : state) :
  (forall j, (j < length pre)%nat -> match_here r (skipn j (pre ++ suf)) = None) ->
  match_here r suf = Some y ->
  exec r (pre ++ suf) =
  Some (MatchResult (length pre) (consumed suf (rest y)) (caps y)).
Proof.
  intros Hpre H. unfold exec. rewrite exec_from_skip by exact Hpre.
  destruct suf; simpl; rewrite H; reflexivity.
Qed.

End LeftmostMatch.

(* ================================================================= *)
(** ** The pattern against the vocabulary of the specification *)

Section Occurrences.

Lemma canonicalize_upper (u a : char16) :
  (65 <= u <= 90)%N -> ci u a = true <-> same_letter u a.
Proof.
  intros Hu. unfold ci, same_letter, canonicalize. rewrite N.eqb_eq.
  destruct (N.leb_spec 97 a), (N.leb_spec a 122),
           (N.leb_spec 97 u), (N.leb_spec u 122); simpl; lia.
Qed.

Lemma ci_rupee (a : char16) : ci rupee a = true <-> a = rupee.
Proof.
  unfold ci, rupee, canonicalize. rewrite N.eqb_eq.
  destruct (N.leb_spec 97 a), (N.leb_spec a 122); simpl; lia.
Qed.

Lemma is_space_not_digit (a : char16) : is_space a = true -> is_digit a = false.
Proof.
  unfold is_space, is_digit. intros Hsp.
  destruct (N.leb_spec 48 a) as [Hlo|Hlo], (N.leb_spec a 57) as [Hhi|Hhi];
    try reflexivity.
  exfalso.
  repeat (apply orb_prop in Hsp; destruct Hsp as [Hsp|Hsp]);
    try (apply andb_prop in Hsp; destruct Hsp as [Ha Hb];
         apply N.leb_le in Ha, Hb; lia);
    apply N.eqb_eq in Hsp; lia.
Qed.

Lemma ci_R a : ci (code "R") a = true <-> same_letter (code "R") a.
Proof. apply canonicalize_upper. vm_compute. split; discriminate. Qed.
Lemma ci_S a : ci (code "S") a = true <-> same_letter (code "S") a.
Proof. apply canonicalize_upper. vm_compute. split; discriminate. Qed.
Lemma ci_I a : ci (code "I") a = true <-> same_letter (code "I") a.
Proof. apply canonicalize_upper. vm_compute. split; discriminate. Qed.
Lemma ci_N a : ci (code "N") a = true <-> same_letter (code "N") a.
Proof. apply canonicalize_upper. vm_compute. split; discriminate. Qed.

Lemma rupee_is_marker : is_marker [rupee].
Proof. right; right; reflexivity. Qed.

(** What [strip_marker] removes is a currency marker. *)
Lemma strip_marker_some (s s1 : jsstring) :
  strip_marker s = Some s1 -> exists mk, s = mk ++ s1 /\ is_marker mk.
Proof.
  unfold strip_marker. intros H.
  destruct s as [|a [|b t]]; [discriminate| |].
  - destruct (ci rupee a) eqn:E; [|discriminate]. inversion H; subst.
    apply ci_rupee in E. subst a. exists [rupee]. split; [reflexivity|].
    apply rupee_is_marker.
  - destruct (ci (code "R") a && ci (code "S") b) eqn:ERS.
    + inversion H; subst. apply andb_prop in ERS. destruct ERS as [Ea Eb].
      exists [a; b]. split; [reflexivity|]. left.
      apply ci_R in Ea. apply ci_S in Eb. repeat first [assumption | constructor].
    + assert (Hrupee : (if ci rupee a then Some (b :: t) else None) = Some s1 ->
                       exists mk, a :: b :: t = mk ++ s1 /\ is_marker mk).
      { destruct (ci rupee a) eqn:E; [|discriminate]. intros H0.
        inversion H0; subst. apply ci_rupee in E. subst a.
        exists [rupee]. split; [reflexivity|]. apply rupee_is_marker. }
      destruct t as [|d u]; [exact (Hrupee H)|].
      destruct (ci (code "I") a && ci (code "N") b && ci (code "R") d) eqn:EINR;
        [|exact (Hrupee H)].
      inversion H; subst.
      apply andb_prop in EINR. destruct EINR as [EIN Ed].
      apply andb_prop in EIN. destruct EIN as [Ea Eb].
      exists [a; b; d]. split; [reflexivity|]. right; left.
      apply ci_I in Ea. apply ci_N in Eb. apply ci_R in Ed.
      repeat first [assumption | constructor].
Qed.

(** Every currency marker is removed by [strip_marker]. *)
Lemma strip_marker_app (mk s1 : jsstring) :
  is_marker mk -> strip_marker (mk ++ s1) = Some s1.
Proof.
  intros [H|[H|H]].
  - inversion H as [|u a lu la Ha H1]; subst.
    inversion H1 as [|u1 b lu1 lb Hb H2]; subst.
    inversion H2; subst.
    destruct Ha as [-> | ->], Hb as [-> | ->]; reflexivity.
  - inversion H as [|u a lu la Ha H1]; subst.
    inversion H1 as [|u1 b lu1 lb Hb H2]; subst.
    inversion H2 as [|u2 d lu2 ld Hd H3]; subst. inversion H3; subst.
    destruct Ha as [-> | ->], Hb as [-> | ->], Hd as [-> | ->]; reflexivity.
  - subst mk. destruct s1 as [|b [|d t]]; reflexivity.
Qed.

Lemma take_token_digit (d : char16) (t : jsstring) :
  is_digit d = true -> take_token (d :: t) <> None.
Proof.
  intros Hd. unfold take_token. simpl. rewrite Hd.
  destruct (span_digits t) as [ds r].
  destruct (take_frac r) as [[fr r']|]; discriminate.
Qed.

(** The captured token starts with a digit and is a prefix of the input. *)
Lemma take_token_some (s tok : jsstring) (g2 : option jsstring) (r : jsstring) :
  take_token s = Some (tok, g2, r) ->
  s = tok ++ r /\ exists d tok', tok = d :: tok' /\ is_digit d = true.
Proof.
  unfold take_token. destruct (span_digits s) as [ds r0] eqn:Es.
  destruct ds as [|d ds]; [discriminate|].
  assert (Hd : is_digit d = true).
  { destruct s as [|a s]; simpl in Es; [discriminate|].
    destruct (is_digit a) eqn:Ea; [|discriminate].
    destruct (span_digits s). inversion Es; subst. exact Ea. }
  apply span_digits_app in Es.
  destruct (take_frac r0) as [[fr r']|] eqn:Ef; intros H; inversion H; subst.
  - apply take_frac_app in Ef. subst r0. split.
    + rewrite app_assoc. reflexivity.
    + exists d, (ds ++ fr). split; [reflexivity|exact Hd].
  - split; [reflexivity|]. exists d, ds. split; [reflexivity|exact Hd].
Qed.

Lemma take_token_space (a : char16) (t : jsstring) :
  is_space a = true -> take_token (a :: t) = None.
Proof.
  intros Ha. unfold take_token. simpl.
  rewrite (is_space_not_digit _ Ha). reflexivity.
Qed.

(** What [amount_at] reads: a marker, at most one whitespace, the token. *)
Lemma amount_at_some (s tok : jsstring) (g2 : option jsstring) (r : jsstring) :
  amount_at s = Some (tok, g2, r) ->
  exists mk ws,
    s = mk ++ ws ++ tok ++ r /\ is_marker mk /\ opt_space ws /\
    take_token (tok ++ r) = Some (tok, g2, r).
Proof.
  unfold amount_at. destruct (strip_marker s) as [s1|] eqn:Em; [|discriminate].
  apply strip_marker_some in Em. destruct Em as (mk & -> & Hmk).
  destruct s1 as [|a s2]; [discriminate|].
  assert (Hnone : take_token (a :: s2) = Some (tok, g2, r) ->
                  exists mk0 ws, mk ++ a :: s2 = mk0 ++ ws ++ tok ++ r /\
                                 is_marker mk0 /\ opt_space ws /\
                                 take_token (tok ++ r) = Some (tok, g2, r)).
  { intros H. pose proof (take_token_some _ _ _ _ H) as [E _].
    exists mk, []. rewrite <- E. repeat split; auto. left; reflexivity. }
  destruct (is_space a) eqn:Ea; [|exact Hnone].
  destruct (take_token s2) as [x|] eqn:Et; [|exact Hnone].
  intros H; inversion H; subst x.
  pose proof (take_token_some _ _ _ _ Et) as [E _].
  exists mk, [a]. rewrite <- E. repeat split; auto.
  right. exists a. split; [reflexivity|exact Ea].
Qed.

(** [amount_at] reads something wherever a marker, at most one
    whitespace and a digit stand. *)
Lemma amount_at_complete (mk ws : jsstring) (d : char16) (post : jsstring) :
  is_marker mk -> opt_space ws -> is_digit d = true ->
  amount_at (mk ++ ws ++ d :: post) <> None.
Proof.
  intros Hmk Hws Hd. unfold amount_at.
  rewrite (strip_marker_app _ _ Hmk).
  destruct Hws as [-> | (w & -> & Hw)]; simpl.
  - destruct (is_space d) eqn:Esp.
    + apply is_space_not_digit in Esp. congruence.
    + apply take_token_digit, Hd.
  - rewrite Hw. pose proof (take_token_digit d post Hd) as Hne.
    destruct (take_token (d :: post)); [discriminate|congruence].
Qed.

End Occurrences.

(* ================================================================= *)
(** ** What [parseExpenseFromSms] returns *)

Section Extractor.

Lemma amount_starts_iff (s : jsstring) : amount_starts s <-> amount_at s <> None.
Proof.
  split.
  - intros (mk & ws & d & post & -> & Hmk & Hws & Hd).
    apply amount_at_complete; assumption.
  - intros H. destruct (amount_at s) as [[[tok g2] r]|] eqn:E; [|congruence].
    destruct (amount_at_some _ _ _ _ E) as (mk & ws & Hs & Hmk & Hws & Ht).
    destruct (take_token_some _ _ _ _ Ht) as (_ & d & tok' & -> & Hd).
    exists mk, ws, d, (tok' ++ r). repeat split; assumption.
Qed.

Lemma match_here_none_iff (s : jsstring) :
  match_here amountRegex s = None <-> ~ amount_starts s.
Proof.
  rewrite match_here_amountRegex, amount_starts_iff.
  destruct (amount_at s) as [[[tok g2] r]|]; split; intros H;
    try congruence; try discriminate.
  exfalso. apply H. discriminate.
Qed.

Lemma skipn_length_app (A : Type) (l1 l2 : list A) : skipn (length l1) (l1 ++ l2) = l2.
Proof. induction l1; simpl; auto. Qed.

Lemma firstn_length_app (A : Type) (l1 l2 : list A) : firstn (length l1) (l1 ++ l2) = l1.
Proof. induction l1; simpl; [reflexivity|]. f_equal. assumption. Qed.

(** [exec] finds nothing exactly when no currency amount occurs. *)
Lemma exec_amountRegex_none (body : jsstring) :
  exec amountRegex body = None <-> ~ currency_amount_occurs body.
Proof.
  unfold exec. rewrite exec_from_none. split.
  - intros H (pre & suf & -> & Hs).
    specialize (H (length pre)). rewrite skipn_length_app in H.
    apply match_here_none_iff in H; [contradiction|].
    rewrite length_app. lia.
  - intros H j Hj. apply match_here_none_iff. intros Hs. apply H.
    exists (firstn j body), (skipn j body). split; [|assumption].
    symmetry. apply firstn_skipn.
Qed.

(** The leftmost match, taken apart. *)
Lemma exec_amountRegex_some (body : jsstring) (m : match_result) :
  exec amountRegex body = Some m ->
  exists pre mk ws tok g2 post,
    body = pre ++ mk ++ ws ++ tok ++ post /\
    is_marker mk /\ opt_space ws /\
    take_token (tok ++ post) = Some (tok, g2, post) /\
    (forall j, (j < length pre)%nat -> ~ amount_starts (skipn j body)) /\
    m = MatchResult (length pre) (mk ++ ws ++ tok) [Some tok; g2].
Proof.
  intros H. apply exec_from_some in H.
  destruct H as (pre & suf & y & Hb & Hi & Hm & Hmt & Hg & Hl).
  rewrite match_here_amountRegex in Hm.
  destruct (amount_at suf) as [[[tok g2] r]|] eqn:Ea; [|discriminate].
  inversion Hm; subst y; clear Hm. cbn [rest caps] in *.
  destruct (amount_at_some _ _ _ _ Ea) as (mk & ws & Hs & Hmk & Hws & Ht).
  exists pre, mk, ws, tok, g2, r. subst suf.
  repeat split; try assumption.
  - intros j Hj. apply match_here_none_iff, Hl, Hj.
  - destruct m as [i mt gs]. cbn in *. subst i gs. f_equal.
    rewrite Hmt. rewrite !app_assoc. rewrite consumed_app. reflexivity.
Qed.

Lemma string_replace_match (r : regex) (pre mt post : jsstring)
      (gs : list (option jsstring)) (repl : jsstring) :
  exec r (pre ++ mt ++ post) = Some (MatchResult (length pre) mt gs) ->
  string_replace (pre ++ mt ++ post) r repl = pre ++ repl ++ post.
Proof.
  intros H. unfold string_replace. rewrite H. cbn [index matched].
  rewrite firstn_length_app. f_equal. f_equal.
  rewrite app_assoc, <- length_app. apply skipn_length_app.
Qed.

(** The result of the extractor, read off the leftmost match. *)
Lemma parseExpenseFromSms_some (body : jsstring) (date : Z) (m : match_result) :
  exec amountRegex body = Some m ->
  exists pre mk ws tok g2 post,
    body = pre ++ mk ++ ws ++ tok ++ post /\
    is_marker mk /\ opt_space ws /\
    take_token (tok ++ post) = Some (tok, g2, post) /\
    (forall j, (j < length pre)%nat -> ~ amount_starts (skipn j body)) /\
    m = MatchResult (length pre) (mk ++ ws ++ tok) [Some tok; g2] /\
    parseExpenseFromSms body date =
    Some {| amount := parseFloat tok;
            description := slice0 (pre ++ post) 50 ++ ellipsis;
            date := toLocaleDateString date |}.
Proof.
  intros H. destruct (exec_amountRegex_some _ _ H)
    as (pre & mk & ws & tok & g2 & post & Hb & Hmk & Hws & Ht & Hl & Hm).
  exists pre, mk, ws, tok, g2, post. repeat split; try assumption.
  unfold parseExpenseFromSms, parseExpenseWith, string_match.
  rewrite H. subst m. cbn [group groups nth_error pred parseFloat_value].
  rewrite Hb in H |- *.
  replace (pre ++ mk ++ ws ++ tok ++ post)
    with (pre ++ (mk ++ ws ++ tok) ++ post) in H |- *
    by (rewrite <- !app_assoc; reflexivity).
  rewrite (string_replace_match _ _ _ _ _ _ H). reflexivity.
Qed.

Lemma parseExpenseFromSms_none (body : jsstring) (date : Z) :
  exec amountRegex body = None -> parseExpenseFromSms body date = None.
Proof.
  intros H. unfold parseExpenseFromSms, parseExpenseWith, string_match.
  rewrite H. reflexivity.
Qed.

End Extractor.

(* ================================================================= *)
(** ** What [parseFloat] returns on a token *)

Section NumberFacts.

Local Open Scope Z_scope.

Lemma digits2_pos_lower (p : positive) : 2 ^ (Zpos (digits2_pos p) - 1) <= Zpos p.
Proof.
  induction p as [p IH|p IH|]; simpl digits2_pos.
  - rewrite Pos2Z.inj_succ. replace (Z.succ (Zpos (digits2_pos p)) - 1)
      with (Z.succ (Zpos (digits2_pos p) - 1)) by lia.
    rewrite Z.pow_succ_r by lia. lia.
  - rewrite Pos2Z.inj_succ. replace (Z.succ (Zpos (digits2_pos p)) - 1)
      with (Z.succ (Zpos (digits2_pos p) - 1)) by lia.
    rewrite Z.pow_succ_r by lia. lia.
  - simpl. lia.
Qed.

Lemma Zdigits2_le (m k : Z) : 0 <= m -> 0 <= k -> m < 2 ^ k -> Zdigits2 m <= k.
Proof.
  intros Hm Hk H. destruct m as [|p|p]; simpl; [lia| |lia].
  destruct (Z_le_gt_dec (Zpos (digits2_pos p)) k) as [Hle|Hgt]; [exact Hle|].
  exfalso. pose proof (digits2_pos_lower p) as Hl.
  assert (2 ^ k <= 2 ^ (Zpos (digits2_pos p) - 1)) by (apply Z.pow_le_mono_r; lia).
  lia.
Qed.

Lemma fexp_le (x : Z) : x <= 1024 -> fexp prec emax x <= 971.
Proof. unfold fexp, emin, prec, emax. lia. Qed.

Lemma shr_1_div2 (mrs : shr_record) :
  0 <= shr_m mrs -> shr_m (shr_1 mrs) = shr_m mrs / 2.
Proof.
  destruct mrs as [m r s]. simpl. intros H.
  destruct m as [|[p|p|]|p]; simpl; try lia.
  - reflexivity.
  - rewrite Pos2Z.inj_xI. apply Z.div_unique with (r := 1); lia.
  - rewrite Pos2Z.inj_xO. apply Z.div_unique with (r := 0); lia.
  - reflexivity.
Qed.

Lemma shr_1_half_nonneg (mrs : shr_record) :
  0 <= shr_m mrs -> 0 <= shr_m (shr_1 mrs).
Proof.
  intros H. rewrite shr_1_div2 by exact H. apply Z.div_pos; lia.
Qed.

Lemma iter_shr_1_div (p : positive) :
  forall mrs, 0 <= shr_m mrs ->
    0 <= shr_m (iter_pos shr_1 p mrs) /\
    shr_m (iter_pos shr_1 p mrs) = shr_m mrs / 2 ^ Zpos p.
Proof.
  induction p as [p IH|p IH|]; intros mrs H; simpl iter_pos.
  - pose proof (shr_1_half_nonneg mrs H) as H1.
    destruct (IH _ H1) as [H2 E2]. destruct (IH _ H2) as [H3 E3].
    split; [exact H3|]. rewrite E3, E2, shr_1_div2 by exact H.
    rewrite !Z.div_div by lia. f_equal.
    rewrite Pos2Z.inj_xI. rewrite Z.pow_add_r, Z.pow_mul_r by lia.
    change (2 ^ 2) with 4. rewrite Z.pow_1_r.
    replace (4 ^ Zpos p) with (2 ^ Zpos p * 2 ^ Zpos p); [lia|].
    rewrite <- Z.pow_add_r by lia. replace (Zpos p + Zpos p) with (2 * Zpos p) by lia.
    rewrite Z.pow_mul_r by lia. reflexivity.
  - destruct (IH _ H) as [H2 E2]. destruct (IH _ H2) as [H3 E3].
    split; [exact H3|]. rewrite E3, E2.
    rewrite !Z.div_div by lia. f_equal.
    rewrite Pos2Z.inj_xO. rewrite <- Z.pow_add_r by lia. f_equal. lia.
  - split; [apply shr_1_half_nonneg, H|]. rewrite shr_1_div2 by exact H. reflexivity.
Qed.

Lemma shr_m_of_loc (m : Z) (l : location) : shr_m (shr_record_of_loc m l) = m.
Proof. destruct l as [|[]]; reflexivity. Qed.

Lemma shr_fexp_spec (m e : Z) (l : location) :
  0 <= m ->
  exists n, 0 <= n /\
    snd (shr_fexp prec emax m e l) = e + n /\
    snd (shr_fexp prec emax m e l) = Z.max e (fexp prec emax (Zdigits2 m + e)) /\
    0 <= shr_m (fst (shr_fexp prec emax m e l)) /\
    shr_m (fst (shr_fexp prec emax m e l)) = m / 2 ^ n.
Proof.
  intros Hm. unfold shr_fexp, shr.
  destruct (fexp prec emax (Zdigits2 m + e) - e) as [|p|p] eqn:E; cbn [fst snd].
  - exists 0. rewrite shr_m_of_loc, Z.pow_0_r, Z.div_1_r. repeat split; lia.
  - exists (Zpos p).
    destruct (iter_shr_1_div p (shr_record_of_loc m l)) as [H1 H2];
      [rewrite shr_m_of_loc; exact Hm|].
    rewrite shr_m_of_loc in H2. repeat split; try lia; assumption.
  - exists 0. rewrite shr_m_of_loc, Z.pow_0_r, Z.div_1_r. repeat split; lia.
Qed.

Lemma round_nearest_even_bounds (m : Z) (l : location) :
  m <= round_nearest_even m l <= m + 1.
Proof. destruct l as [|[]]; simpl; try lia. destruct (Z.even m); lia. Qed.

(** Rounding a non-negative mantissa gives no NaN and no negative number. *)
Lemma binary_round_aux_nonneg (mx ex : Z) (lx : location) :
  0 <= mx -> nonneg_number (binary_round_aux prec emax false mx ex lx).
Proof.
  intros H. unfold binary_round_aux.
  destruct (shr_fexp_spec mx ex lx H) as (n1 & _ & _ & _ & H1 & _).
  destruct (shr_fexp prec emax mx ex lx) as [mrs1 e1]. cbn [fst] in H1.
  pose proof (round_nearest_even_bounds (shr_m mrs1) (loc_of_shr_record mrs1)) as Hr.
  destruct (shr_fexp_spec (round_nearest_even (shr_m mrs1) (loc_of_shr_record mrs1))
              e1 loc_Exact ltac:(lia)) as (n2 & _ & _ & _ & H2 & _).
  destruct (shr_fexp prec emax _ e1 loc_Exact) as [mrs2 e2]. cbn [fst] in H2.
  destruct (shr_m mrs2) as [|m|m]; simpl; [exact I| |lia].
  destruct (e2 <=? 971); exact I.
Qed.

Lemma binary_round_aux_finite (q t : Z) (l : location) :
  0 <= q -> 0 <= t -> q < overflow_threshold * 2 ^ t ->
  isFinite (binary_round_aux prec emax false q (- t) l) = true.
Proof.
  intros Hq Ht Hlt. unfold binary_round_aux.
  destruct (shr_fexp_spec q (- t) l Hq) as (n1 & Hn1 & He1 & He1' & Hm1 & Em1).
  destruct (shr_fexp prec emax q (- t) l) as [mrs1 e1]. cbn [fst snd] in *.
  assert (Hpt : 0 < 2 ^ t) by (apply Z.pow_pos_nonneg; lia).
  assert (Hq' : q < 2 ^ (1024 + t)).
  { rewrite Z.pow_add_r by lia. unfold overflow_threshold in Hlt.
    assert (0 < 2 ^ 971) by (apply Z.pow_pos_nonneg; lia). nia. }
  assert (Hd : Zdigits2 q <= 1024 + t) by (apply Zdigits2_le; lia).
  assert (Hfe : fexp prec emax (Zdigits2 q + - t) <= 971) by (apply fexp_le; lia).
  assert (He971 : e1 <= 971) by lia.
  set (m1' := round_nearest_even (shr_m mrs1) (loc_of_shr_record mrs1)).
  pose proof (round_nearest_even_bounds (shr_m mrs1) (loc_of_shr_record mrs1)) as Hr.
  fold m1' in Hr.
  assert (Hm1' : 0 <= m1') by lia.
  destruct (shr_fexp_spec m1' e1 loc_Exact Hm1') as (n2 & Hn2 & He2 & He2' & Hm2 & Em2).
  destruct (shr_fexp prec emax m1' e1 loc_Exact) as [mrs2 e2]. cbn [fst snd] in *.
  assert (Hpn : 0 < 2 ^ n1) by (apply Z.pow_pos_nonneg; lia).
  assert (Hmul : shr_m mrs1 * 2 ^ n1 <= q).
  { rewrite Em1. rewrite Z.mul_comm. apply Z.mul_div_le. exact Hpn. }
  assert (Hn971 : 2 ^ n1 <= 2 ^ 971 * 2 ^ t).
  { rewrite <- Z.pow_add_r by lia. apply Z.pow_le_mono_r; lia. }
  assert (Hbig : (shr_m mrs1 + 1) * 2 ^ n1 < 2 ^ (1024 - e1) * 2 ^ n1).
  { rewrite <- Z.pow_add_r by lia. replace (1024 - e1 + n1) with (1024 + t) by lia.
    rewrite Z.pow_add_r by lia. unfold overflow_threshold in Hlt. nia. }
  assert (Hm1lt : m1' < 2 ^ (1024 - e1)).
  { apply Z.mul_lt_mono_pos_r in Hbig; [lia|exact Hpn]. }
  assert (Hd2 : Zdigits2 m1' <= 1024 - e1) by (apply Zdigits2_le; lia).
  assert (Hfe2 : fexp prec emax (Zdigits2 m1' + e1) <= 971) by (apply fexp_le; lia).
  assert (He2971 : e2 <= 971) by lia.
  destruct (shr_m mrs2) as [|m|m]; [reflexivity| |lia].
  replace (e2 <=? emax - prec) with true; [reflexivity|].
  symmetry. apply Z.leb_le. unfold emax, prec. lia.
Qed.

Lemma SFdiv_finite (p1 p2 : positive) :
  Zpos p1 < Zpos p2 * overflow_threshold ->
  isFinite (SFdiv prec emax (S754_finite false p1 0) (S754_finite false p2 0)) = true.
Proof.
  intros H. unfold SFdiv, SFdiv_core_binary.
  set (e' := Z.min (fexp prec emax (Zdigits2 (Zpos p1) + 0 - (Zdigits2 (Zpos p2) + 0))) (0 - 0)).
  assert (He' : e' <= 0) by (unfold e'; lia).
  set (m' := match 0 - 0 - e' with Z0 => _ | Zpos _ => _ | Zneg _ => _ end).
  assert (Hm' : m' = Zpos p1 * 2 ^ (- e')).
  { unfold m'. replace (0 - 0 - e') with (- e') by lia.
    destruct (- e') as [|s|s] eqn:Es; try lia.
    rewrite Z.shiftl_mul_pow2 by lia. reflexivity. }
  assert (Hpt : 0 < 2 ^ (- e')) by (apply Z.pow_pos_nonneg; lia).
  pose proof (Z.div_pos m' (Zpos p2) ltac:(lia) (Pos2Z.is_pos p2)) as Hq.
  pose proof (Z.mul_div_le m' (Zpos p2) (Pos2Z.is_pos p2)) as Hle.
  unfold Z.div in Hq, Hle.
  destruct (Z.div_eucl m' (Zpos p2)) as [q r]. cbn [fst] in Hq, Hle.
  cbn [xorb].
  replace e' with (- (- e')) by lia.
  apply binary_round_aux_finite; try lia.
  assert (Zpos p2 * q < Zpos p2 * (overflow_threshold * 2 ^ (- e'))); [nia|].
  apply Z.mul_lt_mono_pos_l in H0; lia.
Qed.

Lemma SFdiv_nonneg (p1 p2 : positive) :
  nonneg_number (SFdiv prec emax (S754_finite false p1 0) (S754_finite false p2 0)).
Proof.
  unfold SFdiv, SFdiv_core_binary.
  set (m' := match _ - _ - _ with Z0 => _ | Zpos _ => _ | Zneg _ => _ end).
  assert (Hm : 0 <= m').
  { unfold m'. destruct (_ - _ - _); try lia. apply Z.shiftl_nonneg. lia. }
  pose proof (Z.div_pos m' (Zpos p2) Hm (Pos2Z.is_pos p2)) as Hq.
  unfold Z.div in Hq.
  destruct (Z.div_eucl m' (Zpos p2)) as [q r]. simpl in Hq.
  apply binary_round_aux_nonneg, Hq.
Qed.

Lemma of_decimal_nonneg (n : N) (e : Z) : nonneg_number (of_decimal false n e).
Proof.
  unfold of_decimal. destruct n as [|p]; [exact I|]. apply SFdiv_nonneg.
Qed.

Lemma nonneg_number_not_nan (x : number) :
  nonneg_number x -> isNaN x = false /\ isNegative x = false.
Proof. destruct x as [[|]|[|]| |[|] m e]; simpl; intros H; try contradiction; auto. Qed.

Lemma is_digit_not_space (d : char16) : is_digit d = true -> is_space d = false.
Proof.
  intros H. destruct (is_space d) eqn:E; [|reflexivity].
  apply is_space_not_digit in E. congruence.
Qed.

Lemma of_decimal_finite (n : N) (k : nat) :
  Z.of_N n < 10 ^ Z.of_nat k * overflow_threshold ->
  isFinite (of_decimal false n (0 - Z.of_nat k)) = true.
Proof.
  intros H. unfold of_decimal. destruct n as [|p]; [reflexivity|].
  replace (Z.max (0 - Z.of_nat k) 0) with 0 by lia.
  replace (Z.max (- (0 - Z.of_nat k)) 0) with (Z.of_nat k) by lia.
  rewrite Z.pow_0_r, Z.mul_1_r. cbn [Z.to_pos].
  apply SFdiv_finite.
  assert (Hp : 0 < 10 ^ Z.of_nat k) by (apply Z.pow_pos_nonneg; lia).
  rewrite Z2Pos.id by exact Hp. exact H.
Qed.

Lemma fold_digits_lt (ds : jsstring) :
  Forall (fun d => is_digit d = true) ds ->
  forall acc,
    Z.of_N (fold_left (fun a c => (10 * a + (c - 48))%N) ds acc)
    < (Z.of_N acc + 1) * 10 ^ Z.of_nat (length ds).
Proof.
  induction 1 as [|d ds Hd _ IH]; intros acc.
  - simpl. lia.
  - cbn [fold_left length]. specialize (IH (10 * acc + (d - 48))%N).
    rewrite Nat2Z.inj_succ, Z.pow_succ_r by lia.
    unfold is_digit in Hd. apply andb_prop in Hd. destruct Hd as [H1 H2].
    apply N.leb_le in H1, H2.
    assert (Hp : 0 < 10 ^ Z.of_nat (length ds)) by (apply Z.pow_pos_nonneg; lia).
    assert (Z.of_N (10 * acc + (d - 48)) + 1 <= (Z.of_N acc + 1) * 10) by lia.
    nia.
Qed.

Lemma digits_value_lt (ds : jsstring) :
  Forall (fun d => is_digit d = true) ds ->
  Z.of_N (digits_value ds) < 10 ^ Z.of_nat (length ds).
Proof.
  intros H. pose proof (fold_digits_lt ds H 0%N) as Hl.
  change (Z.of_N 0) with 0 in Hl. rewrite Z.add_0_l, Z.mul_1_l in Hl. exact Hl.
Qed.

Lemma span_digits_stop (ds rest : jsstring) :
  Forall (fun d => is_digit d = true) ds ->
  match rest with [] => True | x :: _ => is_digit x = false end ->
  span_digits (ds ++ rest) = (ds, rest).
Proof.
  intros Hds Hrest. induction Hds as [|d ds Hd _ IH]; cbn [app span_digits].
  - destruct rest as [|x rest]; [reflexivity|].
    cbn [span_digits]. rewrite Hrest. reflexivity.
  - rewrite Hd, IH. reflexivity.
Qed.

Lemma span_digits_all (s ds r : jsstring) :
  span_digits s = (ds, r) ->
  Forall (fun d => is_digit d = true) ds /\
  match r with [] => True | x :: _ => is_digit x = false end.
Proof.
  revert ds r. induction s as [|a s IH]; intros ds r H; cbn [span_digits] in H.
  - inversion H. split; [constructor|exact I].
  - destruct (is_digit a) eqn:Ea.
    + destruct (span_digits s) as [ds' r'] eqn:E. inversion H; subst.
      destruct (IH ds' r eq_refl) as [H1 H2]. split; [constructor|]; assumption.
    + inversion H; subst. split; [constructor|exact Ea].
Qed.

(** A pattern character that is not a letter matches itself only. *)
Lemma ci_exact (ch a : char16) :
  (ch < 65)%N -> ci ch a = true -> a = ch.
Proof.
  unfold ci, canonicalize. intros Hch H. apply N.eqb_eq in H.
  destruct (N.leb_spec 97 a), (N.leb_spec a 122),
           (N.leb_spec 97 ch), (N.leb_spec ch 122); simpl in H; lia.
Qed.

Lemma digits12_digits (s fd r : jsstring) :
  digits12 s = Some (fd, r) ->
  Forall (fun d => is_digit d = true) fd /\ (length fd <= 2)%nat /\
  match r with [] => True | x :: _ => length fd = 2%nat \/ is_digit x = false end.
Proof.
  unfold digits12. destruct s as [|a [|b u]]; try discriminate.
  - destruct (is_digit a) eqn:Ea; [|discriminate]. intros H; inversion H; subst.
    repeat constructor; assumption.
  - destruct (is_digit a) eqn:Ea; [|discriminate].
    destruct (is_digit b) eqn:Eb; intros H; inversion H; subst.
    + split; [repeat constructor; assumption|]. split; [simpl; lia|].
      destruct r; [exact I|left; reflexivity].
    + split; [repeat constructor; assumption|]. split; [simpl; lia|].
      right; exact Eb.
Qed.

(** The value [parseFloat] gives to the captured token: the digit run
    [ds] that opens it, with the one or two fraction digits [fd] when a
    point follows the run directly. *)
Lemma parseFloat_token (s tok : jsstring) (g2 : option jsstring) (r : jsstring) :
  take_token s = Some (tok, g2, r) ->
  exists ds fd x,
    s = ds ++ x /\
    Forall (fun d => is_digit d = true) ds /\
    Forall (fun d => is_digit d = true) fd /\
    parseFloat tok =
    of_decimal false (digits_value (ds ++ fd)) (0 - Z.of_nat (length fd)).
Proof.
  intros H. pose proof (take_token_some _ _ _ _ H) as (_ & d0 & tok0 & Etok & Hd0).
  assert (Hpf : parseFloat tok = str_unsigned_decimal false tok).
  { subst tok. unfold parseFloat. cbn [trim_start].
    rewrite (is_digit_not_space d0 Hd0).
    assert (Hr : (48 <= d0 <= 57)%N).
    { unfold is_digit in Hd0. apply andb_prop in Hd0. destruct Hd0 as [H1 H2].
      apply N.leb_le in H1, H2. lia. }
    replace (d0 =? code "+")%N with false
      by (symmetry; apply N.eqb_neq; vm_compute (code "+"); lia).
    replace (d0 =? code "-")%N with false
      by (symmetry; apply N.eqb_neq; vm_compute (code "-"); lia).
    reflexivity. }
  assert (Hinf : starts_with (lit "Infinity") tok = false).
  { subst tok. change (lit "Infinity") with (73%N :: lit "nfinity").
    cbn [starts_with].
    unfold is_digit in Hd0. apply andb_prop in Hd0. destruct Hd0 as [H1 H2].
    apply N.leb_le in H1, H2.
    replace (73 =? d0)%N with false by (symmetry; apply N.eqb_neq; lia).
    reflexivity. }
  rewrite Hpf. unfold str_unsigned_decimal. rewrite Hinf. clear Hpf Hinf Etok.
  unfold take_token in H.
  destruct (span_digits s) as [ds r0] eqn:Es.
  destruct (span_digits_all _ _ _ Es) as [Hds Hr0].
  apply span_digits_app in Es.
  destruct ds as [|d ds]; [discriminate|].
  destruct (take_frac r0) as [[fr r']|] eqn:Ef.
  - injection H as <- <- <-.
    unfold take_frac in Ef. destruct r0 as [|a t]; [discriminate|].
    destruct (ci (code ":") a) eqn:Ecolon.
    + (* the token goes on with a colon: parseFloat stops at it *)
      apply ci_exact in Ecolon; [|reflexivity]. subst a.
      destruct (dot_digits t) as [[fr' r'']|]; [|discriminate].
      injection Ef as <- <-.
      match goal with
      | |- context [span_digits ?y] =>
        replace (span_digits y) with (d :: ds, code ":" :: fr')
          by (symmetry; exact (span_digits_stop (d :: ds) (code ":" :: fr') Hds eq_refl))
      end.
      change (code ":" =? code ".")%N with false. cbv iota.
      exists (d :: ds), [], (code ":" :: t).
      rewrite !app_nil_r. repeat split; try assumption; constructor.
    + unfold dot_digits in Ef.
      destruct (ci (code ".") a) eqn:Edot; [|discriminate].
      apply ci_exact in Edot; [|reflexivity]. subst a.
      destruct (digits12 t) as [[fd r'']|] eqn:E12; [|discriminate].
      injection Ef as <- <-.
      destruct (digits12_digits _ _ _ E12) as (Hfd & _ & _).
      match goal with
      | |- context [span_digits ?y] =>
        replace (span_digits y) with (d :: ds, code "." :: fd)
          by (symmetry; exact (span_digits_stop (d :: ds) (code "." :: fd) Hds eq_refl))
      end.
      change (code "." =? code ".")%N with true. cbv iota.
      pose proof (span_digits_stop fd [] Hfd I) as Efd.
      rewrite app_nil_r in Efd. rewrite Efd.
      exists (d :: ds), fd, (code "." :: t).
      repeat split; assumption.
  - injection H as <- <- <-.
    pose proof (span_digits_stop (d :: ds) [] Hds I) as Efd.
    rewrite app_nil_r in Efd. rewrite Efd. cbv iota.
    exists (d :: ds), [], r0. rewrite !app_nil_r.
    repeat split; try assumption; constructor.
Qed.

(** The amount parsed from a token is never NaN and never negative. *)
Lemma parseFloat_token_nonneg (s tok : jsstring) (g2 : option jsstring) (r : jsstring) :
  take_token s = Some (tok, g2, r) -> nonneg_number (parseFloat tok).
Proof.
  intros H. destruct (parseFloat_token _ _ _ _ H) as (ds & fd & x & _ & _ & _ & ->).
  apply of_decimal_nonneg.
Qed.

(** The amount is finite when the digit run of the token has at most
    308 digits. *)
Lemma parseFloat_token_finite (s tok : jsstring) (g2 : option jsstring)
      (r : jsstring) :
  take_token s = Some (tok, g2, r) ->
  (forall ds x, s = ds ++ x -> Forall (fun d => is_digit d = true) ds ->
                (length ds <= 308)%nat) ->
  isFinite (parseFloat tok) = true.
Proof.
  intros H Hrun.
  destruct (parseFloat_token _ _ _ _ H) as (ds & fd & x & Hs & Hds & Hfd & ->).
  apply of_decimal_finite.
  assert (Hlen : (length ds <= 308)%nat) by (apply (Hrun ds x Hs Hds)).
  pose proof (digits_value_lt (ds ++ fd) (proj2 (Forall_app _ _ _) (conj Hds Hfd))) as Hv.
  rewrite length_app, Nat2Z.inj_add, Z.pow_add_r in Hv by lia.
  assert (Hp : 0 < 10 ^ Z.of_nat (length fd)) by (apply Z.pow_pos_nonneg; lia).
  assert (Hle : 10 ^ Z.of_nat (length ds) <= 10 ^ 308)
    by (apply Z.pow_le_mono_r; lia).
  assert (Hthr : 10 ^ 308 < overflow_threshold) by (vm_compute; reflexivity).
  nia.
Qed.

End NumberFacts.

(* ================================================================= *)
(** ** Cutting out the first occurrence of a text *)

Section RemoveFirst.

Lemma starts_with_iff (sub s : jsstring) :
  starts_with sub s = true <-> exists x, s = sub ++ x.
Proof.
  revert s. induction sub as [|a sub IH]; intros s; simpl.
  - split; [intros _; exists s; reflexivity|reflexivity].
  - destruct s as [|b s].
    + split; [discriminate|intros (x & Hx); discriminate].
    + rewrite andb_true_iff, N.eqb_eq, IH. split.
      * intros (-> & x & ->). exists x. reflexivity.
      * intros (x & Hx). inversion Hx; subst. split; [reflexivity|].
        exists x. reflexivity.
Qed.

Lemma remove_first_eq (sub s : jsstring) :
  remove_first sub s =
  if starts_with sub s then skipn (length sub) s
  else match s with
       | [] => []
       | a :: s' => a :: remove_first sub s'
       end.
Proof. destruct s; reflexivity. Qed.

(** When [sub] does not occur further left, [remove_first] cuts it out
    where it stands. *)
Lemma remove_first_leftmost (sub post : jsstring) :
  forall pre,
    (forall j, (j < length pre)%nat ->
               starts_with sub (skipn j (pre ++ sub ++ post)) = false) ->
    remove_first sub (pre ++ sub ++ post) = pre ++ post.
Proof.
  induction pre as [|a pre IH]; intros H.
  - rewrite remove_first_eq. simpl app.
    assert (E : starts_with sub (sub ++ post) = true)
      by (apply starts_with_iff; exists post; reflexivity).
    rewrite E. apply skipn_length_app.
  - rewrite remove_first_eq.
    assert (E0 : starts_with sub (skipn 0 ((a :: pre) ++ sub ++ post)) = false)
      by (apply H; simpl; lia).
    change (starts_with sub ((a :: pre) ++ sub ++ post) = false) in E0.
    rewrite E0. simpl. f_equal. apply IH.
    intros j Hj. apply (H (S j)). simpl. lia.
Qed.

End RemoveFirst.

(* ================================================================= *)
(** ** A match at the start of the body *)

Section AtStart.

(** A match at the start of the body decides the result. *)
Lemma parse_at_start (s tok : jsstring) (g2 : option jsstring) (r : jsstring)
      (date : Z) :
  amount_at s = Some (tok, g2, r) ->
  string_match s amountRegex =
    Some (MatchResult 0 (consumed s r) [Some tok; g2]) /\
  parseExpenseFromSms s date =
    Some {| amount := parseFloat tok;
            description := slice0 r 50 ++ ellipsis;
            date := toLocaleDateString date |}.
Proof.
  intros Ha.
  assert (Hm : match_here amountRegex s = Some (State r [Some tok; g2]))
    by (rewrite match_here_amountRegex, Ha; reflexivity).
  apply exec_here in Hm. cbn [rest caps] in Hm.
  split; [exact Hm|].
  unfold parseExpenseFromSms, parseExpenseWith, string_match, string_replace.
  rewrite Hm. cbn [group groups nth_error pred parseFloat_value index matched].
  destruct (amount_at_some _ _ _ _ Ha) as (mk & ws & Hs & _).
  replace s with ((mk ++ ws ++ tok) ++ r) by (rewrite Hs, <- !app_assoc; reflexivity).
  rewrite consumed_app. simpl firstn. simpl app at 1.
  rewrite skipn_length_app. reflexivity.
Qed.

(** A match that no currency amount starts before decides the result. *)
Lemma parse_leftmost (pre s tok : jsstring) (g2 : option jsstring) (r : jsstring)
      (date : Z) :
  (forall j, (j < length pre)%nat -> ~ amount_starts (skipn j (pre ++ s))) ->
  amount_at s = Some (tok, g2, r) ->
  string_match (pre ++ s) amountRegex =
    Some (MatchResult (length pre) (consumed s r) [Some tok; g2]) /\
  parseExpenseFromSms (pre ++ s) date =
    Some {| amount := parseFloat tok;
            description := firstn 50 (pre ++ r) ++ ellipsis;
            date := toLocaleDateString date |}.
Proof.
  intros Hpre Ha.
  assert (Hy : match_here amountRegex s = Some (State r [Some tok; g2]))
    by (rewrite match_here_amountRegex, Ha; reflexivity).
  assert (Hm : exec amountRegex (pre ++ s) =
               Some (MatchResult (length pre) (consumed s r) [Some tok; g2])).
  { apply (exec_after amountRegex pre s (State r [Some tok; g2])); [|exact Hy].
    intros j Hj. apply match_here_none_iff, Hpre, Hj. }
  split; [exact Hm|].
  unfold parseExpenseFromSms, parseExpenseWith, string_match, string_replace.
  rewrite Hm. cbn [group groups nth_error pred parseFloat_value index matched].
  destruct (amount_at_some _ _ _ _ Ha) as (mk & ws & Hs & _).
  replace s with ((mk ++ ws ++ tok) ++ r) by (rewrite Hs, <- !app_assoc; reflexivity).
  rewrite consumed_app, firstn_length_app.
  rewrite (app_assoc pre (mk ++ ws ++ tok) r), <- length_app, skipn_length_app.
  reflexivity.
Qed.

Lemma take_token_three_fraction_digits (ds : jsstring) (f1 f2 : char16)
      (rest : jsstring) :
  ds <> [] -> Forall (fun d => is_digit d = true) ds ->
  is_digit f1 = true -> is_digit f2 = true ->
  take_token (ds ++ code "." :: f1 :: f2 :: rest) =
  Some (ds ++ [code "."; f1; f2], Some [code "."; f1; f2], rest).
Proof.
  intros Hne Hds H1 H2. unfold take_token.
  rewrite span_digits_stop by (trivial; reflexivity).
  destruct ds as [|d ds]; [congruence|].
  unfold take_frac, dot_digits, digits12.
  change (ci (code ":") (code ".")) with false.
  change (ci (code ".") (code ".")) with true.
  cbv iota. rewrite H1, H2. reflexivity.
Qed.

(** Gaps of two or more whitespace characters everywhere is the same as
    no currency amount anywhere. *)
Lemma wide_gaps_iff (body : jsstring) :
  (forall pre mk ws d post,
      body = pre ++ mk ++ ws ++ d :: post ->
      is_marker mk -> Forall (fun w => is_space w = true) ws -> is_digit d = true ->
      (2 <= length ws)%nat) <->
  ~ currency_amount_occurs body.
Proof.
  split.
  - intros H (pre & suf & -> & mk & ws & d & post & -> & Hmk & Hws & Hd).
    assert (Hlen : (2 <= length ws)%nat).
    { apply (H pre mk ws d post eq_refl Hmk); [|exact Hd].
      destruct Hws as [-> | (w & -> & Hw)]; repeat constructor; assumption. }
    destruct Hws as [-> | (w & -> & Hw)]; simpl in Hlen; lia.
  - intros H pre mk ws d post -> Hmk Hws Hd.
    destruct ws as [|w [|w' ws]]; [exfalso|exfalso|simpl; lia]; apply H.
    + exists pre, (mk ++ [] ++ d :: post). split; [reflexivity|].
      exists mk, [], d, post. repeat split; try assumption. left; reflexivity.
    + exists pre, (mk ++ [w] ++ d :: post). split; [reflexivity|].
      exists mk, [w], d, post. repeat split; try assumption.
      right. exists w. split; [reflexivity|]. inversion Hws; assumption.
Qed.

End AtStart.

(* ================================================================= *)
(** ** The pattern of the program against the clean pattern *)

Section CleanPattern.

Lemma take_frac_no_colon (r : jsstring) :
  ~ In (code ":") r -> take_frac r = dot_digits r.
Proof.
  intros H. unfold take_frac. destruct r as [|a t]; [reflexivity|].
  destruct (ci (code ":") a) eqn:E; [|reflexivity].
  apply ci_exact in E; [|reflexivity]. subst a.
  exfalso. apply H. left; reflexivity.
Qed.

Lemma take_token_clean_agree (s : jsstring) :
  ~ In (code ":") s ->
  take_token_clean s =
  match take_token s with
  | Some (tok, _, r) => Some (tok, r)
  | None => None
  end.
Proof.
  intros H. unfold take_token_clean, take_token.
  destruct (span_digits s) as [ds r] eqn:Es.
  destruct ds as [|d ds]; [reflexivity|].
  apply span_digits_app in Es.
  rewrite take_frac_no_colon.
  - destruct (dot_digits r) as [[fr r']|]; reflexivity.
  - intros Hin. apply H. rewrite Es. apply in_or_app. right; exact Hin.
Qed.

Lemma amount_at_clean_agree (s : jsstring) :
  ~ In (code ":") s ->
  amount_at_clean s =
  match amount_at s with
  | Some (tok, _, r) => Some (tok, r)
  | None => None
  end.
Proof.
  intros H. unfold amount_at_clean, amount_at.
  destruct (strip_marker s) as [s1|] eqn:Em; [|reflexivity].
  apply strip_marker_some in Em. destruct Em as (mk & -> & _).
  assert (H1 : ~ In (code ":") s1)
    by (intros Hin; apply H, in_or_app; right; exact Hin).
  destruct s1 as [|a s2]; [reflexivity|].
  assert (H2 : ~ In (code ":") s2)
    by (intros Hin; apply H1; right; exact Hin).
  rewrite (take_token_clean_agree _ H1), (take_token_clean_agree _ H2).
  destruct (is_space a); [|reflexivity].
  destruct (take_token s2) as [[[tok g2] r]|]; reflexivity.
Qed.

Lemma exec_from_agree (r1 r2 : regex) (s : jsstring) :
  (forall j, (j <= length s)%nat ->
             option_map state_view (match_here r1 (skipn j s)) =
             option_map state_view (match_here r2 (skipn j s))) ->
  forall i, option_map match_view (exec_from r1 s i) =
            option_map match_view (exec_from r2 s i).
Proof.
  induction s as [|a s IH]; intros H i.
  - specialize (H O (Nat.le_refl _)). cbn [skipn exec_from] in *.
    destruct (match_here r1 []) as [y1|], (match_here r2 []) as [y2|];
      cbn [option_map] in *; try discriminate; try reflexivity.
    assert (E : state_view y1 = state_view y2) by congruence.
    apply pair_equal_spec in E. destruct E as [Hr Hc].
    unfold match_view, group. cbn [index matched groups pred].
    rewrite Hr, Hc. reflexivity.
  - pose proof (H O (Nat.le_0_l _)) as H0. cbn [skipn exec_from] in *.
    destruct (match_here r1 (a :: s)) as [y1|], (match_here r2 (a :: s)) as [y2|];
      cbn [option_map] in *; try discriminate.
    + assert (E : state_view y1 = state_view y2) by congruence.
      apply pair_equal_spec in E. destruct E as [Hr Hc].
      unfold match_view, group. cbn [index matched groups pred].
      rewrite Hr, Hc. reflexivity.
    + apply IH. intros j Hj. apply (H (S j)). simpl. lia.
Qed.

Lemma parseExpenseWith_agree (r1 r2 : regex) (body : jsstring) (date : Z) :
  option_map match_view (exec r1 body) = option_map match_view (exec r2 body) ->
  parseExpenseWith r1 body date = parseExpenseWith r2 body date.
Proof.
  intros H. unfold parseExpenseWith, string_match, string_replace.
  destruct (exec r1 body) as [m1|], (exec r2 body) as [m2|];
    cbn [option_map] in H; try discriminate; [|reflexivity].
  assert (E : match_view m1 = match_view m2) by congruence.
  unfold match_view in E. apply pair_equal_spec in E. destruct E as [E Hg].
  apply pair_equal_spec in E. destruct E as [Hi Hm].
  rewrite Hi, Hm, Hg. reflexivity.
Qed.

(** On a body without a colon the two patterns give the same extractor. *)
Lemma clean_pattern_agrees (body : jsstring) (date : Z) :
  ~ In (code ":") body ->
  parseExpenseFromSms body date = parseExpenseClean body date.
Proof.
  intros H. apply parseExpenseWith_agree. apply exec_from_agree.
  intros j Hj.
  assert (Hs : ~ In (code ":") (skipn j body)).
  { intros Hin. apply H. rewrite <- (firstn_skipn j body).
    apply in_or_app. right; exact Hin. }
  rewrite match_here_amountRegex, match_here_cleanRegex.
  rewrite (amount_at_clean_agree _ Hs).
  destruct (amount_at (skipn j body)) as [[[tok g2] r]|]; reflexivity.
Qed.

End CleanPattern.

(* ================================================================= *)
(** ** Claims about the extractor *)

Set Warnings "-inexact-float".

(** C1 (as the code has it). The extractor never returns an expense whose
    amount is NaN or negative: the captured token starts with a digit and
    carries no sign.  It checks nothing about the amount: wherever a
    currency amount occurs it returns an expense, and that amount is finite
    when no run of digits in the body is longer than 308. *)
Theorem C1_amount_not_nan_not_negative (body : jsstring) (date : Z) :
  (currency_amount_occurs body ->
   exists e, parseExpenseFromSms body date = Some e) /\
  (forall e, parseExpenseFromSms body date = Some e ->
             isNaN (amount e) = false /\ isNegative (amount e) = false /\
             (digit_runs_at_most 308 body -> isFinite (amount e) = true)).
Proof.
  destruct (exec amountRegex body) as [m|] eqn:Hm.
  - destruct (parseExpenseFromSms_some body date m Hm)
      as (pre & mk & ws & tok & g2 & post & Hb & Hmk & Hws & Ht & Hl & Em & Hp).
    split; [intros _; eexists; exact Hp|].
    intros e He. rewrite Hp in He. injection He as <-. cbn [amount].
    destruct (nonneg_number_not_nan _ (parseFloat_token_nonneg _ _ _ _ Ht)) as [Hn Hs].
    split; [exact Hn|]. split; [exact Hs|].
    intros Hruns. apply (parseFloat_token_finite _ _ _ _ Ht).
    intros ds x Hx Hds. apply (Hruns (pre ++ mk ++ ws) ds x); [|exact Hds].
    rewrite Hb, Hx, <- !app_assoc. reflexivity.
  - split.
    + intros Hocc. apply exec_amountRegex_none in Hm. contradiction.
    + intros e He. rewrite (parseExpenseFromSms_none body date Hm) in He. discriminate.
Qed.

Lemma C1_witness :
  exists e,
    parseExpenseFromSms (lit "RS 123.45 spent at store") 0 = Some e /\
    isNaN (amount e) = false /\ isNegative (amount e) = false /\
    isFinite (amount e) = true.
Proof.
  destruct (C1_amount_not_nan_not_negative (lit "RS 123.45 spent at store") 0)
    as [Hsome Hprop].
  assert (Hocc : currency_amount_occurs (lit "RS 123.45 spent at store")).
  { exists [], (lit "RS 123.45 spent at store"). split; [reflexivity|].
    exists (lit "RS"), (lit " "), (code "1"), (lit "23.45 spent at store").
    split; [reflexivity|]. split; [|split; [|reflexivity]].
    - left. change (Forall2 same_letter [82; 83]%N [82; 83]%N).
      constructor; [left; reflexivity|].
      constructor; [left; reflexivity|constructor].
    - right. exists (code " "). split; reflexivity. }
  assert (Hruns : digit_runs_at_most 308 (lit "RS 123.45 spent at store")).
  { intros pre ds post E _. apply (f_equal (@length char16)) in E.
    rewrite !length_app in E. vm_compute (length (lit _)) in E. lia. }
  destruct (Hsome Hocc) as [e He]. exists e.
  destruct (Hprop e He) as (Hn & Hs & Hf).
  split; [exact He|]. split; [exact Hn|]. split; [exact Hs|exact (Hf Hruns)].
Defined.

(** C1, refuted as stated: a token of 310 digits overflows the doubles, and
    the extractor returns an expense whose amount is [+Infinity]. *)
Lemma C1_counterexample :
  exists e,
    parseExpenseFromSms (lit "RS 1" ++ repeat (code "0") 309) 0 = Some e /\
    amount e = S754_infinity false /\
    isFinite (amount e) = false.
Proof.
  eexists. split; [vm_compute; reflexivity|]. split; reflexivity.
Qed.

(** C2. When the pattern matches, the description is the body with the
    first occurrence of the matched currency-and-amount text removed, cut
    to at most 50 code units, followed by the three-character ellipsis
    whether or not anything was cut; it ends with the ellipsis and is at
    most 53 long. *)
Theorem C2_description_shape (body : jsstring) (date : Z) (m : match_result) :
  string_match body amountRegex = Some m ->
  exists e,
    parseExpenseFromSms body date = Some e /\
    description e = firstn 50 (remove_first (matched m) body) ++ ellipsis /\
    ends_with_ellipsis (description e) /\
    (length (description e) <= 53)%nat.
Proof.
  intros H. destruct (parseExpenseFromSms_some body date m H)
    as (pre & mk & ws & tok & g2 & post & Hb & Hmk & Hws & Ht & Hl & Hm & He).
  eexists. split; [exact He|]. cbn [description].
  assert (Hrm : remove_first (matched m) body = pre ++ post).
  { subst m. cbn [matched]. rewrite Hb.
    replace (pre ++ mk ++ ws ++ tok ++ post)
      with (pre ++ (mk ++ ws ++ tok) ++ post)
      by (rewrite <- !app_assoc; reflexivity).
    apply remove_first_leftmost. intros j Hj.
    destruct (starts_with (mk ++ ws ++ tok) _) eqn:E; [|reflexivity].
    exfalso. apply starts_with_iff in E. destruct E as (x & Hx).
    apply (Hl j Hj). rewrite Hb.
    replace (pre ++ mk ++ ws ++ tok ++ post)
      with (pre ++ (mk ++ ws ++ tok) ++ post)
      by (rewrite <- !app_assoc; reflexivity).
    rewrite Hx.
    destruct (take_token_some _ _ _ _ Ht) as (_ & d & tok' & -> & Hd).
    exists mk, ws, d, (tok' ++ x). rewrite <- !app_assoc. simpl.
    repeat split; assumption. }
  rewrite Hrm. unfold slice0. split; [reflexivity|]. split.
  - exists (firstn 50 (pre ++ post)). reflexivity.
  - rewrite length_app, length_firstn.
    change (length ellipsis) with 3%nat. lia.
Qed.

Lemma C2_witness :
  let body :=
    lit "Your account is debited by Rs 499.00 at BigBasket on 12 March, balance is low" in
  string_match body amountRegex =
    Some (MatchResult 27 (lit "Rs 499.00") [Some (lit "499.00"); Some (lit ".00")]) /\
  (exists e,
      parseExpenseFromSms body 0 = Some e /\
      description e = firstn 50 (remove_first (lit "Rs 499.00") body) ++ ellipsis /\
      ends_with_ellipsis (description e) /\
      (length (description e) <= 53)%nat) /\
  parseExpenseFromSms body 0 =
    Some {| amount := Prim2SF 499%float;
            description := lit "Your account is debited by  at BigBasket on 12 Mar...";
            date := toLocaleDateString 0 |} /\
  parseExpenseFromSms (lit "RS 123.45 spent at store") 0 =
    Some {| amount := Prim2SF 123.45%float;
            description := lit " spent at store...";
            date := toLocaleDateString 0 |}.
Proof.
  cbv zeta.
  assert (H : string_match
    (lit "Your account is debited by Rs 499.00 at BigBasket on 12 March, balance is low")
    amountRegex =
    Some (MatchResult 27 (lit "Rs 499.00") [Some (lit "499.00"); Some (lit ".00")]))
    by (vm_compute; reflexivity).
  split; [exact H|]. split.
  - exact (C2_description_shape _ 0%Z _ H).
  - split; vm_compute; reflexivity.
Defined.

(** C3. A body with no currency marker followed by an optional whitespace
    and a digit yields [null], whatever the timestamp. *)
Theorem C3_no_marker_returns_null (body : jsstring) (date : Z) :
  ~ currency_amount_occurs body ->
  parseExpenseFromSms body date = None.
Proof.
  intros H. apply parseExpenseFromSms_none. apply exec_amountRegex_none, H.
Qed.

Lemma C3_witness :
  ~ currency_amount_occurs (lit "Your OTP is 482913. Do not share it.") /\
  parseExpenseFromSms (lit "Your OTP is 482913. Do not share it.") 1700000000000 = None.
Proof.
  assert (H : ~ currency_amount_occurs (lit "Your OTP is 482913. Do not share it.")).
  { apply exec_amountRegex_none. vm_compute. reflexivity. }
  split; [exact H|]. apply (C3_no_marker_returns_null _ _ H).
Defined.



(** C5. When the pattern matches, the amount is [parseFloat] of the text
    captured by group 1.  For [RS 123.45 spent at store] it is the double
    123.45; for [₹500 debited], whose token has no fraction, it is exactly
    500. *)
Theorem C5_amount_is_parsed_token :
  (forall body date m,
      string_match body amountRegex = Some m ->
      exists tok e,
        group m 1 = Some tok /\
        parseExpenseFromSms body date = Some e /\
        amount e = parseFloat tok) /\
  (exists e,
      string_match (lit "RS 123.45 spent at store") amountRegex =
        Some (MatchResult 0 (lit "RS 123.45") [Some (lit "123.45"); Some (lit ".45")]) /\
      parseExpenseFromSms (lit "RS 123.45 spent at store") 0 = Some e /\
      amount e = Prim2SF 123.45%float) /\
  (exists e,
      string_match (rupee :: lit "500 debited") amountRegex =
        Some (MatchResult 0 (rupee :: lit "500") [Some (lit "500"); None]) /\
      parseExpenseFromSms (rupee :: lit "500 debited") 0 = Some e /\
      amount e = Prim2SF 500%float /\
      amount e = S754_finite false (500 * 2 ^ 44) (-44)).
Proof.
  split; [|split].
  - intros body date m H.
    destruct (parseExpenseFromSms_some body date m H)
      as (pre & mk & ws & tok & g2 & post & Hb & Hmk & Hws & Ht & Hl & Hm & He).
    eexists tok, _. split; [subst m; reflexivity|]. split; [exact He|reflexivity].
  - eexists. repeat split; vm_compute; reflexivity.
  - eexists. repeat split; vm_compute; reflexivity.
Qed.

Lemma C5_witness :
  string_match (lit "Rs 250 paid to Amazon") amountRegex =
    Some (MatchResult 0 (lit "Rs 250") [Some (lit "250"); None]) /\
  exists tok e,
    group (MatchResult 0 (lit "Rs 250") [Some (lit "250"); None]) 1 = Some tok /\
    parseExpenseFromSms (lit "Rs 250 paid to Amazon") 0 = Some e /\
    amount e = parseFloat tok.
Proof.
  assert (H : string_match (lit "Rs 250 paid to Amazon") amountRegex =
    Some (MatchResult 0 (lit "Rs 250") [Some (lit "250"); None]))
    by (vm_compute; reflexivity).
  split; [exact H|].
  exact (proj1 C5_amount_is_parsed_token (lit "Rs 250 paid to Amazon") 0%Z _ H).
Defined.

(** C6. An amount written with three or more fraction digits is captured
    up to its second fraction digit, wherever in the body the matched
    amount stands: the token is the digits, the point and two digits, and
    the third fraction digit starts what is left after the match in the
    text the description is cut from.  For [INR 10.999] the token is
    [10.99], the amount is the double 10.99 and the description is
    [9...]; for [Paid INR 10.999] the description is [Paid 9...]. *)
Theorem C6_two_fraction_digits :
  (forall pre mk ws ds f1 f2 f3 post date,
      is_marker mk -> opt_space ws ->
      ds <> [] -> Forall (fun d => is_digit d = true) ds ->
      is_digit f1 = true -> is_digit f2 = true -> is_digit f3 = true ->
      (forall j, (j < length pre)%nat ->
                 ~ amount_starts
                     (skipn j (pre ++ mk ++ ws ++ ds ++
                               code "." :: f1 :: f2 :: f3 :: post))) ->
      string_match (pre ++ mk ++ ws ++ ds ++ code "." :: f1 :: f2 :: f3 :: post)
                   amountRegex =
        Some (MatchResult (length pre) (mk ++ ws ++ ds ++ [code "."; f1; f2])
                [Some (ds ++ [code "."; f1; f2]); Some [code "."; f1; f2]]) /\
      parseExpenseFromSms
        (pre ++ mk ++ ws ++ ds ++ code "." :: f1 :: f2 :: f3 :: post) date =
        Some {| amount := parseFloat (ds ++ [code "."; f1; f2]);
                description := firstn 50 (pre ++ f3 :: post) ++ ellipsis;
                date := toLocaleDateString date |}) /\
  string_match (lit "INR 10.999") amountRegex =
    Some (MatchResult 0 (lit "INR 10.99") [Some (lit "10.99"); Some (lit ".99")]) /\
  parseExpenseFromSms (lit "INR 10.999") 0 =
    Some {| amount := Prim2SF 10.99%float;
            description := lit "9...";
            date := toLocaleDateString 0 |} /\
  string_match (lit "Paid INR 10.999") amountRegex =
    Some (MatchResult 5 (lit "INR 10.99") [Some (lit "10.99"); Some (lit ".99")]) /\
  parseExpenseFromSms (lit "Paid INR 10.999") 0 =
    Some {| amount := Prim2SF 10.99%float;
            description := lit "Paid 9...";
            date := toLocaleDateString 0 |}.
Proof.
  split; [|repeat split; vm_compute; reflexivity].
  intros pre mk ws ds f1 f2 f3 post date Hmk Hws Hne Hds H1 H2 H3 Hpre.
  set (tok := ds ++ [code "."; f1; f2]).
  assert (Ha : amount_at (mk ++ ws ++ ds ++ code "." :: f1 :: f2 :: f3 :: post) =
               Some (tok, Some [code "."; f1; f2], f3 :: post)).
  { unfold amount_at. rewrite (strip_marker_app _ _ Hmk).
    pose proof (take_token_three_fraction_digits ds f1 f2 (f3 :: post) Hne Hds H1 H2)
      as Ht.
    destruct Hws as [-> | (w & -> & Hw)].
    - destruct ds as [|d ds']; [congruence|].
      cbn [app] in *. inversion Hds as [|x l Hd Hds']; subst.
      destruct (is_space d) eqn:Esp.
      + apply is_space_not_digit in Esp. congruence.
      + exact Ht.
    - cbn [app]. rewrite Hw, Ht. reflexivity. }
  destruct (parse_leftmost pre _ _ _ _ date Hpre Ha) as [Hm Hp].
  split; [|exact Hp]. rewrite Hm. f_equal. f_equal.
  replace (mk ++ ws ++ ds ++ code "." :: f1 :: f2 :: f3 :: post)
    with ((mk ++ ws ++ tok) ++ f3 :: post).
  - apply consumed_app.
  - unfold tok. rewrite <- !app_assoc. reflexivity.
Qed.

Lemma C6_witness :
  string_match (lit "Bill of Rs 99.12345 due") amountRegex =
    Some (MatchResult 8 (lit "Rs 99.12") [Some (lit "99.12"); Some (lit ".12")]) /\
  parseExpenseFromSms (lit "Bill of Rs 99.12345 due") 5 =
    Some {| amount := parseFloat (lit "99.12");
            description := firstn 50 (lit "Bill of 345 due") ++ ellipsis;
            date := toLocaleDateString 5 |} /\
  parseExpenseFromSms (lit "Bill of Rs 99.12345 due") 5 =
    Some {| amount := Prim2SF 99.12%float;
            description := lit "Bill of 345 due...";
            date := toLocaleDateString 5 |}.
Proof.
  split; [|split]; [| |vm_compute; reflexivity].
  - refine (proj1 (proj1 C6_two_fraction_digits (lit "Bill of ") (lit "Rs") (lit " ")
              (lit "99") (code "1") (code "2") (code "3") (lit "45 due") 5%Z
              _ _ _ _ _ _ _ _)).
    + left. change (Forall2 same_letter [82; 83]%N [82; 115]%N).
      constructor; [left; reflexivity|].
      constructor; [right; reflexivity|constructor].
    + right. exists (code " "). split; reflexivity.
    + discriminate.
    + change (Forall (fun d => is_digit d = true) [57; 57]%N).
      constructor; [reflexivity|]. constructor; [reflexivity|constructor].
    + reflexivity.
    + reflexivity.
    + reflexivity.
    + intros j Hj. apply match_here_none_iff.
      do 8 (destruct j as [|j]; [vm_compute; reflexivity|]).
      cbn [length lit] in Hj. vm_compute in Hj. lia.
  - refine (proj2 (proj1 C6_two_fraction_digits (lit "Bill of ") (lit "Rs") (lit " ")
              (lit "99") (code "1") (code "2") (code "3") (lit "45 due") 5%Z
              _ _ _ _ _ _ _ _)).
    + left. change (Forall2 same_letter [82; 83]%N [82; 115]%N).
      constructor; [left; reflexivity|].
      constructor; [right; reflexivity|constructor].
    + right. exists (code " "). split; reflexivity.
    + discriminate.
    + change (Forall (fun d => is_digit d = true) [57; 57]%N).
      constructor; [reflexivity|]. constructor; [reflexivity|constructor].
    + reflexivity.
    + reflexivity.
    + reflexivity.
    + intros j Hj. apply match_here_none_iff.
      do 8 (destruct j as [|j]; [vm_compute; reflexivity|]).
      cbn [length lit] in Hj. vm_compute in Hj. lia.
Defined.

(** C7. The pattern of the program and the pattern with the clean
    fractional rule do not give the same extractor: in [(:?\.\d{1,2})?] the
    colon is an optional literal, so on [RS 10:.99] the program matches and
    removes [RS 10:.99], while the clean rule matches and removes [RS 10]
    only.  The amounts agree and the descriptions differ. *)
Theorem C7_typo_changes_result :
  string_match (lit "RS 10:.99") amountRegex =
    Some (MatchResult 0 (lit "RS 10:.99") [Some (lit "10:.99"); Some (lit ":.99")]) /\
  string_match (lit "RS 10:.99") cleanRegex =
    Some (MatchResult 0 (lit "RS 10") [Some (lit "10")]) /\
  parseExpenseFromSms (lit "RS 10:.99") 0 =
    Some {| amount := Prim2SF 10%float;
            description := lit "...";
            date := toLocaleDateString 0 |} /\
  parseExpenseClean (lit "RS 10:.99") 0 =
    Some {| amount := Prim2SF 10%float;
            description := lit ":.99...";
            date := toLocaleDateString 0 |} /\
  parseExpenseFromSms (lit "RS 10:.99") 0 <> parseExpenseClean (lit "RS 10:.99") 0.
Proof.
  repeat split; try (vm_compute; reflexivity).
  vm_compute. discriminate.
Qed.

(** C8. The scan applies the extractor to every message on its own and
    keeps the results that are not [null], in the order of the input; the
    batch of three messages of the specification gives two expenses, the
    OTP message left out. *)
Theorem C8_scan_keeps_matches_in_order :
  newExpenses [] = [] /\
  (forall sms rest,
      newExpenses (sms :: rest) =
      match parseExpenseFromSms (sms_body sms) (sms_date sms) with
      | Some e => e :: newExpenses rest
      | None => newExpenses rest
      end) /\
  (forall l1 l2, newExpenses (l1 ++ l2) = newExpenses l1 ++ newExpenses l2) /\
  (forall l e, In e (newExpenses l) <->
               exists sms, In sms l /\
                           parseExpenseFromSms (sms_body sms) (sms_date sms) = Some e) /\
  (forall l, (length (newExpenses l) <= length l)%nat) /\
  newExpenses
    [ {| sms_body := lit "Rs 250 paid to Amazon"; sms_date := 1 |};
      {| sms_body := lit "Your OTP is 482913. Do not share it."; sms_date := 2 |};
      {| sms_body := lit "INR 1500.00 credited"; sms_date := 3 |} ] =
    [ {| amount := Prim2SF 250%float;
         description := lit " paid to Amazon...";
         date := toLocaleDateString 1 |};
      {| amount := Prim2SF 1500%float;
         description := lit " credited...";
         date := toLocaleDateString 3 |} ].
Proof.
  assert (Hcons : forall sms rest,
      newExpenses (sms :: rest) =
      match parseExpenseFromSms (sms_body sms) (sms_date sms) with
      | Some e => e :: newExpenses rest
      | None => newExpenses rest
      end).
  { intros sms rest. unfold newExpenses. simpl.
    destruct (parseExpenseFromSms _ _); reflexivity. }
  split; [reflexivity|]. split; [exact Hcons|]. split; [|split; [|split]].
  - induction l1 as [|sms l1 IH]; intros l2; [reflexivity|].
    simpl app. rewrite !Hcons, IH.
    destruct (parseExpenseFromSms _ _); reflexivity.
  - induction l as [|sms l IH]; intros e.
    + split; [intros H|intros (sms & H & _)]; simpl in H; contradiction.
    + rewrite Hcons. split.
      * destruct (parseExpenseFromSms (sms_body sms) (sms_date sms)) as [e0|] eqn:E.
        -- intros [->|Hin].
           ++ exists sms. split; [left; reflexivity|exact E].
           ++ apply IH in Hin. destruct Hin as (x & Hx & Ex).
              exists x. split; [right; exact Hx|exact Ex].
        -- intros Hin. apply IH in Hin. destruct Hin as (x & Hx & Ex).
           exists x. split; [right; exact Hx|exact Ex].
      * intros (x & [->|Hx] & Ex).
        -- rewrite Ex. apply in_eq.
        -- assert (Hin : In e (newExpenses l)) by (apply IH; exists x; auto).
           destruct (parseExpenseFromSms (sms_body sms) (sms_date sms));
             [apply in_cons|]; exact Hin.
  - induction l as [|sms l IH]; [simpl; lia|].
    rewrite Hcons. destruct (parseExpenseFromSms _ _); simpl; lia.
  - vm_compute. reflexivity.
Qed.

(** C9. The marker is not anchored at a word boundary: in
    [offers 50 off today] the letters [rs] that end the word [offers], the
    space and the digits [50] match, and the extractor returns an expense
    of amount 50. *)
Theorem C9_marker_inside_word :
  exists e,
    parseExpenseFromSms (lit "offers 50 off today") 0 = Some e /\
    amount e = Prim2SF 50%float /\
    description e = lit "offe off today...".
Proof.
  eexists. split; [vm_compute; reflexivity|]. split; vm_compute; reflexivity.
Qed.

(** C10. When every currency marker that is followed by whitespace and then
    a digit has two or more whitespace characters in between, the extractor
    returns [null]: the pattern allows at most one.  So it is for the body
    [RS  10], written with two spaces. *)
Theorem C10_two_spaces_no_match (body : jsstring) (date : Z) :
  (forall pre mk ws d post,
      body = pre ++ mk ++ ws ++ d :: post ->
      is_marker mk -> Forall (fun w => is_space w = true) ws -> is_digit d = true ->
      (2 <= length ws)%nat) ->
  parseExpenseFromSms body date = None.
Proof.
  intros H. apply parseExpenseFromSms_none, exec_amountRegex_none.
  apply wide_gaps_iff, H.
Qed.

Lemma C10_witness :
  (forall pre mk ws d post,
      lit "RS  10" = pre ++ mk ++ ws ++ d :: post ->
      is_marker mk -> Forall (fun w => is_space w = true) ws -> is_digit d = true ->
      (2 <= length ws)%nat) /\
  parseExpenseFromSms (lit "RS  10") 0 = None.
Proof.
  assert (H : forall pre mk ws d post,
      lit "RS  10" = pre ++ mk ++ ws ++ d :: post ->
      is_marker mk -> Forall (fun w => is_space w = true) ws -> is_digit d = true ->
      (2 <= length ws)%nat).
  { apply wide_gaps_iff, exec_amountRegex_none. vm_compute. reflexivity. }
  split; [exact H|]. apply (C10_two_spaces_no_match _ _ H).
Defined.

(* ================================================================= *)
(** ** The screen *)

Section ScreenFacts.

(** The loop of the success callback: it returns what [map] returns and
    logs one line for each expense found, in order. *)
Lemma mapM_found (l : list Sms) :
  forall s,
    mapM map_callback l s =
    (List.map (fun sms => parseExpenseFromSms (sms_body sms) (sms_date sms)) l,
     with_debug s (debug s ++ List.map FoundExpense (newExpenses l)),
     List.map ConsoleLog (List.map FoundExpense (newExpenses l))).
Proof.
  induction l as [|sms l IH]; intros s.
  - cbn. unfold with_debug. rewrite app_nil_r. destruct s; reflexivity.
  - change (mapM map_callback (sms :: l) s)
      with (bind (map_callback sms)
                 (fun b => bind (mapM map_callback l) (fun bs => ret (b :: bs))) s).
    unfold newExpenses. cbn [List.map filter_non_null].
    unfold bind at 1, map_callback.
    destruct (parseExpenseFromSms (sms_body sms) (sms_date sms)) as [e|].
    + cbn. unfold bind at 1. rewrite IH. cbn. unfold with_debug. cbn.
      rewrite <- app_assoc, app_nil_r. reflexivity.
    + cbn. unfold bind at 1. rewrite IH. cbn. rewrite app_nil_r. reflexivity.
Qed.

Lemma string_eqb_eq (a b : jsstring) : string_eqb a b = true <-> a = b.
Proof.
  revert b. induction a as [|x a IH]; intros [|y b]; simpl;
    try (split; [discriminate|discriminate]); [split; reflexivity|].
  rewrite andb_true_iff, N.eqb_eq, IH. split.
  - intros [-> ->]. reflexivity.
  - intros H; inversion H; auto.
Qed.

(** What [scanSmsForExpenses] does to the cells and asks of the platform. *)
Lemma scanSmsForExpenses_run (s : hooks) :
  scanSmsForExpenses s =
  (tt,
   {| expenses := []; loading := true; permissionGranted := permissionGranted s;
      debug := [StartingSmsScan scan_filter];
      deps := deps s; scheduled := scheduled s |},
   [ConsoleLog (StartingSmsScan scan_filter); SmsAndroidList scan_filter]).
Proof. reflexivity. Qed.

Lemma step_ButtonPressed (s : hooks) :
  step s ButtonPressed =
  if loading s then (s, [])
  else if permissionGranted s then
    ({| expenses := []; loading := true; permissionGranted := true;
        debug := [StartingSmsScan scan_filter];
        deps := deps s; scheduled := scheduled s |},
     [ConsoleLog (StartingSmsScan scan_filter); SmsAndroidList scan_filter])
  else (s, [PermissionsRequest]).
Proof. destruct s as [ex [|] [|] d dp sc]; reflexivity. Qed.

Lemma step_PermissionAnswered_granted (s : hooks) :
  step s (PermissionAnswered (Resolved GRANTED)) =
  ({| expenses := expenses s; loading := loading s; permissionGranted := true;
      debug := debug s ++ [SmsPermissionGranted];
      deps := deps s; scheduled := scheduled s |},
   [ConsoleLog SmsPermissionGranted]).
Proof. reflexivity. Qed.

Lemma step_PermissionAnswered_refused (s : hooks) (g : jsstring) :
  g <> GRANTED ->
  step s (PermissionAnswered (Resolved g)) =
  ({| expenses := expenses s; loading := loading s; permissionGranted := false;
      debug := debug s ++ [SmsPermissionDenied];
      deps := deps s; scheduled := scheduled s |},
   [ConsoleLog SmsPermissionDenied;
    AlertAlert (lit "Permission Denied")
               (lit "The app cannot function without SMS access.")]).
Proof.
  intros Hg. unfold step, on_event, permission_answered.
  destruct (string_eqb g GRANTED) eqn:E.
  - apply string_eqb_eq in E. contradiction.
  - reflexivity.
Qed.

Lemma step_PermissionAnswered_rejected (s : hooks) (err : jsstring) :
  step s (PermissionAnswered (Rejected err)) =
  (with_debug s (debug s ++ [ErrorRequestingPermission err]),
   [ConsoleLog (ErrorRequestingPermission err);
    AlertAlert (lit "Error") (lit "Failed to request SMS permission.")]).
Proof. reflexivity. Qed.

Lemma step_ListFailed (s : hooks) (fail : jsstring) :
  step s (ListFailed fail) =
  ({| expenses := expenses s; loading := false;
      permissionGranted := permissionGranted s;
      debug := debug s ++ [FailedToLoadSms fail];
      deps := deps s; scheduled := scheduled s |},
   [ConsoleLog (FailedToLoadSms fail);
    AlertAlert (lit "Error") (lit "Failed to load SMS messages: " ++ fail)]).
Proof. reflexivity. Qed.

Lemma step_ListSucceeded_not_json (s : hooks) (count : Z) (error : jsstring) :
  step s (ListSucceeded count (NotJson error)) = read_thrown s count [] error.
Proof. unfold read_thrown. cbn. rewrite <- app_assoc. reflexivity. Qed.

Lemma step_ListSucceeded_null (s : hooks) (count : Z) (error : jsstring) :
  step s (ListSucceeded count (JsonNull error)) = read_thrown s count [] error.
Proof. unfold read_thrown. cbn. rewrite <- app_assoc. reflexivity. Qed.

Lemma step_ListSucceeded_no_array (s : hooks) (count : Z) (len error : jsstring) :
  step s (ListSucceeded count (JsonNoArray len error)) =
  read_thrown s count [SuccessfullyParsed (OtherLength len)] error.
Proof. unfold read_thrown. cbn. rewrite <- !app_assoc. reflexivity. Qed.

Lemma step_ListSucceeded_no_body (s : hooks) (count : Z) (before : list Sms)
      (after : nat) (error : jsstring) :
  step s (ListSucceeded count (JsonArrayNoBody before after error)) =
  read_thrown s count
    (SuccessfullyParsed (ArrayLength (length before + 1 + after)) ::
     List.map FoundExpense (newExpenses before)) error.
Proof.
  unfold step, on_event, list_succeeded, read_thrown.
  unfold bind at 1. cbn [log call setDebug bind ret app].
  unfold bind at 1. unfold bind at 1. cbn [log call setDebug bind ret app].
  unfold bind at 1. rewrite mapM_found.
  cbn. rewrite !List.map_app, <- !app_assoc. cbn. rewrite ?app_nil_r.
  reflexivity.
Qed.

(** The lines a successful read with [count] and the parsed list [l] logs. *)
Lemma step_ListSucceeded_json (s : hooks) (count : Z) (l : list Sms) :
  step s (ListSucceeded count (JsonArray l)) =
  ({| expenses := newExpenses l; loading := false;
      permissionGranted := permissionGranted s;
      debug := debug s ++
               [ReceivedMessages count; SuccessfullyParsed (ArrayLength (length l))] ++
               List.map FoundExpense (newExpenses l) ++
               [DetectedExpenses (length (newExpenses l))];
      deps := deps s; scheduled := scheduled s |},
   List.map ConsoleLog
     ([ReceivedMessages count; SuccessfullyParsed (ArrayLength (length l))] ++
      List.map FoundExpense (newExpenses l) ++
      [DetectedExpenses (length (newExpenses l))])).
Proof.
  unfold step, on_event, list_succeeded.
  unfold bind at 1. cbn [log call setDebug bind ret app].
  unfold bind at 1. unfold bind at 1. cbn [log call setDebug bind ret app].
  unfold bind at 1. rewrite mapM_found.
  cbn. rewrite !List.map_app, <- !app_assoc. cbn. rewrite ?app_nil_r.
  reflexivity.
Qed.

(** The scheduled effect: a scan when the render that left it saw the
    permission granted. *)
Lemma step_EffectRan (s : hooks) :
  step s EffectRan =
  match scheduled s with
  | Some true =>
    ({| expenses := []; loading := true; permissionGranted := permissionGranted s;
        debug := [StartingSmsScan scan_filter];
        deps := deps s; scheduled := None |},
     [ConsoleLog (StartingSmsScan scan_filter); SmsAndroidList scan_filter])
  | Some false =>
    ({| expenses := expenses s; loading := loading s;
        permissionGranted := permissionGranted s; debug := debug s;
        deps := deps s; scheduled := None |}, [])
  | None => (s, [])
  end.
Proof. destruct s as [ex l p d dp [[|]|]]; reflexivity. Qed.

(** A render: the effect left before it runs, and its own effect is
    scheduled when the permission is not the one of the render before. *)
Lemma step_Rendered (s : hooks) :
  step s Rendered =
  (let s1 := fst (step s EffectRan) in
   if Bool.eqb (deps s) (permissionGranted s) then s1
   else {| expenses := expenses s1; loading := loading s1;
           permissionGranted := permissionGranted s; debug := debug s1;
           deps := permissionGranted s;
           scheduled := Some (permissionGranted s) |},
   snd (step s EffectRan)).
Proof. destruct s as [ex l [|] d [|] [[|]|]]; reflexivity. Qed.

Lemma run_cons (s : hooks) (ev : event) (evs : list event) :
  run s (ev :: evs) =
  (fst (run (fst (step s ev)) evs), snd (step s ev) ++ snd (run (fst (step s ev)) evs)).
Proof.
  cbn [run]. destruct (step s ev) as [s1 out1]. cbn [fst snd].
  destruct (run s1 evs) as [s2 out2]. reflexivity.
Qed.

Lemma run_snoc (evs : list event) :
  forall s ev,
    fst (run s (evs ++ [ev])) = fst (step (fst (run s evs)) ev).
Proof.
  induction evs as [|e evs IH]; intros s ev.
  - cbn [app]. rewrite run_cons. reflexivity.
  - cbn [app]. rewrite !run_cons. cbn [fst]. apply IH.
Qed.

Lemma last_resolution_snoc (evs : list event) (ev : event) :
  last_resolution (evs ++ [ev]) =
  match ev with
  | PermissionAnswered (Resolved g) => Some g
  | _ => last_resolution evs
  end.
Proof.
  induction evs as [|e evs IH]; cbn [app last_resolution].
  - destruct ev as [|[g|err]| | | |]; reflexivity.
  - rewrite IH. destruct ev as [|[g|err]| | | |]; reflexivity.
Qed.

End ScreenFacts.

(** One case for each kind of event, with the equation of its step put
    in; the answer of a permission request is left to [granted_or_not]. *)
Ltac step_cases s ev :=
  destruct ev as [|[?g|?err]|?fail|?count [?l|?before ?after ?error|?len ?error|?error|?error]| |];
  [ rewrite (step_ButtonPressed s)
  | idtac
  | rewrite (step_PermissionAnswered_rejected s)
  | rewrite (step_ListFailed s)
  | rewrite (step_ListSucceeded_json s)
  | rewrite (step_ListSucceeded_no_body s); unfold read_thrown
  | rewrite (step_ListSucceeded_no_array s); unfold read_thrown
  | rewrite (step_ListSucceeded_null s); unfold read_thrown
  | rewrite (step_ListSucceeded_not_json s); unfold read_thrown
  | rewrite (step_Rendered s), (step_EffectRan s)
  | rewrite (step_EffectRan s) ].

Section ScreenCells.

Lemma granted_or_not (s : hooks) (g : jsstring) :
  (g = GRANTED /\ string_eqb g GRANTED = true /\
   step s (PermissionAnswered (Resolved g)) =
   ({| expenses := expenses s; loading := loading s; permissionGranted := true;
       debug := debug s ++ [SmsPermissionGranted];
       deps := deps s; scheduled := scheduled s |},
    [ConsoleLog SmsPermissionGranted])) \/
  (g <> GRANTED /\ string_eqb g GRANTED = false /\
   step s (PermissionAnswered (Resolved g)) =
   ({| expenses := expenses s; loading := loading s; permissionGranted := false;
       debug := debug s ++ [SmsPermissionDenied];
       deps := deps s; scheduled := scheduled s |},
    [ConsoleLog SmsPermissionDenied;
     AlertAlert (lit "Permission Denied")
                (lit "The app cannot function without SMS access.")])).
Proof.
  destruct (string_eqb g GRANTED) eqn:E.
  - left. apply string_eqb_eq in E. subst g.
    split; [reflexivity|]. split; [reflexivity|].
    apply step_PermissionAnswered_granted.
  - right. assert (Hg : g <> GRANTED).
    { intros ->. vm_compute in E. discriminate. }
    split; [exact Hg|]. split; [reflexivity|].
    apply step_PermissionAnswered_refused, Hg.
Qed.

Lemma step_permissionGranted (s : hooks) (ev : event) :
  permissionGranted (fst (step s ev)) =
  match ev with
  | PermissionAnswered (Resolved g) => string_eqb g GRANTED
  | _ => permissionGranted s
  end.
Proof.
  step_cases s ev; try reflexivity.
  - destruct (loading s); [reflexivity|].
    destruct (permissionGranted s) eqn:E; [reflexivity|exact E].
  - destruct (granted_or_not s g) as [(_ & -> & ->)|(_ & -> & ->)]; reflexivity.
  - destruct (scheduled s) as [[|]|], (Bool.eqb (deps s) (permissionGranted s));
      reflexivity.
  - destruct (scheduled s) as [[|]|]; reflexivity.
Qed.

Lemma run_permissionGranted (evs : list event) :
  forall s,
    permissionGranted (fst (run s evs)) =
    match last_resolution evs with
    | Some g => string_eqb g GRANTED
    | None => permissionGranted s
    end.
Proof.
  induction evs as [|ev evs IH]; intros s; [reflexivity|].
  rewrite run_cons. cbn [fst last_resolution]. rewrite IH.
  destruct (last_resolution evs) as [g|]; [reflexivity|].
  rewrite step_permissionGranted.
  destruct ev as [|[g|err]| | | |]; reflexivity.
Qed.

(** While [loading] holds the list is empty: one step keeps it so. *)
Lemma step_loading_empty (s : hooks) (ev : event) :
  (loading s = true -> expenses s = []) ->
  loading (fst (step s ev)) = true -> expenses (fst (step s ev)) = [].
Proof.
  intros Hs. step_cases s ev; try (cbn; discriminate); try exact Hs.
  - destruct (loading s) eqn:El.
    + intros _. apply Hs. reflexivity.
    + destruct (permissionGranted s); cbn; [reflexivity|congruence].
  - destruct (granted_or_not s g) as [(_ & _ & ->)|(_ & _ & ->)]; exact Hs.
  - destruct (scheduled s) as [[|]|], (Bool.eqb (deps s) (permissionGranted s));
      cbn; auto.
  - destruct (scheduled s) as [[|]|]; cbn; auto.
Qed.

Lemma run_loading_empty (evs : list event) :
  forall s,
    (loading s = true -> expenses s = []) ->
    loading (fst (run s evs)) = true -> expenses (fst (run s evs)) = [].
Proof.
  induction evs as [|ev evs IH]; intros s Hs; [exact Hs|].
  rewrite run_cons. cbn [fst]. apply IH. apply step_loading_empty, Hs.
Qed.

Lemma last_resolution_In (evs : list event) (g : jsstring) :
  last_resolution evs = Some g -> In (PermissionAnswered (Resolved g)) evs.
Proof.
  induction evs as [|ev evs IH]; cbn [last_resolution]; [discriminate|].
  destruct (last_resolution evs) as [g'|].
  - intros H. apply in_cons, IH, H.
  - destruct ev as [|[g'|err]| | | |]; try discriminate.
    intros H; injection H as ->. apply in_eq.
Qed.

(** The permission cell is true only after an answer ['granted']. *)
Lemma run_granted_In (evs : list event) :
  permissionGranted (fst (run mounted evs)) = true ->
  In (PermissionAnswered (Resolved GRANTED)) evs.
Proof.
  rewrite run_permissionGranted.
  destruct (last_resolution evs) as [g|] eqn:E; [|discriminate].
  intros H. apply string_eqb_eq in H. subst g. apply last_resolution_In, E.
Qed.

(** A scan is left to run only by a render that saw the permission
    granted. *)
Lemma step_scheduled (s : hooks) (ev : event) :
  scheduled (fst (step s ev)) = Some true ->
  scheduled s = Some true \/ permissionGranted s = true.
Proof.
  step_cases s ev; try (cbn; auto; fail).
  - destruct (loading s); [auto|]. destruct (permissionGranted s); cbn; auto.
  - destruct (granted_or_not s g) as [(_ & _ & ->)|(_ & _ & ->)]; cbn; auto.
  - destruct (scheduled s) as [[|]|] eqn:Es,
             (Bool.eqb (deps s) (permissionGranted s));
      cbn; intros H;
      first [discriminate | left; congruence | injection H as H; right; exact H].
  - destruct (scheduled s) as [[|]|] eqn:Es; cbn; intros H;
      first [discriminate | left; congruence].
Qed.

Lemma run_scheduled_In (evs : list event) :
  scheduled (fst (run mounted evs)) = Some true ->
  In (PermissionAnswered (Resolved GRANTED)) evs.
Proof.
  induction evs as [|ev evs IH] using rev_ind; [discriminate|].
  rewrite run_snoc. intros H. apply in_or_app. left.
  destruct (step_scheduled _ _ H) as [Hs|Hp].
  - apply IH, Hs.
  - apply run_granted_In, Hp.
Qed.

(** Where [SmsAndroid.list] is called from: the button under a granted
    permission, or the effect of a render that saw it granted. *)
Lemma step_list_call (s : hooks) (ev : event) (f : sms_filter) :
  In (SmsAndroidList f) (snd (step s ev)) ->
  f = scan_filter /\ (permissionGranted s = true \/ scheduled s = Some true).
Proof.
  assert (Hlogs : forall (l : list message) (tl : list command),
             (forall c, In c tl -> c <> SmsAndroidList f) ->
             ~ In (SmsAndroidList f) (List.map ConsoleLog l ++ tl)).
  { intros l tl Htl Hin. apply in_app_or in Hin. destruct Hin as [Hin|Hin].
    - apply in_map_iff in Hin. destruct Hin as (m & Hm & _). discriminate.
    - apply (Htl _ Hin). reflexivity. }
  assert (Hscan : In (SmsAndroidList f)
             [ConsoleLog (StartingSmsScan scan_filter); SmsAndroidList scan_filter] ->
           f = scan_filter).
  { intros [H|[H|[]]]; [discriminate|]. injection H as <-. reflexivity. }
  assert (Halert : forall t x c, In c [AlertAlert t x] -> c <> SmsAndroidList f).
  { intros t x c [<-|[]]. discriminate. }
  step_cases s ev; cbn [snd].
  - destruct (loading s); [intros []|].
    destruct (permissionGranted s) eqn:Ep.
    + intros H. split; [apply Hscan, H|left; reflexivity].
    + intros [H|[]]. discriminate.
  - destruct (granted_or_not s g) as [(_ & _ & ->)|(_ & _ & ->)]; cbn [snd].
    + intros [H|[]]. discriminate.
    + intros [H|[H|[]]]; discriminate.
  - intros [H|[H|[]]]; discriminate.
  - intros [H|[H|[]]]; discriminate.
  - intros H. exfalso. rewrite <- (app_nil_r (List.map ConsoleLog _)) in H.
    revert H. apply Hlogs. intros c [].
  - intros H. exfalso. revert H. apply Hlogs, Halert.
  - intros H. exfalso. revert H. apply Hlogs, Halert.
  - intros H. exfalso. revert H. apply Hlogs, Halert.
  - intros H. exfalso. revert H. apply Hlogs, Halert.
  - destruct (scheduled s) as [[|]|]; cbn [snd]; try (intros []; fail).
    intros H. split; [apply Hscan, H|right; reflexivity].
  - destruct (scheduled s) as [[|]|]; cbn [snd]; try (intros []; fail).
    intros H. split; [apply Hscan, H|right; reflexivity].
Qed.

End ScreenCells.

(* ================================================================= *)
(** ** Further properties of the screen *)

(** X1. After any run of events from the mounted screen, the cell
    [permissionGranted] tells whether the latest permission request that
    resolved was answered ['granted']; it is false when none resolved. *)
Theorem X1_permission_flag_is_last_answer (evs : list event) :
  permissionGranted (fst (run mounted evs)) =
  match last_resolution evs with
  | Some g => string_eqb g GRANTED
  | None => false
  end.
Proof. apply run_permissionGranted. Qed.

(** X2. The inbox is read only after a grant: whenever an event of a run
    from the mounted screen makes the screen call [SmsAndroid.list], the
    filter is inbox, from 0, at most 100, and a permission request of the
    run has been answered ['granted'] before.  The grant need not be the
    latest answer: the effect a render has scheduled under a grant still
    runs after a later request was answered ['denied'], and reads the
    inbox while [permissionGranted] is false. *)
Theorem X2_inbox_read_needs_a_grant :
  (forall evs ev f,
      In (SmsAndroidList f) (snd (step (fst (run mounted evs)) ev)) ->
      f = scan_filter /\ In (PermissionAnswered (Resolved GRANTED)) evs) /\
  (let evs := [ButtonPressed; ButtonPressed;
               PermissionAnswered (Resolved GRANTED); Rendered;
               PermissionAnswered (Resolved (lit "denied"))] in
   permissionGranted (fst (run mounted evs)) = false /\
   last_resolution evs = Some (lit "denied") /\
   In (SmsAndroidList scan_filter) (snd (step (fst (run mounted evs)) EffectRan)) /\
   console_lines (snd (run mounted (evs ++ [EffectRan]))) =
     [SmsPermissionGranted; SmsPermissionDenied; StartingSmsScan scan_filter] /\
   debug (fst (run mounted (evs ++ [EffectRan]))) = [StartingSmsScan scan_filter]).
Proof.
  split.
  - intros evs ev f Hin.
    destruct (step_list_call _ _ _ Hin) as [Hf [Hp|Hs]].
    + split; [exact Hf|]. apply run_granted_In, Hp.
    + split; [exact Hf|]. apply run_scheduled_In, Hs.
  - cbv zeta. repeat split; try (vm_compute; reflexivity).
    vm_compute. right; left; reflexivity.
Qed.

Lemma X2_witness :
  In (SmsAndroidList scan_filter)
     (snd (step (fst (run mounted [ButtonPressed;
                                   PermissionAnswered (Resolved GRANTED);
                                   Rendered]))
                EffectRan)) /\
  scan_filter = scan_filter /\
  In (PermissionAnswered (Resolved GRANTED))
     [ButtonPressed; PermissionAnswered (Resolved GRANTED); Rendered].
Proof.
  assert (H : In (SmsAndroidList scan_filter)
     (snd (step (fst (run mounted [ButtonPressed;
                                   PermissionAnswered (Resolved GRANTED);
                                   Rendered]))
                EffectRan)))
    by (vm_compute; right; left; reflexivity).
  split; [exact H|].
  exact (proj1 X2_inbox_read_needs_a_grant _ _ _ H).
Defined.

(** X3. Whenever the screen is loading, after any run of events from the
    mounted screen, the list of expenses is empty: the button is disabled
    and reads [Scanning...], and in place of the list stands
    [Scanning for expenses...]. *)
Theorem X3_loading_shows_no_list (evs : list event) :
  loading (fst (run mounted evs)) = true ->
  expenses (fst (run mounted evs)) = [] /\
  render (fst (run mounted evs)) =
  {| button_title := lit "Scanning...";
     button_disabled := true;
     below := Notice (lit "Scanning for expenses...") |}.
Proof.
  intros Hl.
  assert (He : expenses (fst (run mounted evs)) = []).
  { apply run_loading_empty; [|exact Hl]. cbn. discriminate. }
  split; [exact He|]. unfold render. rewrite Hl, He. reflexivity.
Qed.

Lemma X3_witness :
  loading (fst (run mounted [ButtonPressed; PermissionAnswered (Resolved GRANTED);
                             Rendered; EffectRan]))
    = true /\
  expenses (fst (run mounted [ButtonPressed; PermissionAnswered (Resolved GRANTED);
                              Rendered; EffectRan]))
    = [] /\
  render (fst (run mounted [ButtonPressed; PermissionAnswered (Resolved GRANTED);
                            Rendered; EffectRan])) =
  {| button_title := lit "Scanning...";
     button_disabled := true;
     below := Notice (lit "Scanning for expenses...") |}.
Proof.
  assert (H : loading (fst (run mounted
                 [ButtonPressed; PermissionAnswered (Resolved GRANTED);
                  Rendered; EffectRan])) = true)
    by (vm_compute; reflexivity).
  split; [exact H|].
  exact (X3_loading_shows_no_list _ H).
Defined.





(* ================================================================= *)
(** ** The case of letters *)

Section LetterCase.

Lemma same_case_canonicalize (a b : char16) :
  same_up_to_case a b -> canonicalize a = canonicalize b.
Proof.
  unfold same_up_to_case, canonicalize. intros H.
  destruct (N.leb_spec 97 a), (N.leb_spec a 122),
           (N.leb_spec 97 b), (N.leb_spec b 122); simpl; lia.
Qed.

Lemma same_case_ci (ch a b : char16) : same_up_to_case a b -> ci ch a = ci ch b.
Proof. intros H. unfold ci. rewrite (same_case_canonicalize a b H). reflexivity. Qed.

Lemma same_case_digit (a b : char16) : same_up_to_case a b -> is_digit a = is_digit b.
Proof.
  unfold same_up_to_case, is_digit. intros H.
  destruct (N.leb_spec 48 a), (N.leb_spec a 57),
           (N.leb_spec 48 b), (N.leb_spec b 57); simpl; try reflexivity; lia.
Qed.

Lemma same_case_digit_eq (a b : char16) :
  same_up_to_case a b -> is_digit a = true -> a = b.
Proof.
  unfold same_up_to_case, is_digit. intros H Hd.
  apply andb_prop in Hd. destruct Hd as [H1 H2]. apply N.leb_le in H1, H2. lia.
Qed.

Lemma same_case_below_letters (ch a b : char16) :
  (ch < 65)%N -> same_up_to_case a b -> ci ch a = true -> a = b.
Proof.
  intros Hch H Hci. apply ci_exact in Hci; [|exact Hch]. subst a.
  unfold same_up_to_case in H. lia.
Qed.

Lemma letter_not_space (a : char16) : (65 <= a <= 122)%N -> is_space a = false.
Proof.
  intros Ha. destruct (is_space a) eqn:E; [|reflexivity]. exfalso.
  unfold is_space in E.
  repeat (apply orb_prop in E; destruct E as [E|E]);
    try (apply andb_prop in E; destruct E as [E1 E2];
         apply N.leb_le in E1, E2; lia);
    apply N.eqb_eq in E; lia.
Qed.

Lemma same_case_space (a b : char16) : same_up_to_case a b -> is_space a = is_space b.
Proof.
  intros [->|[[Ha ->]|[Hb ->]]]; [reflexivity| |];
    rewrite !letter_not_space by lia; reflexivity.
Qed.

Lemma same_case_refl (s : jsstring) : Forall2 same_up_to_case s s.
Proof. induction s; constructor; [left; reflexivity|assumption]. Qed.

(** The marker is stripped from both texts or from neither. *)
Lemma strip_marker_same_case (s s' : jsstring) :
  Forall2 same_up_to_case s s' ->
  match strip_marker s, strip_marker s' with
  | Some t, Some t' => Forall2 same_up_to_case t t'
  | None, None => True
  | _, _ => False
  end.
Proof.
  intros H. unfold strip_marker.
  destruct H as [|a a' s s' Ha H]; [exact I|].
  rewrite (same_case_ci rupee a a' Ha), (same_case_ci (code "R") a a' Ha),
          (same_case_ci (code "I") a a' Ha).
  destruct H as [|b b' t t' Hb H].
  - destruct (ci rupee a'); [constructor|exact I].
  - rewrite (same_case_ci (code "S") b b' Hb), (same_case_ci (code "N") b b' Hb).
    destruct (ci (code "R") a' && ci (code "S") b'); [exact H|].
    destruct H as [|d d' u u' Hd H].
    + destruct (ci rupee a'); [|exact I].
      constructor; [exact Hb|constructor].
    + rewrite (same_case_ci (code "R") d d' Hd).
      destruct (ci (code "I") a' && ci (code "N") b' && ci (code "R") d'); [exact H|].
      destruct (ci rupee a'); [|exact I].
      constructor; [exact Hb|]. constructor; assumption.
Qed.

Lemma span_digits_same_case (s s' : jsstring) :
  Forall2 same_up_to_case s s' ->
  fst (span_digits s) = fst (span_digits s') /\
  Forall2 same_up_to_case (snd (span_digits s)) (snd (span_digits s')).
Proof.
  induction 1 as [|a a' s s' Ha H IH]; cbn [span_digits].
  - split; [reflexivity|constructor].
  - rewrite <- (same_case_digit a a' Ha).
    destruct (is_digit a) eqn:Ed.
    + rewrite <- (same_case_digit_eq a a' Ha Ed).
      destruct (span_digits s) as [ds r], (span_digits s') as [ds' r'].
      cbn [fst snd] in *. destruct IH as [-> IH]. split; [reflexivity|exact IH].
    + cbn [fst snd]. split; [reflexivity|]. constructor; assumption.
Qed.

(** A fraction is read from both texts or from neither; it is the same
    text, and what follows differs in case only. *)
Lemma take_frac_same_case (s s' : jsstring) :
  Forall2 same_up_to_case s s' ->
  match take_frac s, take_frac s' with
  | Some (fr, r), Some (fr', r') => fr = fr' /\ Forall2 same_up_to_case r r'
  | None, None => True
  | _, _ => False
  end.
Proof.
  assert (H12 : forall t t', Forall2 same_up_to_case t t' ->
            match digits12 t, digits12 t' with
            | Some (fd, r), Some (fd', r') => fd = fd' /\ Forall2 same_up_to_case r r'
            | None, None => True
            | _, _ => False
            end).
  { intros t t' H. unfold digits12.
    destruct H as [|a a' t t' Ha H]; [exact I|].
    rewrite <- (same_case_digit a a' Ha).
    destruct (is_digit a) eqn:Ea; [|exact I].
    rewrite <- (same_case_digit_eq a a' Ha Ea).
    destruct H as [|b b' u u' Hb H]; [split; [reflexivity|constructor]|].
    rewrite <- (same_case_digit b b' Hb).
    destruct (is_digit b) eqn:Eb.
    - rewrite <- (same_case_digit_eq b b' Hb Eb). split; [reflexivity|exact H].
    - split; [reflexivity|]. constructor; assumption. }
  assert (Hdot : forall t t', Forall2 same_up_to_case t t' ->
            match dot_digits t, dot_digits t' with
            | Some (fr, r), Some (fr', r') => fr = fr' /\ Forall2 same_up_to_case r r'
            | None, None => True
            | _, _ => False
            end).
  { intros t t' H. unfold dot_digits.
    destruct H as [|a a' t t' Ha H]; [exact I|].
    rewrite <- (same_case_ci (code ".") a a' Ha).
    destruct (ci (code ".") a) eqn:Ea; [|exact I].
    rewrite <- (same_case_below_letters (code ".") a a' eq_refl Ha Ea).
    specialize (H12 t t' H).
    destruct (digits12 t) as [[fd r]|], (digits12 t') as [[fd' r']|];
      try contradiction; [|exact I].
    destruct H12 as [-> Hr]. split; [reflexivity|exact Hr]. }
  intros H. unfold take_frac.
  pose proof (Hdot s s' H) as Hs.
  destruct H as [|a a' t t' Ha H]; [exact I|].
  rewrite <- (same_case_ci (code ":") a a' Ha).
  destruct (ci (code ":") a) eqn:Ea; [|exact Hs].
  rewrite <- (same_case_below_letters (code ":") a a' eq_refl Ha Ea).
  specialize (Hdot t t' H).
  destruct (dot_digits t) as [[fr r]|], (dot_digits t') as [[fr' r']|];
    try contradiction; [|exact I].
  destruct Hdot as [-> Hr]. split; [reflexivity|exact Hr].
Qed.

Lemma take_token_same_case (s s' : jsstring) :
  Forall2 same_up_to_case s s' ->
  match take_token s, take_token s' with
  | Some (tok, _, r), Some (tok', _, r') => tok = tok' /\ Forall2 same_up_to_case r r'
  | None, None => True
  | _, _ => False
  end.
Proof.
  intros H. unfold take_token.
  destruct (span_digits_same_case s s' H) as [Hd Hr].
  destruct (span_digits s) as [ds r], (span_digits s') as [ds' r'].
  cbn [fst snd] in *. subst ds'.
  destruct ds as [|d ds]; [exact I|].
  pose proof (take_frac_same_case r r' Hr) as Hf.
  destruct (take_frac r) as [[fr r1]|], (take_frac r') as [[fr' r1']|];
    try contradiction.
  - destruct Hf as [-> Hf]. split; [reflexivity|exact Hf].
  - split; [reflexivity|exact Hr].
Qed.

Lemma amount_at_same_case (s s' : jsstring) :
  Forall2 same_up_to_case s s' ->
  match amount_at s, amount_at s' with
  | Some (tok, _, r), Some (tok', _, r') => tok = tok' /\ Forall2 same_up_to_case r r'
  | None, None => True
  | _, _ => False
  end.
Proof.
  intros H. unfold amount_at.
  pose proof (strip_marker_same_case s s' H) as Hm.
  destruct (strip_marker s) as [s1|], (strip_marker s') as [s1'|];
    try contradiction; [|exact I].
  pose proof (take_token_same_case s1 s1' Hm) as H1.
  destruct Hm as [|a a' s2 s2' Ha Hm]; [exact I|].
  rewrite <- (same_case_space a a' Ha).
  destruct (is_space a); [|exact H1].
  pose proof (take_token_same_case s2 s2' Hm) as H2.
  destruct (take_token s2) as [[[tok g2] r]|], (take_token s2') as [[[tok' g2'] r']|];
    try contradiction; [exact H2|exact H1].
Qed.

Lemma consumed_length (s r : jsstring) : length (consumed s r) = (length s - length r)%nat.
Proof. unfold consumed. rewrite length_firstn. lia. Qed.

(** The leftmost match stands at the same place in both texts, is as long
    and captures the same token. *)
Lemma exec_from_same_case (s s' : jsstring) :
  Forall2 same_up_to_case s s' ->
  forall i,
    match exec_from amountRegex s i, exec_from amountRegex s' i with
    | Some m, Some m' =>
      index m = index m' /\ length (matched m) = length (matched m') /\
      group m 1 = group m' 1
    | None, None => True
    | _, _ => False
    end.
Proof.
  assert (Hhere : forall t t' i, Forall2 same_up_to_case t t' ->
    match match_here amountRegex t, match_here amountRegex t' with
    | Some y, Some y' =>
      index (MatchResult i (consumed t (rest y)) (caps y)) =
      index (MatchResult i (consumed t' (rest y')) (caps y')) /\
      length (matched (MatchResult i (consumed t (rest y)) (caps y))) =
      length (matched (MatchResult i (consumed t' (rest y')) (caps y'))) /\
      group (MatchResult i (consumed t (rest y)) (caps y)) 1 =
      group (MatchResult i (consumed t' (rest y')) (caps y')) 1
    | None, None => True
    | _, _ => False
    end).
  { intros t t' i Ht. rewrite !match_here_amountRegex.
    pose proof (amount_at_same_case t t' Ht) as Ha.
    destruct (amount_at t) as [[[tok g2] r]|], (amount_at t') as [[[tok' g2'] r']|];
      try contradiction; [|exact I].
    destruct Ha as [-> Hr]. cbn [index matched groups rest caps group nth_error pred].
    rewrite !consumed_length.
    rewrite (Forall2_length Ht), (Forall2_length Hr). repeat split. }
  induction 1 as [|a a' s s' Ha H IH]; intros i.
  - cbn [exec_from]. specialize (Hhere [] [] i (Forall2_nil _)).
    destruct (match_here amountRegex []); [exact Hhere|exact I].
  - cbn [exec_from].
    specialize (Hhere (a :: s) (a' :: s') i (Forall2_cons _ _ Ha H)).
    destruct (match_here amountRegex (a :: s)), (match_here amountRegex (a' :: s'));
      try contradiction; [exact Hhere|apply IH].
Qed.

Lemma same_case_firstn (n : nat) (s s' : jsstring) :
  Forall2 same_up_to_case s s' ->
  Forall2 same_up_to_case (firstn n s) (firstn n s').
Proof.
  intros H. revert n. induction H as [|a a' s s' Ha H IH]; intros [|n]; cbn;
    constructor; auto.
Qed.

Lemma same_case_skipn (n : nat) (s s' : jsstring) :
  Forall2 same_up_to_case s s' ->
  Forall2 same_up_to_case (skipn n s) (skipn n s').
Proof.
  intros H. revert n. induction H as [|a a' s s' Ha H IH]; intros [|n]; cbn;
    try constructor; auto.
Qed.

End LetterCase.

(* ================================================================= *)
(** ** Further properties of the extractor *)

(** X6. The [i] flag: two bodies that differ only in the case of ASCII
    letters give both [null], or two expenses with the same amount and
    date whose descriptions differ only in the case of letters. *)
Theorem X6_case_of_letters_is_ignored (body body' : jsstring) (date : Z) :
  Forall2 same_up_to_case body body' ->
  same_result_up_to_case (parseExpenseFromSms body date)
                         (parseExpenseFromSms body' date).
Proof.
  intros H. unfold parseExpenseFromSms, parseExpenseWith, string_match, string_replace.
  pose proof (exec_from_same_case body body' H 0) as He. fold (exec amountRegex body) in He.
  fold (exec amountRegex body') in He.
  destruct (exec amountRegex body) as [m|], (exec amountRegex body') as [m'|];
    try contradiction; [|exact I].
  destruct He as (Hi & Hl & Hg).
  unfold same_result_up_to_case. cbn [amount App.date description].
  rewrite Hg, Hi, Hl.
  split; [reflexivity|]. split; [reflexivity|].
  apply Forall2_app; [|apply same_case_refl].
  unfold slice0. apply same_case_firstn.
  apply Forall2_app; [apply same_case_firstn, H|].
  cbn [app]. apply same_case_skipn, H.
Qed.

Lemma X6_witness :
  Forall2 same_up_to_case (lit "rs 10 paid") (lit "RS 10 PAID") /\
  same_result_up_to_case (parseExpenseFromSms (lit "rs 10 paid") 0)
                         (parseExpenseFromSms (lit "RS 10 PAID") 0).
Proof.
  assert (H : Forall2 same_up_to_case (lit "rs 10 paid") (lit "RS 10 PAID")).
  { vm_compute (lit _).
    repeat (constructor;
            [first [left; reflexivity
                   | right; right; split; [lia|reflexivity]
                   | right; left; split; [lia|reflexivity]]|]).
    constructor. }
  split; [exact H|].
  exact (X6_case_of_letters_is_ignored _ _ 0%Z H).
Defined.

(* ================================================================= *)
(** ** How close a parsed amount is to the written one *)

Section RoundingError.

Local Open Scope Z_scope.

Lemma digits2_pos_upper (p : positive) : Zpos p < 2 ^ Zpos (digits2_pos p).
Proof.
  induction p as [p IH|p IH|]; simpl digits2_pos.
  - rewrite Pos2Z.inj_succ, Z.pow_succ_r by lia. lia.
  - rewrite Pos2Z.inj_succ, Z.pow_succ_r by lia. lia.
  - simpl. lia.
Qed.

(** Rounding [q * 2^-t], a value below [2^K]: the exponent of the result is
    at most [K - 53], and the result is within three units of that
    exponent of [q * 2^-t]. *)
Lemma binary_round_aux_near (q t K : Z) (l : location) :
  0 <= q -> 0 <= t -> 53 - K <= t -> -1021 <= K <= 1024 ->
  q + 2 ^ (K - 53 + t) < 2 ^ (K + t) ->
  exists m u,
    0 <= m /\ 0 <= u /\ u - t <= K - 53 /\
    binary_round_aux prec emax false q (- t) l =
      match m with
      | Z0 => S754_zero false
      | Zpos m' => S754_finite false m' (u - t)
      | Zneg _ => S754_nan
      end /\
    q - 2 * 2 ^ u < m * 2 ^ u <= q + 2 ^ u.
Proof.
  intros Hq Ht HKt HK Hlt. unfold binary_round_aux.
  destruct (shr_fexp_spec q (- t) l Hq) as (n1 & Hn1 & He1 & He1' & Hm1 & Em1).
  destruct (shr_fexp prec emax q (- t) l) as [mrs1 e1]. cbn [fst snd] in *.
  assert (Hpk : 0 < 2 ^ (K - 53 + t)) by (apply Z.pow_pos_nonneg; lia).
  assert (Hq' : q < 2 ^ (K + t)) by lia.
  assert (Hd : Zdigits2 q <= K + t) by (apply Zdigits2_le; lia).
  assert (Hfe : fexp prec emax (Zdigits2 q + - t) <= K - 53)
    by (unfold fexp, emin, prec, emax; lia).
  assert (He1K : e1 <= K - 53) by lia.
  set (m1' := round_nearest_even (shr_m mrs1) (loc_of_shr_record mrs1)).
  pose proof (round_nearest_even_bounds (shr_m mrs1) (loc_of_shr_record mrs1)) as Hr.
  fold m1' in Hr.
  assert (Hm1' : 0 <= m1') by lia.
  destruct (shr_fexp_spec m1' e1 loc_Exact Hm1') as (n2 & Hn2 & He2 & He2' & Hm2 & Em2).
  destruct (shr_fexp prec emax m1' e1 loc_Exact) as [mrs2 e2]. cbn [fst snd] in *.
  assert (Hpn : 0 < 2 ^ n1) by (apply Z.pow_pos_nonneg; lia).
  assert (Hpn2 : 0 < 2 ^ n2) by (apply Z.pow_pos_nonneg; lia).
  assert (Hlo1 : shr_m mrs1 * 2 ^ n1 <= q).
  { rewrite Em1. rewrite Z.mul_comm. apply Z.mul_div_le. exact Hpn. }
  assert (Hhi1 : q < (shr_m mrs1 + 1) * 2 ^ n1).
  { rewrite Em1. rewrite Z.mul_comm. apply Z.mul_succ_div_gt. exact Hpn. }
  assert (Hlo2 : shr_m mrs2 * 2 ^ n2 <= m1').
  { rewrite Em2. rewrite Z.mul_comm. apply Z.mul_div_le. exact Hpn2. }
  assert (Hhi2 : m1' < (shr_m mrs2 + 1) * 2 ^ n2).
  { rewrite Em2. rewrite Z.mul_comm. apply Z.mul_succ_div_gt. exact Hpn2. }
  assert (Hn1K : 2 ^ n1 <= 2 ^ (K - 53 + t)) by (apply Z.pow_le_mono_r; lia).
  assert (Hbig : (shr_m mrs1 + 1) * 2 ^ n1 < 2 ^ (K - e1) * 2 ^ n1).
  { rewrite <- Z.pow_add_r by lia. replace (K - e1 + n1) with (K + t) by lia. nia. }
  assert (Hm1lt : m1' < 2 ^ (K - e1)).
  { apply Z.mul_lt_mono_pos_r in Hbig; [lia|exact Hpn]. }
  assert (Hd2 : Zdigits2 m1' <= K - e1) by (apply Zdigits2_le; lia).
  assert (Hfe2 : fexp prec emax (Zdigits2 m1' + e1) <= K - 53)
    by (unfold fexp, emin, prec, emax; lia).
  assert (He2K : e2 <= K - 53) by lia.
  exists (shr_m mrs2), (n1 + n2).
  split; [exact Hm2|]. split; [lia|]. split; [lia|]. split.
  - replace (n1 + n2 - t) with e2 by lia.
    destruct (shr_m mrs2) as [|m|m]; [reflexivity| |lia].
    replace (e2 <=? emax - prec) with true; [reflexivity|].
    symmetry. apply Z.leb_le. unfold emax, prec. lia.
  - rewrite Z.pow_add_r by lia.
    assert (H2u : 2 ^ n1 <= 2 ^ n1 * 2 ^ n2) by nia.
    split; nia.
Qed.

(** The quotient of two integers below [10^12], rounded: its exponent is at
    most [-13] and it is within three units of that exponent of the
    quotient. *)
Lemma SFdiv_near (p1 p2 : positive) :
  Zpos p1 < Zpos p2 * 10 ^ 12 ->
  exists m T,
    13 <= T /\ 0 <= m /\
    SFdiv prec emax (S754_finite false p1 0) (S754_finite false p2 0) =
      match m with
      | Z0 => S754_zero false
      | Zpos m' => S754_finite false m' (- T)
      | Zneg _ => S754_nan
      end /\
    Zpos p1 * 2 ^ T - 3 * Zpos p2 < m * Zpos p2 <= Zpos p1 * 2 ^ T + Zpos p2.
Proof.
  intros H. unfold SFdiv, SFdiv_core_binary.
  set (d1 := Zdigits2 (Zpos p1)). set (d2 := Zdigits2 (Zpos p2)).
  assert (Hd2 : Zpos p2 < 2 ^ d2) by apply digits2_pos_upper.
  assert (Hd2pos : 0 < d2) by (unfold d2; simpl; lia).
  assert (Hd1 : d1 <= d2 + 40).
  { apply Zdigits2_le; try lia. rewrite Z.pow_add_r by lia.
    assert (10 ^ 12 < 2 ^ 40) by (vm_compute; reflexivity). nia. }
  set (e' := Z.min (fexp prec emax (d1 + 0 - (d2 + 0))) (0 - 0)).
  assert (He' : e' <= -13) by (unfold e', fexp, emin, prec, emax; lia).
  set (m' := match 0 - 0 - e' with Z0 => _ | Zpos _ => _ | Zneg _ => _ end).
  assert (Hm' : m' = Zpos p1 * 2 ^ (- e')).
  { unfold m'. replace (0 - 0 - e') with (- e') by lia.
    destruct (- e') as [|s|s] eqn:Es; try lia.
    rewrite Z.shiftl_mul_pow2 by lia. reflexivity. }
  set (t := - e') in *.
  assert (Hpt : 0 < 2 ^ t) by (apply Z.pow_pos_nonneg; lia).
  pose proof (Z.div_pos m' (Zpos p2) ltac:(lia) (Pos2Z.is_pos p2)) as Hq.
  pose proof (Z.mul_div_le m' (Zpos p2) (Pos2Z.is_pos p2)) as Hle.
  pose proof (Z.mul_succ_div_gt m' (Zpos p2) (Pos2Z.is_pos p2)) as Hgt.
  unfold Z.div in Hq, Hle, Hgt.
  destruct (Z.div_eucl m' (Zpos p2)) as [q r]. cbn [fst] in Hq, Hle, Hgt.
  cbn [xorb].
  replace e' with (- t) by (unfold t; lia).
  assert (Hqlt : q < 10 ^ 12 * 2 ^ t).
  { assert (Zpos p2 * q < Zpos p2 * (10 ^ 12 * 2 ^ t)) by nia.
    apply Z.mul_lt_mono_pos_l in H0; lia. }
  assert (Hsplit : 2 ^ t = 2 ^ 13 * 2 ^ (t - 13)).
  { rewrite <- Z.pow_add_r by lia. f_equal. lia. }
  assert (Hw : 0 < 2 ^ (t - 13)) by (apply Z.pow_pos_nonneg; lia).
  destruct (binary_round_aux_near q t 40 (new_location (Zpos p2) r))
    as (m & u & Hm & Hu & HuK & Eq & Hlo & Hhi); try lia.
  { replace (40 - 53 + t) with (t - 13) by lia.
    replace (40 + t) with (53 + (t - 13)) by lia.
    rewrite Z.pow_add_r by lia. rewrite Hsplit in Hqlt.
    assert (10 ^ 12 * 2 ^ 13 + 1 <= 2 ^ 53) by (vm_compute; discriminate).
    nia. }
  exists m, (t - u). split; [lia|]. split; [exact Hm|]. split.
  - rewrite Eq. replace (- (t - u)) with (u - t) by lia. reflexivity.
  - assert (Hpu : 0 < 2 ^ u) by (apply Z.pow_pos_nonneg; lia).
    assert (Htu : 2 ^ t = 2 ^ (t - u) * 2 ^ u).
    { rewrite <- Z.pow_add_r by lia. f_equal. lia. }
    assert (HpT : 0 < 2 ^ (t - u)) by (apply Z.pow_pos_nonneg; lia).
    rewrite Hm', Htu in Hle, Hgt.
    split.
    + apply (Z.mul_lt_mono_pos_r (2 ^ u)); [exact Hpu|]. nia.
    + apply (Z.mul_le_mono_pos_r _ _ (2 ^ u)); [exact Hpu|]. nia.
Qed.

(** A written amount below [10^12] with at most two fraction digits is
    shown by [toFixed(2)] with exactly the written value. *)
Lemma toFixed2_of_decimal (n : N) (k : Z) :
  0 <= k <= 2 -> Z.of_N n < 10 ^ (12 + k) ->
  toFixed2 (of_decimal false n (0 - k)) =
  Text (fixed_text (n * 10 ^ Z.to_N (2 - k))%N).
Proof.
  intros Hk Hn. destruct n as [|p]; [reflexivity|].
  unfold of_decimal.
  replace (Z.max (0 - k) 0) with 0 by lia.
  replace (Z.max (- (0 - k)) 0) with k by lia.
  change (10 ^ 0) with 1. rewrite Z.mul_1_r. rewrite Pos2Z.id.
  assert (Hpk : 0 < 10 ^ k) by (apply Z.pow_pos_nonneg; lia).
  destruct (10 ^ k) as [|p2|p2] eqn:E2; try lia.
  rewrite Pos2Z.id || (change (Z.to_pos (Zpos p2)) with p2).
  assert (Hlt : Zpos p < Zpos p2 * 10 ^ 12).
  { rewrite <- E2, <- Z.pow_add_r by lia.
    replace (k + 12) with (12 + k) by lia. exact Hn. }
  assert (Hp2 : Zpos p2 <= 100).
  { rewrite <- E2. change 100 with (10 ^ 2). apply Z.pow_le_mono_r; lia. }
  destruct (SFdiv_near p p2 Hlt) as (m & T & HT & Hm & Eq & Hlo & Hhi).
  rewrite Eq. clear Eq.
  assert (HpT : 2 ^ 13 <= 2 ^ T) by (apply Z.pow_le_mono_r; lia).
  change (2 ^ 13) with 8192 in HpT.
  assert (Hscale : Zpos p2 * 10 ^ (2 - k) = 100).
  { rewrite <- E2, <- Z.pow_add_r by lia.
    replace (k + (2 - k)) with 2 by lia. reflexivity. }
  assert (Hs : 0 < 10 ^ (2 - k)) by (apply Z.pow_pos_nonneg; lia).
  destruct m as [|m|m]; [nia| |lia].
  unfold toFixed2.
  replace (Z.max (- T) 0) with 0 by lia.
  replace (Z.max (- - T) 0) with T by lia.
  change (2 ^ 0) with 1. rewrite Z.mul_1_r.
  assert (H12 : 10 ^ 12 * 8192 < 10 ^ 21) by (vm_compute; reflexivity).
  assert (Hp12 : 0 < 10 ^ 12) by (vm_compute; reflexivity).
  destruct (10 ^ 21 * 2 ^ T <=? Zpos m) eqn:Ebig.
  { apply Z.leb_le in Ebig. exfalso.
    assert (Zpos m * Zpos p2 < 10 ^ 21 * 2 ^ T * Zpos p2); nia. }
  cbn [app]. f_equal. f_equal.
  apply N2Z.inj. rewrite Z2N.id.
  2:{ apply Z.div_pos; lia. }
  rewrite N2Z.inj_mul, N2Z.inj_pow, Z2N.id by lia.
  change (Z.of_N (N.pos p)) with (Zpos p). change (Z.of_N 10) with 10.
  symmetry. apply Z.div_unique with
    (r := 200 * Zpos m + 2 ^ T - 2 * 2 ^ T * (Zpos p * 10 ^ (2 - k))).
  - left. 
    assert (E100 : 100 * Zpos m = Zpos m * Zpos p2 * 10 ^ (2 - k)) by nia.
    assert (Hlo' : (Zpos p * 2 ^ T - 3 * Zpos p2) * 10 ^ (2 - k)
                   < Zpos m * Zpos p2 * 10 ^ (2 - k))
      by (apply Z.mul_lt_mono_pos_r; lia).
    assert (Hhi' : Zpos m * Zpos p2 * 10 ^ (2 - k)
                   <= (Zpos p * 2 ^ T + Zpos p2) * 10 ^ (2 - k))
      by (apply Z.mul_le_mono_nonneg_r; lia).
    nia.
  - lia.
Qed.

End RoundingError.

(* ================================================================= *)
(** ** Decimal digits, written and read back *)

Section DecimalDigits.

Lemma digits_fuel_S (f : nat) (n : N) :
  digits_fuel (S f) n =
  if (n <? 10)%N then [(48 + n)%N]
  else digits_fuel f (n / 10)%N ++ [(48 + n mod 10)%N].
Proof. reflexivity. Qed.

Lemma div10_lt (n : N) (f : nat) :
  (n < 10 ^ N.of_nat (S f))%N -> (n / 10 < 10 ^ N.of_nat f)%N.
Proof.
  intros H. rewrite Nat2N.inj_succ, N.pow_succ_r' in H.
  apply N.Div0.div_lt_upper_bound. exact H.
Qed.

(** Any fuel that covers the digits of [n] gives the same text. *)
Lemma digits_fuel_enough (f1 f2 : nat) (n : N) :
  (n < 10 ^ N.of_nat (S f1))%N -> (n < 10 ^ N.of_nat (S f2))%N ->
  digits_fuel (S f1) n = digits_fuel (S f2) n.
Proof.
  revert f2 n. induction f1 as [|f1 IH]; intros f2 n H1 H2;
    rewrite (digits_fuel_S _ n), (digits_fuel_S f2 n);
    destruct (N.ltb_spec n 10) as [Hlt|Hge]; try reflexivity.
  - change (10 ^ N.of_nat 1)%N with 10%N in H1. lia.
  - destruct f2 as [|f2].
    + change (10 ^ N.of_nat 1)%N with 10%N in H2. lia.
    + f_equal. apply IH; apply div10_lt; assumption.
Qed.

Lemma fuel_bound (n : N) : (n < 10 ^ N.of_nat (S (N.to_nat (N.log2 n))))%N.
Proof.
  rewrite Nat2N.inj_succ, N2Nat.id.
  destruct n as [|p].
  - apply N.neq_0_lt_0. apply N.pow_nonzero. discriminate.
  - destruct (N.log2_spec (N.pos p)) as [_ H]; [reflexivity|].
    eapply N.lt_le_trans; [exact H|].
    apply N.pow_le_mono_l. lia.
Qed.

Lemma decimal_digits_small (n : N) :
  (n < 10)%N -> decimal_digits n = [(48 + n)%N].
Proof.
  intros H. unfold decimal_digits. rewrite digits_fuel_S.
  destruct (N.ltb_spec n 10); [reflexivity|lia].
Qed.

Lemma decimal_digits_step (n : N) :
  (10 <= n)%N ->
  decimal_digits n = decimal_digits (n / 10) ++ [(48 + n mod 10)%N].
Proof.
  intros H. unfold decimal_digits at 1. rewrite digits_fuel_S.
  destruct (N.ltb_spec n 10) as [Hlt|_]; [lia|].
  f_equal. pose proof (fuel_bound n) as Hb.
  destruct (N.to_nat (N.log2 n)) as [|g] eqn:Eg.
  - change (10 ^ N.of_nat 1)%N with 10%N in Hb. lia.
  - unfold decimal_digits. apply digits_fuel_enough.
    + apply div10_lt. exact Hb.
    + apply fuel_bound.
Qed.

Lemma digit_range (d : char16) : is_digit d = true -> (48 <= d <= 57)%N.
Proof.
  unfold is_digit. intros H. apply andb_prop in H. destruct H as [H1 H2].
  apply N.leb_le in H1, H2. lia.
Qed.

Lemma digits_value_snoc (s : jsstring) (d : char16) :
  digits_value (s ++ [d]) = (10 * digits_value s + (d - 48))%N.
Proof. unfold digits_value. rewrite fold_left_app. reflexivity. Qed.

Lemma digits_value_zero (s : jsstring) :
  digits_value (code "0" :: s) = digits_value s.
Proof. reflexivity. Qed.

(** Digits that do not start with a zero are the decimal digits of their
    value. *)
Lemma decimal_digits_value (c : char16) (t : jsstring) :
  Forall (fun d => is_digit d = true) (c :: t) -> c <> code "0" ->
  decimal_digits (digits_value (c :: t)) = c :: t /\
  (1 <= digits_value (c :: t))%N.
Proof.
  intros Hd Hc. change (code "0") with 48%N in Hc.
  induction t as [|d t IH] using rev_ind.
  - inversion Hd as [|? ? Hc' _]; subst. apply digit_range in Hc'.
    change (digits_value [c]) with (10 * 0 + (c - 48))%N.
    split; [|lia]. rewrite decimal_digits_small by lia. f_equal. lia.
  - change (c :: t ++ [d]) with ((c :: t) ++ [d]) in Hd |- *.
    apply Forall_app in Hd. destruct Hd as [Hct Hd].
    inversion Hd as [|? ? Hd' _]; subst. apply digit_range in Hd'.
    destruct (IH Hct) as [IH1 IH2].
    rewrite digits_value_snoc. set (v := digits_value (c :: t)) in *.
    split; [|lia]. rewrite decimal_digits_step by lia.
    replace ((10 * v + (d - 48)) / 10)%N with v
      by (apply (N.div_unique _ 10 v (d - 48)); lia).
    replace ((10 * v + (d - 48)) mod 10)%N with (d - 48)%N
      by (apply (N.mod_unique _ 10 v (d - 48)); lia).
    rewrite IH1. f_equal. f_equal. lia.
Qed.

Lemma digit_cases (d : char16) :
  is_digit d = true ->
  (d = 48 \/ d = 49 \/ d = 50 \/ d = 51 \/ d = 52 \/
   d = 53 \/ d = 54 \/ d = 55 \/ d = 56 \/ d = 57)%N.
Proof. intros H. apply digit_range in H. lia. Qed.

(** Hundredths written as integer digits and two fraction digits come
    back as written, when the integer digits have no leading zero. *)
Lemma fixed_text_canonical (c : char16) (t : jsstring) (f1 f2 : char16) :
  Forall (fun d => is_digit d = true) (c :: t) ->
  c <> code "0" \/ t = [] ->
  is_digit f1 = true -> is_digit f2 = true ->
  fixed_text (digits_value ((c :: t) ++ [f1; f2])) = (c :: t) ++ [code "."; f1; f2].
Proof.
  intros Hd Hc H1 H2.
  destruct (N.eq_dec c (code "0")) as [E0|Hne].
  - destruct Hc as [Hc| ->]; [contradiction|]. subst c.
    apply digit_cases in H1, H2.
    repeat (destruct H1 as [H1|H1]); subst f1;
      repeat (destruct H2 as [H2|H2]); subst f2; vm_compute; reflexivity.
  - assert (Hall : Forall (fun d => is_digit d = true) (c :: (t ++ [f1; f2]))).
    { change (c :: t ++ [f1; f2]) with ((c :: t) ++ [f1; f2]).
      apply Forall_app. split; [exact Hd|]. repeat constructor; assumption. }
    destruct (decimal_digits_value c (t ++ [f1; f2]) Hall Hne) as [E _].
    change ((c :: t) ++ [f1; f2]) with (c :: t ++ [f1; f2]).
    unfold fixed_text. rewrite E. unfold pad_zeros.
    replace (3 - length (c :: t ++ [f1; f2]))%nat with 0%nat
      by (cbn [length]; rewrite length_app; cbn [length]; lia).
    cbn [repeat app].
    replace (length (c :: t ++ [f1; f2]) - 2)%nat with (length (c :: t))
      by (cbn [length]; rewrite length_app; cbn [length]; lia).
    change (c :: t ++ [f1; f2]) with ((c :: t) ++ [f1; f2]).
    rewrite firstn_length_app, skipn_length_app. reflexivity.
Qed.

(** The same for any integer digits: leading zeros are not shown. *)
Lemma fixed_text_drop_zeros (ds : jsstring) (f1 f2 : char16) :
  ds <> [] -> Forall (fun d => is_digit d = true) ds ->
  is_digit f1 = true -> is_digit f2 = true ->
  fixed_text (digits_value (ds ++ [f1; f2])) = drop_zeros ds ++ [code "."; f1; f2].
Proof.
  intros Hne Hd H1 H2. induction ds as [|c t IH]; [congruence|].
  destruct t as [|c' t].
  - apply fixed_text_canonical; auto.
  - cbn [drop_zeros]. destruct (N.eqb_spec c (code "0")) as [->|Hc].
    + change ((code "0" :: c' :: t) ++ [f1; f2])
        with (code "0" :: (c' :: t) ++ [f1; f2]).
      rewrite digits_value_zero. apply IH; [discriminate|].
      inversion Hd; assumption.
    + apply fixed_text_canonical; auto.
Qed.

(** The digits of a captured token and the value [parseFloat] reads. *)
Lemma take_token_digits (s tok : jsstring) (g2 : option jsstring) (r : jsstring) :
  take_token s = Some (tok, g2, r) ->
  exists ds fd,
    token_digits tok = (ds, fd) /\ ds <> [] /\
    span_digits s = (ds, skipn (length ds) s) /\
    Forall (fun d => is_digit d = true) ds /\
    Forall (fun d => is_digit d = true) fd /\
    (length fd <= 2)%nat /\
    parseFloat tok =
    of_decimal false (digits_value (ds ++ fd)) (0 - Z.of_nat (length fd)).
Proof.
  intros H.
  pose proof (take_token_some _ _ _ _ H) as (_ & d0 & tok0 & Etok & Hd0).
  assert (Hpf : parseFloat tok = str_unsigned_decimal false tok).
  { subst tok. unfold parseFloat. cbn [trim_start].
    rewrite (is_digit_not_space d0 Hd0).
    pose proof (digit_range d0 Hd0) as Hr.
    replace (d0 =? code "+")%N with false
      by (symmetry; apply N.eqb_neq; vm_compute (code "+"); lia).
    replace (d0 =? code "-")%N with false
      by (symmetry; apply N.eqb_neq; vm_compute (code "-"); lia).
    reflexivity. }
  assert (Hinf : starts_with (lit "Infinity") tok = false).
  { subst tok. change (lit "Infinity") with (73%N :: lit "nfinity").
    cbn [starts_with]. pose proof (digit_range d0 Hd0) as Hr.
    replace (73 =? d0)%N with false by (symmetry; apply N.eqb_neq; lia).
    reflexivity. }
  rewrite Hpf. unfold str_unsigned_decimal, token_digits. rewrite Hinf.
  clear Hpf Hinf Etok.
  unfold take_token in H.
  destruct (span_digits s) as [ds r0] eqn:Es.
  destruct (span_digits_all _ _ _ Es) as [Hds Hr0].
  destruct ds as [|d ds]; [discriminate|].
  assert (Hspan : (d :: ds, r0) = (d :: ds, skipn (length (d :: ds)) s)).
  { apply span_digits_app in Es. subst s. rewrite skipn_length_app. reflexivity. }
  clear Es.
  destruct (take_frac r0) as [[fr r']|] eqn:Ef.
  - injection H as <- <- <-.
    unfold take_frac in Ef. destruct r0 as [|a t]; [discriminate|].
    destruct (ci (code ":") a) eqn:Ecolon.
    + apply ci_exact in Ecolon; [|reflexivity]. subst a.
      destruct (dot_digits t) as [[fr' r'']|]; [|discriminate].
      injection Ef as <- <-.
      match goal with
      | |- context [span_digits ?y] =>
        replace (span_digits y) with (d :: ds, code ":" :: fr')
          by (symmetry; exact (span_digits_stop (d :: ds) (code ":" :: fr') Hds eq_refl))
      end.
      change (code ":" =? code ".")%N with false. cbv iota.
      exists (d :: ds), []. rewrite !app_nil_r.
      repeat split; try assumption; try constructor; try discriminate.
      simpl. lia.
    + unfold dot_digits in Ef.
      destruct (ci (code ".") a) eqn:Edot; [|discriminate].
      apply ci_exact in Edot; [|reflexivity]. subst a.
      destruct (digits12 t) as [[fd r'']|] eqn:E12; [|discriminate].
      injection Ef as <- <-.
      destruct (digits12_digits _ _ _ E12) as (Hfd & Hlen & _).
      match goal with
      | |- context [span_digits ?y] =>
        replace (span_digits y) with (d :: ds, code "." :: fd)
          by (symmetry; exact (span_digits_stop (d :: ds) (code "." :: fd) Hds eq_refl))
      end.
      change (code "." =? code ".")%N with true. cbv iota.
      pose proof (span_digits_stop fd [] Hfd I) as Efd.
      rewrite app_nil_r in Efd. rewrite Efd.
      exists (d :: ds), fd.
      repeat split; try assumption; try discriminate.
  - injection H as <- <- <-.
    pose proof (span_digits_stop (d :: ds) [] Hds I) as Efd.
    rewrite app_nil_r in Efd. rewrite Efd. cbv iota.
    exists (d :: ds), []. rewrite !app_nil_r.
    repeat split; try assumption; try constructor; try discriminate.
    simpl. lia.
Qed.

Lemma digits_value_two_zeros (s : jsstring) :
  digits_value (s ++ [code "0"; code "0"]) = (digits_value s * 100)%N.
Proof.
  change (s ++ [code "0"; code "0"]) with (s ++ [code "0"] ++ [code "0"]).
  rewrite app_assoc, !digits_value_snoc.
  change (code "0" - 48)%N with 0%N. lia.
Qed.

Lemma digits_value_one_zero (s : jsstring) (f : char16) :
  digits_value (s ++ [f; code "0"]) = (digits_value (s ++ [f]) * 10)%N.
Proof.
  change (s ++ [f; code "0"]) with (s ++ [f] ++ [code "0"]).
  rewrite app_assoc, (digits_value_snoc (s ++ [f])).
  change (code "0" - 48)%N with 0%N. lia.
Qed.

(** An amount of at most 12 integer digits is shown as it is written. *)
Lemma toFixed2_token (s tok : jsstring) (g2 : option jsstring) (r : jsstring) :
  take_token s = Some (tok, g2, r) ->
  (length (fst (token_digits tok)) <= 12)%nat ->
  toFixed2 (parseFloat tok) = Text (written_amount tok).
Proof.
  intros H Hlen.
  destruct (take_token_digits _ _ _ _ H)
    as (ds & fd & Etd & Hne & _ & Hds & Hfd & Hfl & Epf).
  unfold written_amount. rewrite Etd in *. cbn [fst] in Hlen. rewrite Epf.
  rewrite toFixed2_of_decimal.
  - f_equal.
    destruct fd as [|f1 [|f2 [|f3 fd]]]; [| | |cbn [length] in Hfl; lia].
    + cbn [length Nat.sub repeat app]. rewrite app_nil_r.
      change (10 ^ Z.to_N (2 - Z.of_nat 0))%N with 100%N.
      rewrite <- digits_value_two_zeros.
      apply fixed_text_drop_zeros; auto.
    + cbn [length Nat.sub repeat app].
      change (10 ^ Z.to_N (2 - Z.of_nat 1))%N with 10%N.
      rewrite <- digits_value_one_zero.
      inversion Hfd; subst. apply fixed_text_drop_zeros; auto.
    + cbn [length Nat.sub repeat app].
      change (10 ^ Z.to_N (2 - Z.of_nat 2))%N with 1%N.
      rewrite N.mul_1_r.
      inversion Hfd as [|? ? H1 Hfd']; subst. inversion Hfd'; subst.
      apply fixed_text_drop_zeros; auto.
  - lia.
  - pose proof (digits_value_lt (ds ++ fd)
                  (proj2 (Forall_app _ _ _) (conj Hds Hfd))) as Hv.
    eapply Z.lt_le_trans; [exact Hv|].
    apply Z.pow_le_mono_r; [lia|]. rewrite length_app. lia.
Qed.

Lemma digits_fuel_digits (f : nat) (n : N) :
  Forall (fun d => is_digit d = true) (digits_fuel f n).
Proof.
  revert n. induction f as [|f IH]; intros n; [constructor|].
  rewrite digits_fuel_S. destruct (N.ltb_spec n 10) as [Hlt|Hge].
  - constructor; [|constructor].
    unfold is_digit. apply andb_true_intro. split; apply N.leb_le; lia.
  - apply Forall_app. split; [apply IH|]. constructor; [|constructor].
    pose proof (N.mod_lt n 10 ltac:(discriminate)) as Hm.
    revert Hm. generalize (n mod 10)%N. intros r Hr.
    unfold is_digit. apply andb_true_intro. split; apply N.leb_le; lia.
Qed.

Lemma digits_fuel_nonempty (f : nat) (n : N) : digits_fuel (S f) n <> [].
Proof.
  rewrite digits_fuel_S. destruct (n <? 10)%N; [discriminate|].
  intros E. apply app_eq_nil in E. destruct E as [_ E]. discriminate.
Qed.

(** The text of a number of hundredths: digits, a point, two digits. *)
Lemma fixed_text_format (n : N) :
  exists ip f1 f2,
    fixed_text n = ip ++ [code "."; f1; f2] /\ ip <> [] /\
    Forall (fun d => is_digit d = true) (ip ++ [f1; f2]).
Proof.
  unfold fixed_text. set (m := pad_zeros 3 (decimal_digits n)).
  assert (Hm : Forall (fun d => is_digit d = true) m).
  { unfold m, pad_zeros. apply Forall_app. split.
    - apply Forall_forall. intros x Hx. apply repeat_spec in Hx. subst x. reflexivity.
    - apply digits_fuel_digits. }
  assert (Hlen : (3 <= length m)%nat).
  { unfold m, pad_zeros. rewrite length_app, repeat_length. lia. }
  pose proof (firstn_skipn (length m - 2) m) as Hsplit.
  pose proof (length_skipn (length m - 2) m) as Hs.
  pose proof (length_firstn (length m - 2) m) as Hf.
  destruct (skipn (length m - 2) m) as [|f1 [|f2 [|f3 l]]];
    cbn [length] in Hs; try lia.
  exists (firstn (length m - 2) m), f1, f2. split; [reflexivity|]. split.
  - intros E. rewrite E in Hf. cbn [length] in Hf. lia.
  - rewrite Hsplit. exact Hm.
Qed.

(** What [toFixed(2)] gives for a number that is neither NaN nor
    negative. *)
Lemma toFixed2_nonneg (x : number) :
  nonneg_number x ->
  match toFixed2 x with
  | Text s =>
    s = lit "Infinity" \/
    exists ip f1 f2,
      s = ip ++ [code "."; f1; f2] /\ ip <> [] /\
      Forall (fun d => is_digit d = true) (ip ++ [f1; f2])
  | ToStringOf y => y = x
  end.
Proof.
  destruct x as [[|]|[|]| |[|] m e]; cbn [nonneg_number]; try contradiction; intros _.
  - right. apply fixed_text_format.
  - left. reflexivity.
  - unfold toFixed2.
    destruct (10 ^ 21 * 2 ^ Z.max (- e) 0 <=? Zpos m * 2 ^ Z.max e 0)%Z;
      [reflexivity|].
    right. cbn [app]. apply fixed_text_format.
Qed.

End DecimalDigits.

(* ================================================================= *)
(** ** Further properties of the rows *)

(** X7. The amount of a row is the amount as the message writes it, when
    the captured token has at most 12 integer digits: the integer digits
    without leading zeros, a point and two fraction digits, the written
    ones first and zeros after them.  Neither the conversion to a double
    nor the one back to text changes a digit.  Longer amounts lose digits:
    [Rs 9007199254740993] is shown as [9007199254740992.00]. *)
Theorem X7_row_shows_written_amount :
  (forall body date m tok,
      string_match body amountRegex = Some m ->
      group m 1 = Some tok ->
      (length (fst (token_digits tok)) <= 12)%nat ->
      exists e,
        parseExpenseFromSms body date = Some e /\
        row_amount (renderItem e) = Text (written_amount tok)) /\
  (exists e,
      parseExpenseFromSms (lit "Rs 9007199254740993") 0 = Some e /\
      row_amount (renderItem e) = Text (lit "9007199254740992.00")).
Proof.
  split.
  - intros body date m tok Hm Hg Hlen.
    destruct (parseExpenseFromSms_some body date m Hm)
      as (pre & mk & ws & tok' & g2 & post & Hb & Hmk & Hws & Ht & Hl & Em & He).
    subst m. cbn in Hg. injection Hg as ->.
    eexists. split; [exact He|].
    cbn [renderItem row_amount amount].
    apply (toFixed2_token _ _ _ _ Ht Hlen).
  - eexists. split; vm_compute; reflexivity.
Qed.

Lemma X7_witness :
  string_match (lit "Paid INR 007.5 at cafe") amountRegex =
    Some (MatchResult 5 (lit "INR 007.5") [Some (lit "007.5"); Some (lit ".5")]) /\
  exists e,
    parseExpenseFromSms (lit "Paid INR 007.5 at cafe") 3 = Some e /\
    row_amount (renderItem e) = Text (lit "7.50").
Proof.
  assert (H : string_match (lit "Paid INR 007.5 at cafe") amountRegex =
    Some (MatchResult 5 (lit "INR 007.5") [Some (lit "007.5"); Some (lit ".5")]))
    by (vm_compute; reflexivity).
  split; [exact H|].
  refine (proj1 X7_row_shows_written_amount (lit "Paid INR 007.5 at cafe") 3%Z _
            (lit "007.5") H _ _).
  - reflexivity.
  - vm_compute. lia.
Defined.

(** X8. A row never shows [NaN] and never a minus sign: the amount of an
    expense the extractor returns is shown as digits, a point and exactly
    two digits, as [Infinity], or, from [10^21] on, as the text of
    [ToString] for that amount. *)
Theorem X8_row_amount_shape (body : jsstring) (date : Z) (e : Expense) :
  parseExpenseFromSms body date = Some e ->
  match row_amount (renderItem e) with
  | Text s =>
    s = lit "Infinity" \/
    exists ip f1 f2,
      s = ip ++ [code "."; f1; f2] /\ ip <> [] /\
      Forall (fun d => is_digit d = true) (ip ++ [f1; f2])
  | ToStringOf y => y = amount e
  end.
Proof.
  intros He. destruct (exec amountRegex body) as [m|] eqn:Hm.
  - destruct (parseExpenseFromSms_some body date m Hm)
      as (pre & mk & ws & tok & g2 & post & Hb & Hmk & Hws & Ht & Hl & Em & Hp).
    rewrite Hp in He. injection He as <-.
    cbn [renderItem row_amount amount].
    apply toFixed2_nonneg. apply (parseFloat_token_nonneg _ _ _ _ Ht).
  - rewrite (parseExpenseFromSms_none body date Hm) in He. discriminate.
Qed.

Lemma X8_witness :
  parseExpenseFromSms (lit "Rs 1e400 due") 1 =
    Some {| amount := Prim2SF 1%float;
            description := lit "e400 due...";
            date := toLocaleDateString 1 |} /\
  match row_amount (renderItem {| amount := Prim2SF 1%float;
                                   description := lit "e400 due...";
                                   date := toLocaleDateString 1 |}) with
  | Text s =>
    s = lit "Infinity" \/
    exists ip f1 f2,
      s = ip ++ [code "."; f1; f2] /\ ip <> [] /\
      Forall (fun d => is_digit d = true) (ip ++ [f1; f2])
  | ToStringOf y => y = Prim2SF 1%float
  end.
Proof.
  assert (H : parseExpenseFromSms (lit "Rs 1e400 due") 1 =
    Some {| amount := Prim2SF 1%float;
            description := lit "e400 due...";
            date := toLocaleDateString 1 |}) by (vm_compute; reflexivity).
  split; [exact H|].
  exact (X8_row_amount_shape _ _ _ H).
Defined.

(* ================================================================= *)
(** ** What a run of events keeps true *)

Section ScreenInvariants.

Lemma run_snoc_out (evs : list event) :
  forall s ev,
    snd (run s (evs ++ [ev])) =
    snd (run s evs) ++ snd (step (fst (run s evs)) ev).
Proof.
  induction evs as [|e evs IH]; intros s ev.
  - cbn [app]. rewrite run_cons. cbn [run fst snd]. rewrite app_nil_r. reflexivity.
  - cbn [app]. rewrite !run_cons. cbn [fst snd]. rewrite IH, app_assoc. reflexivity.
Qed.

Lemma console_lines_app (a b : list command) :
  console_lines (a ++ b) = console_lines a ++ console_lines b.
Proof.
  induction a as [|c a IH]; [reflexivity|].
  destruct c; cbn [app console_lines]; rewrite IH; reflexivity.
Qed.

Lemma console_lines_logs (l : list message) :
  console_lines (List.map ConsoleLog l) = l.
Proof. induction l as [|m l IH]; [reflexivity|]. cbn. rewrite IH. reflexivity. Qed.

(** One event keeps the list, empties it, or replaces it by what a
    successful read found. *)
Lemma step_expenses (s : hooks) (ev : event) :
  expenses (fst (step s ev)) = expenses s \/
  expenses (fst (step s ev)) = [] \/
  exists count l,
    ev = ListSucceeded count (JsonArray l) /\
    expenses (fst (step s ev)) = newExpenses l.
Proof.
  step_cases s ev; try (left; reflexivity).
  - destruct (loading s); [left; reflexivity|].
    destruct (permissionGranted s); [right; left|left]; reflexivity.
  - destruct (granted_or_not s g) as [(_ & _ & ->)|(_ & _ & ->)]; left; reflexivity.
  - right; right. exists count, l. split; reflexivity.
  - destruct (scheduled s) as [[|]|], (Bool.eqb (deps s) (permissionGranted s));
      first [left; reflexivity|right; left; reflexivity].
  - destruct (scheduled s) as [[|]|];
      first [left; reflexivity|right; left; reflexivity].
Qed.

(** One event appends its console lines to the debug text, or starts the
    debug text again with the last of them. *)
Lemma step_debug (s : hooks) (ev : event) :
  debug (fst (step s ev)) = debug s ++ console_lines (snd (step s ev)) \/
  exists pre, console_lines (snd (step s ev)) = pre ++ debug (fst (step s ev)).
Proof.
  step_cases s ev; cbn [fst snd debug];
    rewrite ?console_lines_app, ?console_lines_logs;
    try (left; cbn; rewrite <- ?app_assoc; reflexivity).
  - destruct (loading s).
    + left. cbn. rewrite app_nil_r. reflexivity.
    + destruct (permissionGranted s).
      * right. exists []. reflexivity.
      * left. cbn. rewrite app_nil_r. reflexivity.
  - destruct (granted_or_not s g) as [(_ & _ & ->)|(_ & _ & ->)];
      left; reflexivity.
  - destruct (scheduled s) as [[|]|], (Bool.eqb (deps s) (permissionGranted s));
      first [right; exists []; reflexivity
            |left; cbn; rewrite app_nil_r; reflexivity].
  - destruct (scheduled s) as [[|]|];
      first [right; exists []; reflexivity
            |left; cbn; rewrite app_nil_r; reflexivity].
Qed.

End ScreenInvariants.

(* ================================================================= *)
(** ** Further properties of a run of events *)

(** X9. Rescans replace, they never add: after any run of events from the
    mounted screen the list is empty or is exactly what one successful
    read of the run found, the expenses of its messages in their order.
    So every expense on the screen was read by the extractor from one
    message of that read. *)
Theorem X9_list_is_one_read (evs : list event) :
  (expenses (fst (run mounted evs)) = [] \/
   exists count l,
     In (ListSucceeded count (JsonArray l)) evs /\
     expenses (fst (run mounted evs)) = newExpenses l) /\
  (forall e,
      In e (expenses (fst (run mounted evs))) ->
      exists count l sms,
        In (ListSucceeded count (JsonArray l)) evs /\ In sms l /\
        parseExpenseFromSms (sms_body sms) (sms_date sms) = Some e).
Proof.
  assert (H : expenses (fst (run mounted evs)) = [] \/
              exists count l,
                In (ListSucceeded count (JsonArray l)) evs /\
                expenses (fst (run mounted evs)) = newExpenses l).
  { induction evs as [|ev evs IH] using rev_ind; [left; reflexivity|].
    rewrite run_snoc.
    destruct (step_expenses (fst (run mounted evs)) ev)
      as [E|[E|(count & l & -> & E)]]; rewrite E.
    - destruct IH as [IH|(count & l & Hin & IH)]; [left; exact IH|].
      right. exists count, l. split; [|exact IH].
      apply in_or_app. left. exact Hin.
    - left. reflexivity.
    - right. exists count, l. split; [|reflexivity].
      apply in_or_app. right. apply in_eq. }
  split; [exact H|].
  intros e He. destruct H as [H|(count & l & Hin & H)]; rewrite H in He.
  - contradiction.
  - exists count, l. unfold newExpenses in He.
    assert (Hsome : In (Some e)
              (List.map (fun sms => parseExpenseFromSms (sms_body sms) (sms_date sms)) l)).
    { revert He. generalize
        (List.map (fun sms => parseExpenseFromSms (sms_body sms) (sms_date sms)) l).
      intros os. induction os as [|[e'|] os IHos]; cbn [filter_non_null].
      - intros [].
      - intros [->|Hr]; [apply in_eq|apply in_cons, IHos, Hr].
      - intros Hr. apply in_cons, IHos, Hr. }
    apply in_map_iff in Hsome. destruct Hsome as (sms & Hp & Hs).
    exists sms. repeat split; assumption.
Qed.

Lemma X9_witness :
  In {| amount := Prim2SF 250%float;
        description := lit " paid...";
        date := toLocaleDateString 4 |}
     (expenses (fst (run mounted
        [ButtonPressed; PermissionAnswered (Resolved GRANTED);
         ListSucceeded 2 (JsonArray [ {| sms_body := lit "hello"; sms_date := 3 |};
                                      {| sms_body := lit "Rs 250 paid"; sms_date := 4 |} ])]))) /\
  exists count l sms,
    In (ListSucceeded count (JsonArray l))
       [ButtonPressed; PermissionAnswered (Resolved GRANTED);
        ListSucceeded 2 (JsonArray [ {| sms_body := lit "hello"; sms_date := 3 |};
                                     {| sms_body := lit "Rs 250 paid"; sms_date := 4 |} ])] /\
    In sms l /\
    parseExpenseFromSms (sms_body sms) (sms_date sms) =
      Some {| amount := Prim2SF 250%float;
              description := lit " paid...";
              date := toLocaleDateString 4 |}.
Proof.
  assert (H : In {| amount := Prim2SF 250%float;
        description := lit " paid...";
        date := toLocaleDateString 4 |}
     (expenses (fst (run mounted
        [ButtonPressed; PermissionAnswered (Resolved GRANTED);
         ListSucceeded 2 (JsonArray [ {| sms_body := lit "hello"; sms_date := 3 |};
                                      {| sms_body := lit "Rs 250 paid"; sms_date := 4 |} ])])))).
  { vm_compute. left. reflexivity. }
  split; [exact H|].
  exact (proj2 (X9_list_is_one_read _) _ H).
Defined.

(** X10. The debug text is the end of the console log: after any run of
    events from the mounted screen, the lines of the debug text are the
    last lines written to the console, in the same order.  A scan clears
    the text and the console keeps the earlier lines. *)
Theorem X10_debug_is_end_of_console (evs : list event) :
  exists earlier,
    console_lines (snd (run mounted evs)) =
    earlier ++ debug (fst (run mounted evs)).
Proof.
  induction evs as [|ev evs IH] using rev_ind; [exists []; reflexivity|].
  destruct IH as (earlier & IH).
  rewrite run_snoc, run_snoc_out, console_lines_app, IH.
  destruct (step_debug (fst (run mounted evs)) ev) as [E|(pre & E)]; rewrite E.
  - exists earlier. rewrite app_assoc. reflexivity.
  - exists ((earlier ++ debug (fst (run mounted evs))) ++ pre).
    rewrite <- !app_assoc. reflexivity.
Qed.
